(** * StringMatchRetrieverAgent (parlai/agents/ir_baseline/ir_retrieve.py)

    A shallow embedding of the string-match retriever: the vocabulary
    ([token2id]), the shared fact-id counter, ingestion ([act],
    [process_act], [new_freq]), the master's merge loop
    ([process_child_data], [_process_data]), the count matrix and the
    TF-IDF weighting, and [retrieve].

    Conventions.
    - An attribute that the Python code creates lazily and tests with
      [hasattr] is an [option] field: [None] means "no such attribute".
    - A method is a function [Agent -> Outcome A * Agent]: the agent is
      returned also when an exception is raised, because the mutations made
      before the [raise] stay visible to the caller.
    - Floating point values are idealised as real numbers ([R]); numpy's
      [log], [log1p], [/] are the real functions.  Integer counts are
      unbounded ([Z]); the fact-id counter is a C [int] and wraps. *)

From Stdlib Require Import ZArith List Lia Reals Lra Ascii.
From stdpp Require Import gmap strings list fin_maps sorting.

Local Open Scope Z_scope.

(** ** Python values that travel through the agent *)

(** Tokens are [str] (or an already resolved [int] id); identifiers and
    counts are [int].  Tuple components received from a worker queue can be
    either. *)
Inductive PyVal :=
| VInt (z : Z)
| VStr (s : string).

#[global] Instance PyVal_eq_dec : EqDecision PyVal.
Proof. solve_decision. Defined.

#[global] Instance PyVal_countable : Countable PyVal.
Proof.
  refine (inj_countable'
            (fun v => match v with VInt z => inl z | VStr s => inr s end)
            (fun x => match x with inl z => VInt z | inr s => VStr s end) _).
  by intros [].
Defined.

(** What a worker can [put] on its queue: a bare [str] (the sentinel
    [END_OF_DATA] is the string "EOD"), a tuple, or an object without
    [__len__] (an [int]). *)
Inductive Payload :=
| PStr (s : string)
| PTuple (xs : list PyVal)
| PInt (z : Z).

#[global] Instance Payload_eq_dec : EqDecision Payload.
Proof. solve_decision. Defined.

Inductive Exn :=
| KeyError
| RuntimeError
| TypeError
| ValueError
| IndexError
| AttributeError
| DatabaseError.

(** [Blocked]: the call sits in a blocking primitive ([Queue.get] on an
    empty queue, [Lock.acquire] on a held lock) and cannot proceed until
    another process acts. *)
Inductive Outcome (A : Type) :=
| Ok (a : A)
| Raise (e : Exn)
| Blocked.
Arguments Ok {A} a.
Arguments Raise {A} e.
Arguments Blocked {A}.

(** ** Matrices *)

(** scipy sparse matrix with integer data: its declared shape and its
    stored entries. *)
Record CountMatrix := mkCountMatrix {
  cm_shape : Z * Z;
  cm_cells : gmap (Z * Z) Z
}.

(** scipy sparse matrix with float data. *)
Record WeightMatrix := mkWeightMatrix {
  wm_shape : Z * Z;
  wm_cells : gmap (Z * Z) R
}.

(** The sqlite table [document (fact_id INTEGER PRIMARY KEY, fact)].
    [healthy = false] stands for a store on which the next statement fails
    (file unreachable, disk full). *)
Record FactStore := mkFactStore {
  rows : gmap Z string;
  healthy : bool
}.

(** ** The agent *)

Record Agent := mkAgent {
  all_tokens : gmap string Z;
  freq_token : list Z;
  freq_fact_id : list PyVal;
  freq_freq : list PyVal;
  cnt : Z;
  fact_id : Z;
  db_lock : bool;
  store : FactStore;
  num_docs : option Z;
  num_tokens : option Z;
  count_matrix : option CountMatrix;
  doc_freqs : option (list Z);
  tfidfs : option WeightMatrix;
  saved_tokens : option (gmap string Z);
  saved_matrix : option CountMatrix;
  comm_queues : list (list Payload);
  process_data_finished : list bool;
  finished_cnt : Z;
  child_token_map : list (gmap PyVal Z)
}.

(** [__init__] on a path with no saved retriever file and a new database,
    master side ([shared=None]), before any [share()]. *)
Definition init_agent : Agent :=
  {| all_tokens := ∅; freq_token := []; freq_fact_id := []; freq_freq := [];
     cnt := 0; fact_id := 0; db_lock := false;
     store := {| rows := ∅; healthy := true |};
     num_docs := None; num_tokens := None; count_matrix := None;
     doc_freqs := None; tfidfs := None;
     saved_tokens := None; saved_matrix := None;
     comm_queues := []; process_data_finished := []; finished_cnt := 0;
     child_token_map := [] |}.

Definition set_all_tokens (v : gmap string Z) (s : Agent) : Agent :=
  mkAgent v (freq_token s) (freq_fact_id s) (freq_freq s) (cnt s) (fact_id s)
    (db_lock s) (store s) (num_docs s) (num_tokens s) (count_matrix s)
    (doc_freqs s) (tfidfs s) (saved_tokens s) (saved_matrix s)
    (comm_queues s) (process_data_finished s) (finished_cnt s)
    (child_token_map s).

Definition set_freqs (ft : list Z) (ff fq : list PyVal) (s : Agent) : Agent :=
  mkAgent (all_tokens s) ft ff fq (cnt s) (fact_id s)
    (db_lock s) (store s) (num_docs s) (num_tokens s) (count_matrix s)
    (doc_freqs s) (tfidfs s) (saved_tokens s) (saved_matrix s)
    (comm_queues s) (process_data_finished s) (finished_cnt s)
    (child_token_map s).

Definition set_cnt (c : Z) (s : Agent) : Agent :=
  mkAgent (all_tokens s) (freq_token s) (freq_fact_id s) (freq_freq s) c
    (fact_id s) (db_lock s) (store s) (num_docs s) (num_tokens s)
    (count_matrix s) (doc_freqs s) (tfidfs s) (saved_tokens s)
    (saved_matrix s) (comm_queues s) (process_data_finished s)
    (finished_cnt s) (child_token_map s).

Definition set_fact_id (f : Z) (s : Agent) : Agent :=
  mkAgent (all_tokens s) (freq_token s) (freq_fact_id s) (freq_freq s) (cnt s)
    f (db_lock s) (store s) (num_docs s) (num_tokens s)
    (count_matrix s) (doc_freqs s) (tfidfs s) (saved_tokens s)
    (saved_matrix s) (comm_queues s) (process_data_finished s)
    (finished_cnt s) (child_token_map s).

Definition set_db_lock (b : bool) (s : Agent) : Agent :=
  mkAgent (all_tokens s) (freq_token s) (freq_fact_id s) (freq_freq s) (cnt s)
    (fact_id s) b (store s) (num_docs s) (num_tokens s)
    (count_matrix s) (doc_freqs s) (tfidfs s) (saved_tokens s)
    (saved_matrix s) (comm_queues s) (process_data_finished s)
    (finished_cnt s) (child_token_map s).

Definition set_store (d : FactStore) (s : Agent) : Agent :=
  mkAgent (all_tokens s) (freq_token s) (freq_fact_id s) (freq_freq s) (cnt s)
    (fact_id s) (db_lock s) d (num_docs s) (num_tokens s)
    (count_matrix s) (doc_freqs s) (tfidfs s) (saved_tokens s)
    (saved_matrix s) (comm_queues s) (process_data_finished s)
    (finished_cnt s) (child_token_map s).

Definition set_num_docs (o : option Z) (s : Agent) : Agent :=
  mkAgent (all_tokens s) (freq_token s) (freq_fact_id s) (freq_freq s) (cnt s)
    (fact_id s) (db_lock s) (store s) o (num_tokens s)
    (count_matrix s) (doc_freqs s) (tfidfs s) (saved_tokens s)
    (saved_matrix s) (comm_queues s) (process_data_finished s)
    (finished_cnt s) (child_token_map s).

Definition set_num_tokens (o : option Z) (s : Agent) : Agent :=
  mkAgent (all_tokens s) (freq_token s) (freq_fact_id s) (freq_freq s) (cnt s)
    (fact_id s) (db_lock s) (store s) (num_docs s) o
    (count_matrix s) (doc_freqs s) (tfidfs s) (saved_tokens s)
    (saved_matrix s) (comm_queues s) (process_data_finished s)
    (finished_cnt s) (child_token_map s).

Definition set_count_matrix (o : option CountMatrix) (s : Agent) : Agent :=
  mkAgent (all_tokens s) (freq_token s) (freq_fact_id s) (freq_freq s) (cnt s)
    (fact_id s) (db_lock s) (store s) (num_docs s) (num_tokens s)
    o (doc_freqs s) (tfidfs s) (saved_tokens s) (saved_matrix s)
    (comm_queues s) (process_data_finished s) (finished_cnt s)
    (child_token_map s).

Definition set_doc_freqs (o : option (list Z)) (s : Agent) : Agent :=
  mkAgent (all_tokens s) (freq_token s) (freq_fact_id s) (freq_freq s) (cnt s)
    (fact_id s) (db_lock s) (store s) (num_docs s) (num_tokens s)
    (count_matrix s) o (tfidfs s) (saved_tokens s) (saved_matrix s)
    (comm_queues s) (process_data_finished s) (finished_cnt s)
    (child_token_map s).

Definition set_tfidfs (o : option WeightMatrix) (s : Agent) : Agent :=
  mkAgent (all_tokens s) (freq_token s) (freq_fact_id s) (freq_freq s) (cnt s)
    (fact_id s) (db_lock s) (store s) (num_docs s) (num_tokens s)
    (count_matrix s) (doc_freqs s) o (saved_tokens s) (saved_matrix s)
    (comm_queues s) (process_data_finished s) (finished_cnt s)
    (child_token_map s).

Definition set_saved_tokens (o : option (gmap string Z)) (s : Agent) : Agent :=
  mkAgent (all_tokens s) (freq_token s) (freq_fact_id s) (freq_freq s) (cnt s)
    (fact_id s) (db_lock s) (store s) (num_docs s) (num_tokens s)
    (count_matrix s) (doc_freqs s) (tfidfs s) o (saved_matrix s)
    (comm_queues s) (process_data_finished s) (finished_cnt s)
    (child_token_map s).

Definition set_saved_matrix (o : option CountMatrix) (s : Agent) : Agent :=
  mkAgent (all_tokens s) (freq_token s) (freq_fact_id s) (freq_freq s) (cnt s)
    (fact_id s) (db_lock s) (store s) (num_docs s) (num_tokens s)
    (count_matrix s) (doc_freqs s) (tfidfs s) (saved_tokens s) o
    (comm_queues s) (process_data_finished s) (finished_cnt s)
    (child_token_map s).

Definition set_comm_queues (q : list (list Payload)) (s : Agent) : Agent :=
  mkAgent (all_tokens s) (freq_token s) (freq_fact_id s) (freq_freq s) (cnt s)
    (fact_id s) (db_lock s) (store s) (num_docs s) (num_tokens s)
    (count_matrix s) (doc_freqs s) (tfidfs s) (saved_tokens s)
    (saved_matrix s) q (process_data_finished s) (finished_cnt s)
    (child_token_map s).

Definition set_finished (fl : list bool) (n : Z) (s : Agent) : Agent :=
  mkAgent (all_tokens s) (freq_token s) (freq_fact_id s) (freq_freq s) (cnt s)
    (fact_id s) (db_lock s) (store s) (num_docs s) (num_tokens s)
    (count_matrix s) (doc_freqs s) (tfidfs s) (saved_tokens s)
    (saved_matrix s) (comm_queues s) fl n (child_token_map s).

Definition set_child_token_map (m : list (gmap PyVal Z)) (s : Agent) : Agent :=
  mkAgent (all_tokens s) (freq_token s) (freq_fact_id s) (freq_freq s) (cnt s)
    (fact_id s) (db_lock s) (store s) (num_docs s) (num_tokens s)
    (count_matrix s) (doc_freqs s) (tfidfs s) (saved_tokens s)
    (saved_matrix s) (comm_queues s) (process_data_finished s)
    (finished_cnt s) m.

(** ** The method monad *)

Definition M (A : Type) : Type := Agent -> Outcome A * Agent.

Definition ret {A} (a : A) : M A := fun s => (Ok a, s).

Definition raise {A} (e : Exn) : M A := fun s => (Raise e, s).

Definition bind {A B} (m : M A) (k : A -> M B) : M B := fun s =>
  match m s with
  | (Ok a, s1) => k a s1
  | (Raise e, s1) => (Raise e, s1)
  | (Blocked, s1) => (Blocked, s1)
  end.

Definition get_state : M Agent := fun s => (Ok s, s).

Definition modify (f : Agent -> Agent) : M unit := fun s => (Ok tt, f s).

Notation "'let*' x ':=' m 'in' k" := (bind m (fun x => k))
  (at level 10, x name, m at level 100, k at level 200).
Notation "m ';;' k" := (bind m (fun _ => k))
  (at level 100, k at level 200, right associativity).

(** ** Vocabulary *)

(** [token2id]: an [int] is handed back as it is; a string is looked up,
    and recorded under the id [len(self.all_tokens)] when it is new. *)
Definition token2id (token : PyVal) : M Z := fun s =>
  match token with
  | VInt n => (Ok n, s)
  | VStr t =>
      let s1 :=
        if decide (all_tokens s !! t = None)
        then set_all_tokens
               (<[t := Z.of_nat (size (all_tokens s))]> (all_tokens s)) s
        else s in
      match all_tokens s1 !! t with
      | Some i => (Ok i, s1)
      | None => (Raise KeyError, s1)
      end
  end.

(** A single-threaded caller interning a sequence of token strings, one
    [token2id] call after the other. *)
Fixpoint intern_all (l : list string) : M (list Z) :=
  match l with
  | [] => ret []
  | t :: r =>
      let* i := token2id (VStr t) in
      let* r' := intern_all r in
      ret (i :: r')
  end.

(** The distinct strings of [l] in the order of their first occurrence,
    continuing the enumeration [acc]. *)
Definition first_seen_from (acc : list string) (l : list string) : list string :=
  fold_left (fun a t => if decide (t ∈ a) then a else a ++ [t]) l acc.

Definition first_seen (l : list string) : list string := first_seen_from [] l.

(** ** numpy helpers *)

(** [np.unique(l, return_counts=True)]: the distinct elements in ascending
    order, each with its number of occurrences. *)
Fixpoint unique_insert {A} (cmp : A -> A -> comparison) (x : A)
  (l : list (A * Z)) : list (A * Z) :=
  match l with
  | [] => [(x, 1)]
  | (y, c) :: r =>
      match cmp x y with
      | Eq => (y, c + 1) :: r
      | Lt => (x, 1) :: (y, c) :: r
      | Gt => (y, c) :: unique_insert cmp x r
      end
  end.

Definition np_unique {A} (cmp : A -> A -> comparison) (l : list A)
  : list (A * Z) :=
  fold_left (fun acc x => unique_insert cmp x acc) l [].

(** [for x in l: body(x)] *)
Fixpoint for_each {A} (l : list A) (body : A -> M unit) : M unit :=
  match l with
  | [] => ret tt
  | x :: r => body x ;; for_each r body
  end.

(** [[f(x) for x in l]] *)
Fixpoint map_each {A B} (l : list A) (f : A -> M B) : M (list B) :=
  match l with
  | [] => ret []
  | x :: r => let* y := f x in let* ys := map_each r f in ret (y :: ys)
  end.

(** Fancy indexing [a[idx]] with in-range positions ([None]: IndexError). *)
Definition take_at {A} (a : list A) (idx : list nat) : option (list A) :=
  mapM (fun i => a !! i) idx.

(** The slice [a[0:k]] for any Python integer [k]. *)
Definition slice_to {A} (a : list A) (k : Z) : list A :=
  if 0 <=? k then take (Z.to_nat k) a
  else take (length a - Z.to_nat (- k))%nat a.

(** ** Fact ids and the fact store *)

(** [multiprocessing.Value('i', ...)] holds a C [int]. *)
Definition c_int (z : Z) : Z := (z + 2 ^ 31) mod 2 ^ 32 - 2 ^ 31.

(** [new_fact_id]; the counter's own lock makes the read-and-increment one
    atomic step. *)
Definition new_fact_id : M Z := fun s =>
  let cur_id := fact_id s in
  (Ok cur_id, set_fact_id (c_int (cur_id + 1)) s).

(** [self.cursor.execute(self.FACT_QUERY, (new_fact_id, fact))] inside
    [with self.cursor.connection]: the row is committed, or the statement
    raises and nothing is stored. *)
Definition execute_insert (id : Z) (fact : string) : M unit := fun s =>
  let d := store s in
  if negb (healthy d) then (Raise DatabaseError, s)
  else if decide (is_Some (rows d !! id)) then (Raise DatabaseError, s)
  else (Ok tt, set_store {| rows := <[id := fact]> (rows d);
                            healthy := healthy d |} s).

(** [with self.db_lock: body]: acquire, run, release on every exit. *)
Definition with_db_lock {A} (body : M A) : M A := fun s =>
  if db_lock s then (Blocked, s)
  else
    let '(r, s1) := body (set_db_lock true s) in
    (r, set_db_lock false s1).

Definition insert_fact_without_id (fact : string) : M Z :=
  let* new_id := new_fact_id in
  with_db_lock (execute_insert new_id fact) ;;
  ret new_id.

(** ** Ingestion *)

Definition new_freq (token fact freq : PyVal) : M unit :=
  let* tid := token2id token in
  modify (fun s => set_freqs (freq_token s ++ [tid])
                             (freq_fact_id s ++ [fact])
                             (freq_freq s ++ [freq]) s).

Definition del_tfidfs : M unit := fun s =>
  match tfidfs s with
  | Some _ => (Ok tt, set_tfidfs None s)
  | None => (Raise AttributeError, s)
  end.

Definition del_count_matrix : M unit := fun s =>
  match count_matrix s with
  | Some _ => (Ok tt, set_count_matrix None s)
  | None => (Raise AttributeError, s)
  end.

Definition del_doc_freqs : M unit := fun s =>
  match doc_freqs s with
  | Some _ => (Ok tt, set_doc_freqs None s)
  | None => (Raise AttributeError, s)
  end.

Definition del_num_docs : M unit := fun s =>
  match num_docs s with
  | Some _ => (Ok tt, set_num_docs None s)
  | None => (Raise AttributeError, s)
  end.

Definition del_num_tokens : M unit := fun s =>
  match num_tokens s with
  | Some _ => (Ok tt, set_num_tokens None s)
  | None => (Raise AttributeError, s)
  end.

(** ** Count matrix *)

Definition get_num_docs : M Z := fun s =>
  match num_docs s with
  | Some n => (Ok n, s)
  | None => (Ok (fact_id s), set_num_docs (Some (fact_id s)) s)
  end.

Definition get_num_tokens : M Z := fun s =>
  match num_tokens s with
  | Some n => (Ok n, s)
  | None =>
      let n := Z.of_nat (size (all_tokens s)) in
      (Ok n, set_num_tokens (Some n) s)
  end.

Definition as_int (v : PyVal) : option Z :=
  match v with
  | VInt z => Some z
  | VStr _ => None
  end.

(** The coordinate list [(data, (row, col))] as triples
    [(row, col, data)]. *)
Fixpoint coo_triples (row col data : list Z) : list (Z * Z * Z) :=
  match row, col, data with
  | r :: row', c :: col', d :: data' => (r, c, d) :: coo_triples row' col' data'
  | _, _, _ => []
  end.

(** The signed 64-bit range of numpy's [int64], the type of the counts
    that [np.unique] returns and that scipy stores. *)
Definition int64 (z : Z) : Prop := - 2 ^ 63 <= z < 2 ^ 63.

(** The result of an [int64] operation: it wraps around. *)
Definition wrap_int64 (z : Z) : Z := (z + 2 ^ 63) mod 2 ^ 64 - 2 ^ 63.

(** One coordinate entry added into the stored cells: an entry already
    present at that coordinate is added to, in [int64] arithmetic, not
    replaced. *)
Definition add_cell (m : gmap (Z * Z) Z) (e : Z * Z * Z) : gmap (Z * Z) Z :=
  let '(r, c, d) := e in
  <[(r, c) := match m !! (r, c) with
              | Some v => wrap_int64 (v + d)
              | None => d
              end]> m.

Definition sum_cells (l : list (Z * Z * Z)) : gmap (Z * Z) Z :=
  fold_left add_cell l ∅.

Definition in_shape (shape : Z * Z) (e : Z * Z * Z) : bool :=
  let '(r, c, _) := e in
  (0 <=? r) && (r <? shape.1) && (0 <=? c) && (c <? shape.2).

(** [sp.csr_matrix((data, (row, col)), shape=shape)] followed by
    [sum_duplicates()].  scipy checks the shape first and raises when a
    dimension is negative, also when there is no entry at all; it raises
    when the three lists differ in length, when an entry is not a number,
    and when a coordinate lies outside the shape.  The counts are [int64]
    values: the counts of the entries that share a coordinate are added
    with wrap-around. *)
Definition csr_matrix (data : list PyVal) (row : list Z) (col : list PyVal)
  (shape : Z * Z) : Outcome CountMatrix :=
  if negb ((0 <=? shape.1) && (0 <=? shape.2)) then Raise ValueError
  else
  match mapM as_int data, mapM as_int col with
  | Some data', Some col' =>
      if negb ((length data' =? length row)%nat && (length col' =? length row)%nat)
      then Raise ValueError
      else
        let l := coo_triples row col' data' in
        if forallb (in_shape shape) l
        then Ok {| cm_shape := shape; cm_cells := sum_cells l |}
        else Raise ValueError
  | _, _ => Raise TypeError
  end.

Definition lift_outcome {A} (o : Outcome A) : M A := fun s => (o, s).

Definition _compute_count_matrix : M CountMatrix :=
  let* s := get_state in
  match count_matrix s with
  | Some m => ret m
  | None =>
      let* nt := get_num_tokens in
      let* nd := get_num_docs in
      let* m := lift_outcome
                  (csr_matrix (freq_freq s) (freq_token s) (freq_fact_id s)
                     (nt, nd)) in
      modify (set_count_matrix (Some m)) ;;
      ret m
  end.

(** [save]: the vocabulary is written to the token file, then the count
    matrix to the retriever file. *)
Definition save : M unit :=
  modify (fun s => set_saved_tokens (Some (all_tokens s)) s) ;;
  let* m := _compute_count_matrix in
  modify (set_saved_matrix (Some m)).

(** ** TF-IDF *)

(** Row [t] of [(cnts > 0).astype(int).sum(1)]: the number of columns in
    which row [t] holds a positive count. *)
Definition row_doc_freq (cells : gmap (Z * Z) Z) (t : Z) : Z :=
  Z.of_nat (size (filter (fun kv => kv.1.1 = t ∧ 0 < kv.2) cells)).

(** The dense vector [freqs]: one entry per row of the matrix. *)
Definition doc_freq_vector (cnts : CountMatrix) : list Z :=
  map (row_doc_freq (cm_cells cnts)) (seqZ 0 (cm_shape cnts).1).

(** [squeeze()] turns the column of a one-row matrix into a 0-d array,
    and numpy arithmetic on a 0-d array gives a numpy scalar: the masked
    assignment [idfs[idfs < 0] = 0] and the index
    [self.doc_freqs[wids_unique]] then raise.  A vector of length one
    stands for that 0-d array. *)
Definition is_0d {A} (v : list A) : bool := (length v =? 1)%nat.

Definition get_doc_freqs (cnts : CountMatrix) : M (list Z) := fun s =>
  match doc_freqs s with
  | Some d => (Ok d, s)
  | None =>
      let freqs := doc_freq_vector cnts in
      (Ok freqs, set_doc_freqs (Some freqs) s)
  end.

(** [idfs = np.log((F - Ns + 0.5) / (Ns + 0.5)); idfs[idfs < 0] = 0],
    one component.  The quotient is positive whenever [0 <= df <= F]. *)
Definition idf_value (F df : Z) : R :=
  let raw := ln ((IZR F - IZR df + 0.5) / (IZR df + 0.5)) in
  if Rlt_dec raw 0 then 0%R else raw.

(** [sp.diags(idfs, 0).dot(count_matrix.log1p())]: row [t] of [log1p] of
    the counts scaled by [idfs[t]]; the sparse product stores no entry
    whose value is zero. *)
Definition weight_cells (idfs : list R) (cells : gmap (Z * Z) Z)
  : gmap (Z * Z) R :=
  map_imap
    (fun k c =>
       let w := (nth (Z.to_nat k.1) idfs 0 * ln (1 + IZR c))%R in
       if Req_dec_T w 0 then None else Some w)
    cells.

Definition _compute_tfidf_from_count_matrix (cm : CountMatrix)
  : M WeightMatrix :=
  let* s := get_state in
  match tfidfs s with
  | Some w => ret w
  | None =>
      let* Ns := get_doc_freqs cm in
      if is_0d Ns then raise TypeError
      else
        let idfs := map (idf_value (cm_shape cm).2) Ns in
        if decide (Z.of_nat (length idfs) = (cm_shape cm).1)
        then
          let w := {| wm_shape := cm_shape cm;
                      wm_cells := weight_cells idfs (cm_cells cm) |} in
          modify (set_tfidfs (Some w)) ;;
          ret w
        else raise ValueError
  end.

Definition compute_tfidf : M WeightMatrix :=
  let* cm := _compute_count_matrix in
  _compute_tfidf_from_count_matrix cm.

(** ** Ranking *)

(** [a[i]] for a numpy vector and a Python integer (a negative index
    counts from the end). *)
Definition np_index {A} (a : list A) (i : Z) : option A :=
  if 0 <=? i then a !! Z.to_nat i
  else if 0 <=? Z.of_nat (length a) + i
       then a !! Z.to_nat (Z.of_nat (length a) + i)
       else None.

(** The one-row product [spvec * self.tfidfs]: for every column that
    shares a row with the query vector, the sum of the products; a column
    whose sum is zero gets no entry.  [res.indices] and [res.data] are the
    two components, in the order scipy happens to store them. *)
Definition column_score (q : list (Z * R)) (W : gmap (Z * Z) R) (f : Z) : R :=
  fold_right Rplus 0%R
    (map (fun td : Z * R => (td.2 * default 0%R (W !! (td.1, f)))%R) q).

Definition touched_columns (q : list (Z * R)) (W : gmap (Z * Z) R) : list Z :=
  elements
    (set_map (D := gset Z) snd
       (filter (fun k : Z * Z => k.1 ∈ q.*1) (dom W))).

Definition sparse_row_dot (q : list (Z * R)) (W : gmap (Z * Z) R)
  : list (Z * R) :=
  omap (fun f => let v := column_score q W f in
                 if Req_dec_T v 0 then None else Some (f, v))
       (touched_columns q W).

(** numpy's contract for [np.argsort(a)]: a permutation of the positions
    of [a] along which the values ascend (the default sort is not stable:
    the order among equal values is not part of the contract). *)
Definition argsort_spec (argsort : list R -> list nat) : Prop :=
  ∀ a, Permutation (argsort a) (seq 0 (length a)) ∧
       ∀ i j pi pj, (i <= j)%nat ->
         argsort a !! i = Some pi -> argsort a !! j = Some pj ->
         (nth pi a 0 <= nth pj a 0)%R.

(** numpy's contract for [np.argpartition(a, kth)] with [0 <= kth < len(a)]:
    a permutation of the positions of [a] in which no value before position
    [kth] is larger, and no value after it smaller, than the value at
    position [kth]. *)
Definition argpartition_spec (argpartition : list R -> nat -> list nat)
  : Prop :=
  ∀ a kth, (kth < length a)%nat ->
    Permutation (argpartition a kth) (seq 0 (length a)) ∧
    ∀ i j pi pj, (i <= kth)%nat -> (kth <= j)%nat ->
      argpartition a kth !! i = Some pi ->
      argpartition a kth !! j = Some pj ->
      (nth pi a 0 <= nth pj a 0)%R.

Definition END_OF_DATA : string := "EOD".

(** [len(data)]; [None] when the object has no length. *)
Definition py_len (data : Payload) : option nat :=
  match data with
  | PStr s => Some (String.length s)
  | PTuple xs => Some (length xs)
  | PInt _ => None
  end.

Fixpoint chars_of (s : string) : list PyVal :=
  match s with
  | EmptyString => []
  | String c r => VStr (String c EmptyString) :: chars_of r
  end.

(** The components a tuple assignment [(a, b) = data] unpacks. *)
Definition py_items (data : Payload) : list PyVal :=
  match data with
  | PStr s => chars_of s
  | PTuple xs => xs
  | PInt _ => []
  end.

Section Retriever.

(** The DrQA tokenizer ([tokenize]: normalisation, uncased unigrams,
    filtering) is an external collaborator. *)
Variable tokenize : string -> list string.

(** numpy's selection routines, known through their contracts only. *)
Variable argsort : list R -> list nat.
Variable argpartition : list R -> nat -> list nat.

Definition process_act (fact : string) : M unit :=
  let* new_id := insert_fact_without_id fact in
  let unique := np_unique String.compare (tokenize fact) in
  for_each unique
    (fun tc : string * Z => new_freq (VStr tc.1) (VInt new_id) (VInt tc.2)).

(** [act] on an observation; [None] is an observation without a
    ['text'] field. *)
Definition act (observation : option string) : M unit :=
  let* s := get_state in
  match tfidfs s with
  | Some _ =>
      del_tfidfs ;; del_count_matrix ;; del_doc_freqs ;;
      del_num_docs ;; del_num_tokens
  | None => ret tt
  end ;;
  match observation with
  | None => ret tt
  | Some text =>
      modify (fun s => set_cnt (cnt s + 1) s) ;;
      process_act text
  end.

(** [np.argpartition(a, kth)] for any Python integer [kth].  numpy
    checks [kth] against the bounds only when the array has an element:
    on an empty array every [kth] is accepted and the result is empty. *)
Definition np_argpartition (a : list R) (kth : Z) : Outcome (list nat) :=
  let n := Z.of_nat (length a) in
  let k := if kth <? 0 then kth + n else kth in
  if n =? 0 then Ok []
  else if (0 <=? k) && (k <? n) then Ok (argpartition a (Z.to_nat k))
  else Raise ValueError.

(** Lines 139-143 of [retrieve]: the positions [o_sort] into [res.data]. *)
Definition retrieve_order (res_data : list R) (max_results : Z)
  : Outcome (list nat) :=
  if Z.of_nat (length res_data) <=? max_results
  then Ok (argsort (map Ropp res_data))
  else
    match np_argpartition (map Ropp res_data) max_results with
    | Ok p =>
        let o := slice_to p max_results in
        match take_at res_data o with
        | Some sub =>
            match take_at o (argsort (map Ropp sub)) with
            | Some o_sort => Ok o_sort
            | None => Raise IndexError
            end
        | None => Raise IndexError
        end
    | Raise e => Raise e
    | Blocked => Blocked
    end.

(** [SELECT fact FROM document WHERE fact_id=?] and [fetchall()[0][0]]. *)
Definition fetch_fact (doc_id : Z) : M string := fun s =>
  if negb (healthy (store s)) then (Raise DatabaseError, s)
  else match rows (store s) !! doc_id with
       | Some fact => (Ok fact, s)
       | None => (Raise IndexError, s)
       end.

(** Lines 139-151 of [retrieve], the generator run to its end: the facts
    it yields, in order. *)
Definition retrieve_tail (res : list (Z * R)) (max_results : Z)
  : M (list string) :=
  let* o_sort := lift_outcome (retrieve_order res.*2 max_results) in
  match take_at res.*2 o_sort, take_at res.*1 o_sort with
  | Some doc_scores, Some doc_ids => map_each doc_ids fetch_fact
  | _, _ => raise IndexError
  end.

(** Lines 122-138 of [retrieve]: the sparse score vector [res] as the
    list of its [(index, data)] entries. *)
Definition retrieve_scores (tokens : list string) : M (list (Z * R)) :=
  compute_tfidf ;;
  let* wids := map_each tokens (fun t => token2id (VStr t)) in
  let uc := np_unique Z.compare wids in
  let wids_unique := uc.*1 in
  let tfs := map (fun c => ln (1 + IZR c)) uc.*2 in
  let* s := get_state in
  match doc_freqs s with
  | None => raise AttributeError
  | Some df =>
      match (if is_0d df then None else mapM (np_index df) wids_unique) with
      | None => raise IndexError
      | Some Ns =>
          let* nd := get_num_docs in
          let idfs := map (idf_value nd) Ns in
          let data := zip_with Rmult tfs idfs in
          let* nt := get_num_tokens in
          let* s1 := get_state in
          match tfidfs s1 with
          | None => raise AttributeError
          | Some W =>
              if decide (nt = (wm_shape W).1)
              then ret (sparse_row_dot (zip wids_unique data) (wm_cells W))
              else raise ValueError
          end
      end
  end.

Definition retrieve (query : string) (max_results : Z) : M (list string) :=
  let* s := get_state in
  let tokens :=
    filter (fun t => is_Some (all_tokens s !! t)) (tokenize query) in
  match tokens with
  | [] => ret []
  | _ :: _ =>
      let* res := retrieve_scores tokens in
      retrieve_tail res max_results
  end.

(** ** The master's merge loop *)

(** [self.comm_queues[queue_ind].get()]: blocking, without timeout. *)
Definition queue_get (queue_ind : nat) : M Payload := fun s =>
  match comm_queues s !! queue_ind with
  | None => (Raise IndexError, s)
  | Some [] => (Blocked, s)
  | Some (data :: rest) =>
      (Ok data, set_comm_queues (<[queue_ind := rest]> (comm_queues s)) s)
  end.

Definition set_translation (queue_ind : nat) (local : PyVal) (global : Z)
  : M unit := fun s =>
  match child_token_map s !! queue_ind with
  | None => (Raise IndexError, s)
  | Some tbl =>
      (Ok tt, set_child_token_map
                (<[queue_ind := <[local := global]> tbl]> (child_token_map s))
                s)
  end.

Definition get_translation (queue_ind : nat) (local : PyVal) : M Z := fun s =>
  match child_token_map s !! queue_ind with
  | None => (Raise IndexError, s)
  | Some tbl =>
      match tbl !! local with
      | Some global => (Ok global, s)
      | None => (Raise KeyError, s)
      end
  end.

Definition _process_data (queue_ind : nat) : M unit :=
  let* s := get_state in
  match process_data_finished s !! queue_ind with
  | None => raise IndexError
  | Some true => ret tt
  | Some false =>
      let* data := queue_get queue_ind in
      if decide (data = PStr END_OF_DATA)
      then modify (fun s => set_finished
                              (<[queue_ind := true]> (process_data_finished s))
                              (finished_cnt s + 1) s)
      else
        match py_len data with
        | None => raise TypeError
        | Some 2%nat =>
            match py_items data with
            | [_token; _token_id] =>
                let* _true_token_id := token2id _token in
                set_translation queue_ind _token_id _true_token_id
            | _ => raise ValueError
            end
        | Some 3%nat =>
            match py_items data with
            | [_token_id; _fact_id; _freq] =>
                let* tid := get_translation queue_ind _token_id in
                new_freq (VInt tid) _fact_id _freq
            | _ => raise ValueError
            end
        | Some _ => raise RuntimeError
        end
  end.

(** One pass of [for queue_ind in range(num_queues)]. *)
Definition process_round : M unit :=
  let* s := get_state in
  for_each (seq 0 (length (comm_queues s))) _process_data.

(** [process_child_data]: the [while] loop, unrolled at most [fuel] times;
    the result is [false] when the loop condition still holds after [fuel]
    rounds. *)
Fixpoint process_child_data (fuel : nat) : M bool :=
  let* s := get_state in
  if decide (finished_cnt s = Z.of_nat (length (comm_queues s)))
  then ret true
  else
    match fuel with
    | O => ret false
    | S fuel' => process_round ;; process_child_data fuel'
    end.

(** The master branch of [shutdown]. *)
Definition shutdown (fuel : nat) : M bool :=
  modify (fun s =>
            let n := length (comm_queues s) in
            set_child_token_map (replicate n ∅)
              (set_finished (replicate n false) 0 s)) ;;
  let* finished := process_child_data fuel in
  if finished then save ;; ret true else ret false.

End Retriever.

(** ** Instances used to run the definitions on examples *)

(** A tokenizer that cuts at blanks. *)
Fixpoint split_blank (cur : string) (s : string) : list string :=
  match s with
  | EmptyString => if decide (cur = EmptyString) then [] else [cur]
  | String c r =>
      if decide (c = " "%char)
      then (if decide (cur = EmptyString) then [] else [cur])
             ++ split_blank EmptyString r
      else split_blank (cur +:+ String c EmptyString) r
  end.

Definition blank_tokenize (s : string) : list string :=
  split_blank EmptyString s.

(** A full sort of the positions: one function that meets both numpy
    contracts. *)
Definition value_le (a : list R) (i j : nat) : Prop :=
  (nth i a 0 <= nth j a 0)%R.

#[global] Instance value_le_dec a : RelDecision (value_le a).
Proof. intros i j. unfold value_le. apply Rle_dec. Defined.

Definition sort_positions (a : list R) : list nat :=
  merge_sort (value_le a) (seq 0 (length a)).

Definition sort_partition (a : list R) (kth : nat) : list nat :=
  sort_positions a.


(** [act] on "cat", [save], [act] on "dog": the second fact is ingested
    while a count matrix, but no TF-IDF matrix, is cached. *)
Definition ingest_save_ingest : Agent :=
  let s1 := (act blank_tokenize (Some "cat") init_agent).2 in
  let s2 := (save s1).2 in
  (act blank_tokenize (Some "dog") s2).2.

(** A count matrix of shape (2, 1): token 0 occurs once in fact 0, token 1
    occurs in no fact. *)
Definition unused_token_matrix : CountMatrix :=
  {| cm_shape := (2, 1); cm_cells := {[ (0, 0) := 1 ]} |}.

(** A master whose only worker announces the vocabulary "cat", "dog" and
    sends one triple, for "cat" in fact 0; one fact id has been handed
    out. *)
Definition unused_token_merge : Agent :=
  set_fact_id 1
    (set_comm_queues
       [ [PTuple [VStr "cat"; VInt 0]; PTuple [VStr "dog"; VInt 1];
          PTuple [VInt 0; VInt 0; VInt 1]; PStr END_OF_DATA] ]
       init_agent).

(** The value [W[t, f]] of a sparse float matrix. *)
Definition weight (W : WeightMatrix) (t f : Z) : R :=
  default 0%R (wm_cells W !! (t, f)).

(** Five facts ingested one after the other: "cat" twice, "dog" three
    times. *)
Definition five_facts_agent : Agent :=
  foldl (fun s fact => (act blank_tokenize (Some fact) s).2) init_agent
    ["cat"; "cat"; "dog"; "dog"; "dog"].

Definition five_facts_matrix : CountMatrix :=
  {| cm_shape := (2, 5);
     cm_cells := <[(0, 0) := 1]> (<[(0, 1) := 1]> (<[(1, 2) := 1]>
                   (<[(1, 3) := 1]> (<[(1, 4) := 1]> ∅)))) |}.

(** The number of facts a call of [retrieve] yielded. *)
Definition results_count (o : Outcome (list string)) : option nat :=
  match o with
  | Ok out => Some (length out)
  | _ => None
  end.

(** What [retrieve] computes for the query "cat" on the five facts: the
    weight matrix, the score vector and the state it leaves. *)
Definition five_facts_weights : WeightMatrix :=
  {| wm_shape := (2, 5);
     wm_cells := weight_cells [idf_value 5 2; idf_value 5 3]
                   (cm_cells five_facts_matrix) |}.

Definition five_facts_cat_res : list (Z * R) :=
  sparse_row_dot [(0, (ln (1 + IZR 1) * idf_value 5 2)%R)]
    (wm_cells five_facts_weights).

Definition five_facts_cat_state : Agent :=
  set_tfidfs (Some five_facts_weights)
    (set_doc_freqs (Some [2; 3])
       (set_count_matrix (Some five_facts_matrix)
          (set_num_docs (Some 5)
             (set_num_tokens (Some 2) five_facts_agent)))).

(** Buffers in which the two counts at the coordinate (0, 0) add up to
    2^63. *)
Definition overflowing_triples : list (Z * Z * Z) :=
  [((0, 0), 2 ^ 62); ((0, 0), 2 ^ 62)].

Definition overflowing_agent : Agent :=
  set_freqs [0; 0] [VInt 0; VInt 0] [VInt (2 ^ 62); VInt (2 ^ 62)]
    (set_fact_id 1 (set_all_tokens (<["a" := 0]> ∅) init_agent)).

(** A master that has handed out one fact id and whose only worker sends
    the token "a" and, twice, a triple with the count 2^62 for it. *)
Definition overflowing_master : Agent :=
  set_comm_queues
    [ [PTuple [VStr "a"; VInt 0];
       PTuple [VInt 0; VInt 0; VInt (2 ^ 62)];
       PTuple [VInt 0; VInt 0; VInt (2 ^ 62)];
       PStr END_OF_DATA] ]
    (set_fact_id 1 init_agent).

(** Buffers in which the coordinate (0, 0) occurs twice. *)
Definition duplicate_triples : list (Z * Z * Z) :=
  [((0, 0), 2); ((0, 0), 3); ((1, 0), 1)].

Definition duplicate_agent : Agent :=
  set_freqs [0; 0; 1] [VInt 0; VInt 0; VInt 0] [VInt 2; VInt 3; VInt 1]
    (set_fact_id 1
       (set_all_tokens (<["a" := 0]> (<["b" := 1]> ∅)) init_agent)).

(** An agent whose fact store cannot be written. *)
Definition broken_store_agent : Agent :=
  set_store {| rows := ∅; healthy := false |} init_agent.

(** A master, ready to merge, whose only worker sends a triple for the
    local token id 7 without having announced it. *)
Definition untranslated_triple_agent : Agent :=
  set_child_token_map [∅]
    (set_finished [false] 0
       (set_comm_queues
          [ [PTuple [VInt 7; VInt 0; VInt 1]; PStr END_OF_DATA] ]
          init_agent)).

(** A master, ready to merge, whose only worker has sent a two-character
    string and a pair of integers, neither of them a (token, id) pair, and
    then the sentinel. *)
Definition malformed_pairs_agent : Agent :=
  set_child_token_map [∅]
    (set_finished [false] 0
       (set_comm_queues
          [ [PStr "ab"; PTuple [VInt 0; VInt 5]; PStr END_OF_DATA] ]
          init_agent)).



(** A master with two workers whose local vocabularies both use the id
    0, for different tokens; two fact ids have been handed out. *)
Definition two_workers_merge : Agent :=
  set_fact_id 2
    (set_comm_queues
       [ [PTuple [VStr "dog"; VInt 0]; PTuple [VInt 0; VInt 0; VInt 1];
          PStr END_OF_DATA];
         [PTuple [VStr "cat"; VInt 0]; PTuple [VStr "dog"; VInt 1];
          PTuple [VInt 0; VInt 1; VInt 2]; PTuple [VInt 1; VInt 1; VInt 1];
          PStr END_OF_DATA] ]
       init_agent).

(** ** Predicates used in the statements *)

(** [acc] enumerates the vocabulary [v]: the token with id [n] is the
    [n]-th entry of [acc], and no token occurs twice. *)
Definition enumerates (v : gmap string Z) (acc : list string) : Prop :=
  NoDup acc ∧ size v = length acc ∧
  ∀ t i, v !! t = Some i ↔ ∃ n : nat, i = Z.of_nat n ∧ acc !! n = Some t.

(** The sum of the counts of all triples of [l] at coordinate [k]. *)
Definition cell_sum (l : list (Z * Z * Z)) (k : Z * Z) : Z :=
  foldr Z.add 0 (filter (fun e : Z * Z * Z => e.1 = k) l).*2.

(** The value [m[t, f]] of a sparse matrix: the stored entry, or zero. *)
Definition cell (m : CountMatrix) (t f : Z) : Z :=
  default 0 (cm_cells m !! (t, f)).

(** The shape [_compute_count_matrix] will use in state [s]. *)
Definition shape_of (s : Agent) : Z * Z :=
  (default (Z.of_nat (size (all_tokens s))) (num_tokens s),
   default (fact_id s) (num_docs s)).


(** The number of facts (columns) in which token [t] has a positive
    count. *)
Definition facts_containing (cm : CountMatrix) (t : Z) : Z :=
  Z.of_nat (length (filter (fun f => 0 < cell cm t f)
                      (seqZ 0 (cm_shape cm).2))).

(** The five lazily created attributes that [act] resets. *)
Definition caches (s : Agent) :=
  (tfidfs s, count_matrix s, doc_freqs s, num_docs s, num_tokens s).

(** [o] lists the positions of the [k] largest values of [data] (all of
    them when there are at most [k]), largest first. *)
Definition top_positions (data : list R) (k : nat) (o : list nat) : Prop :=
  NoDup o ∧
  (∀ i, i ∈ o -> (i < length data)%nat) ∧
  length o = Nat.min (length data) k ∧
  (∀ i j pi pj, (i <= j)%nat -> o !! i = Some pi -> o !! j = Some pj ->
     (nth pj data 0 <= nth pi data 0)%R) ∧
  (∀ pi pj, pi ∈ o -> (pj < length data)%nat -> pj ∉ o ->
     (nth pj data 0 <= nth pi data 0)%R).

(** ** Further methods of the agent *)

(** The number of occurrences of [x] in [l]. *)
Definition occurrences `{EqDecision A} (x : A) (l : list A) : Z :=
  Z.of_nat (length (filter (fun y => y = x) l)).

(** The count that a list of [(element, count)] pairs holds for [x]. *)
Definition count_for `{EqDecision A} (x : A) (l : list (A * Z)) : Z :=
  foldr Z.add 0 (filter (fun e : A * Z => e.1 = x) l).*2.

(** A three-way comparison that is a strict total order. *)
Class CmpOrder {A} (cmp : A -> A -> comparison) := {
  cmp_eq x y : cmp x y = Eq -> x = y;
  cmp_refl x : cmp x x = Eq;
  cmp_gt_lt x y : cmp x y = Gt -> cmp y x = Lt;
  cmp_lt_trans x y z : cmp x y = Lt -> cmp y z = Lt -> cmp x z = Lt
}.

(** The facts of a conversation fed to the agent one by one: [observe]
    followed by [act] for each text. *)
Definition ingest (tokenize : string -> list string) (facts : list string)
  : M unit :=
  for_each facts (fun text => act tokenize (Some text)).

(** The parts of the agent that recording a triple does not touch. *)
Definition same_outside_index (s s' : Agent) : Prop :=
  cnt s' = cnt s ∧ fact_id s' = fact_id s ∧ db_lock s' = db_lock s ∧
  store s' = store s ∧ caches s' = caches s ∧
  saved_tokens s' = saved_tokens s ∧ saved_matrix s' = saved_matrix s ∧
  comm_queues s' = comm_queues s ∧
  process_data_finished s' = process_data_finished s ∧
  finished_cnt s' = finished_cnt s ∧
  child_token_map s' = child_token_map s.

(** The three buffers hold the triples [l], as integers. *)
Definition triples_of (s : Agent) (l : list (Z * Z * Z)) : Prop :=
  freq_token s = l.*1.*1 ∧
  freq_fact_id s = VInt <$> l.*1.*2 ∧
  freq_freq s = VInt <$> l.*2.

(** No lazily created attribute exists. *)
Definition no_caches (s : Agent) : Prop :=
  caches s = (None, None, None, None, None).

(** The state of an agent that has ingested [facts], in this order, and
    nothing else: fact [i] is stored under id [i], the vocabulary numbers
    the tokens of the facts without gaps, and the buffers hold, for every
    fact and every token of it, the number of its occurrences, no
    coordinate occurring twice. *)
Definition indexed (tokenize : string -> list string) (facts : list string)
  (s : Agent) : Prop :=
  Z.of_nat (length facts) < 2 ^ 31 ∧
  fact_id s = Z.of_nat (length facts) ∧
  db_lock s = false ∧
  healthy (store s) = true ∧
  (∀ k, rows (store s) !! k =
        if decide (0 <= k) then facts !! Z.to_nat k else None) ∧
  (∃ acc, enumerates (all_tokens s) acc) ∧
  (∀ t, is_Some (all_tokens s !! t) ↔
        ∃ text, text ∈ facts ∧ t ∈ tokenize text) ∧
  ∃ l, triples_of s l ∧ NoDup l.*1 ∧
       Forall (fun e : Z * Z * Z =>
                 0 <= e.1.1 < Z.of_nat (size (all_tokens s)) ∧
                 0 <= e.1.2 < Z.of_nat (length facts) ∧ 0 < e.2) l ∧
       ∀ t g i text,
         all_tokens s !! t = Some g -> facts !! i = Some text ->
         cell_sum l (g, Z.of_nat i) = occurrences t (tokenize text).

(** The order in which the lazily created attributes come to exist: the
    TF-IDF matrix after the count matrix and the document frequencies, the
    count matrix after the two dimensions. *)
Definition caches_consistent (s : Agent) : Prop :=
  (is_Some (tfidfs s) -> is_Some (count_matrix s) ∧ is_Some (doc_freqs s)) ∧
  (is_Some (count_matrix s) -> is_Some (num_docs s) ∧ is_Some (num_tokens s)).

(** A method that never finds a lazily created attribute missing, and
    leaves them in that order. *)
Definition keeps_caches_consistent {A} (m : M A) : Prop :=
  ∀ s, caches_consistent s ->
       (m s).1 ≠ Raise AttributeError ∧ caches_consistent (m s).2.

(** Everything but the five lazily created attributes is the same. *)
Definition same_outside_caches (s s' : Agent) : Prop :=
  all_tokens s' = all_tokens s ∧ freq_token s' = freq_token s ∧
  freq_fact_id s' = freq_fact_id s ∧ freq_freq s' = freq_freq s ∧
  cnt s' = cnt s ∧ fact_id s' = fact_id s ∧ db_lock s' = db_lock s ∧
  store s' = store s ∧
  saved_tokens s' = saved_tokens s ∧ saved_matrix s' = saved_matrix s ∧
  comm_queues s' = comm_queues s ∧
  process_data_finished s' = process_data_finished s ∧
  finished_cnt s' = finished_cnt s ∧
  child_token_map s' = child_token_map s.

(** [s'] is [s] with some more of the lazily created attributes, those
    that [s] has being kept as they are. *)
Definition cache_ext (s s' : Agent) : Prop :=
  same_outside_caches s s' ∧
  (∀ x, tfidfs s = Some x -> tfidfs s' = Some x) ∧
  (∀ x, count_matrix s = Some x -> count_matrix s' = Some x) ∧
  (∀ x, doc_freqs s = Some x -> doc_freqs s' = Some x) ∧
  (∀ x, num_docs s = Some x -> num_docs s' = Some x) ∧
  (∀ x, num_tokens s = Some x -> num_tokens s' = Some x).

(** A method that, for the vocabulary [v], only adds lazily created
    attributes and, once it has run, gives the same outcome again without
    a further change. *)
Definition settled {A} (v : gmap string Z) (m : M A) : Prop :=
  ∀ s r s', all_tokens s = v -> m s = (r, s') ->
    cache_ext s s' ∧
    match r with
    | Ok a => ∀ s'', cache_ext s' s'' -> m s'' = (Ok a, s'')
    | _ => m s' = (r, s')
    end.

(** The number of facts whose tokens include [t]. *)
Definition facts_with (tokenize : string -> list string) (t : string)
  (facts : list string) : Z :=
  Z.of_nat (length (filter (fun text => t ∈ tokenize text) facts)).

(** ** The worker's side of the merge *)

(** The two kinds of message a worker puts on its channel. *)
Definition pair_message (e : string * Z) : Payload :=
  PTuple [VStr e.1; VInt e.2].

Definition triple_message (e : Z * PyVal * PyVal) : Payload :=
  PTuple [VInt e.1.1; e.1.2; e.2].

(** [for ind in range(len(self.freq_fact_id)): self.comm_queue.put(
    (self.freq_token[ind], self.freq_fact_id[ind], self.freq_freq[ind]))]:
    the messages put, and IndexError when one of the other two buffers is
    shorter than [freq_fact_id]. *)
Fixpoint put_freqs (ft : list Z) (ff fq : list PyVal)
  : list Payload * Outcome unit :=
  match ff with
  | [] => ([], Ok tt)
  | f :: ff' =>
      match ft, fq with
      | t :: ft', q :: fq' =>
          let '(ms, r) := put_freqs ft' ff' fq' in
          (triple_message (t, f, q) :: ms, r)
      | _, _ => ([], Raise IndexError)
      end
  end.

(** The worker branch of [shutdown] (the agent was built from [share()]
    and has a [comm_queue]): the messages it puts on its channel, in
    order, and its outcome.  [dict_items] is the order in which
    [self.all_tokens.items()] iterates.  The queue is unbounded: [put]
    does not block. *)
Definition shutdown_worker (dict_items : gmap string Z -> list (string * Z))
  (w : Agent) : list Payload * Outcome unit :=
  let pairs := pair_message <$> dict_items (all_tokens w) in
  let '(triples, r) :=
    put_freqs (freq_token w) (freq_fact_id w) (freq_freq w) in
  match r with
  | Ok _ => (pairs ++ triples ++ [PStr END_OF_DATA], Ok tt)
  | _ => (pairs ++ triples, r)
  end.

(** The triples a worker holds in its three buffers. *)
Definition worker_triples (w : Agent) : list (Z * PyVal * PyVal) :=
  zip (zip (freq_token w) (freq_fact_id w)) (freq_freq w).

(** A worker whose buffers are in step, whose vocabulary gives no id to
    two tokens, and whose buffered token ids all are in its vocabulary. *)
Definition worker_ok (w : Agent) : Prop :=
  length (freq_token w) = length (freq_fact_id w) ∧
  length (freq_freq w) = length (freq_fact_id w) ∧
  (∀ t1 t2 i, all_tokens w !! t1 = Some i -> all_tokens w !! t2 = Some i ->
              t1 = t2) ∧
  Forall (fun tok => ∃ t, all_tokens w !! t = Some tok) (freq_token w).

(** The triple [new] of the master stands for the triple [old] of a
    worker: same fact, same count, and the token that has the id of [old]
    in the worker's vocabulary [vw] has the id of [new] in the master's
    vocabulary [v]. *)
Definition translates (vw v : gmap string Z) (old new : Z * PyVal * PyVal)
  : Prop :=
  new.1.2 = old.1.2 ∧ new.2 = old.2 ∧
  ∃ t, vw !! t = Some old.1.1 ∧ v !! t = Some new.1.1.

(** The stream of worker [i]: everything it puts on its channel. *)
Definition stream_at (dict_items : gmap string Z -> list (string * Z))
  (ws : list Agent) (i : nat) : list Payload :=
  from_option (fun w => (shutdown_worker dict_items w).1) [] (ws !! i).

(** Channel [i] of the master [cur] after the first [k] messages of the
    stream of worker [w]: the rest is queued, the flag is set after the
    last message, and the translation table covers the pairs taken. *)
Definition chan_inv (dict_items : gmap string Z -> list (string * Z))
  (w : Agent) (k : nat) (cur : Agent) (i : nat) : Prop :=
  let stream := (shutdown_worker dict_items w).1 in
  (k <= length stream)%nat ∧
  comm_queues cur !! i = Some (drop k stream) ∧
  process_data_finished cur !! i = Some (bool_decide (k = length stream)) ∧
  ∃ tbl, child_token_map cur !! i = Some tbl ∧
         ∀ t g', (t, g') ∈ take k (dict_items (all_tokens w)) ->
                 ∃ g, tbl !! VInt g' = Some g ∧ all_tokens cur !! t = Some g.

(** The triples [nw] that the master (vocabulary [v]) has appended for
    worker [w] after the first [k] messages of its stream. *)
Definition merged_triples (dict_items : gmap string Z -> list (string * Z))
  (w : Agent) (k : nat) (v : gmap string Z)
  (nw : list (Z * PyVal * PyVal)) : Prop :=
  Forall2 (translates (all_tokens w) v)
    (take (k - length (dict_items (all_tokens w))) (worker_triples w)) nw.

(** The master [cur] in the middle of the merge that started in [m0],
    having taken the first [n i] messages of the stream of worker [i]. *)
Definition merge_inv (dict_items : gmap string Z -> list (string * Z))
  (ws : list Agent) (m0 : Agent) (n : nat -> nat) (cur : Agent) : Prop :=
  length (comm_queues cur) = length ws ∧
  finished_cnt cur =
    Z.of_nat (length (filter
      (fun i => n i = length (stream_at dict_items ws i))
      (seq 0 (length ws)))) ∧
  (∀ i w, ws !! i = Some w -> chan_inv dict_items w (n i) cur i) ∧
  all_tokens m0 ⊆ all_tokens cur ∧
  (∀ t, is_Some (all_tokens cur !! t) ->
        is_Some (all_tokens m0 !! t) ∨
        ∃ w, w ∈ ws ∧ is_Some (all_tokens w !! t)) ∧
  (∀ acc, enumerates (all_tokens m0) acc ->
          ∃ acc', enumerates (all_tokens cur) acc') ∧
  (∃ news new,
     length news = length ws ∧
     (∀ i w, ws !! i = Some w ->
        ∃ nw, news !! i = Some nw ∧
              merged_triples dict_items w (n i) (all_tokens cur) nw) ∧
     new ≡ₚ concat news ∧
     freq_token cur = freq_token m0 ++ new.*1.*1 ∧
     freq_fact_id cur = freq_fact_id m0 ++ new.*1.*2 ∧
     freq_freq cur = freq_freq m0 ++ new.*2) ∧
  cnt cur = cnt m0 ∧ fact_id cur = fact_id m0 ∧ db_lock cur = db_lock m0 ∧
  store cur = store m0 ∧ caches cur = caches m0 ∧
  saved_tokens cur = saved_tokens m0 ∧ saved_matrix cur = saved_matrix m0.

(** Two workers of one master: the first has ingested "dog" as fact 0, the
    second "cat cat dog" as fact 1; and the master once both have put
    their streams on their channels. *)
Definition dog_worker : Agent :=
  (act blank_tokenize (Some "dog") init_agent).2.

Definition cat_dog_worker : Agent :=
  (act blank_tokenize (Some "cat cat dog") (set_fact_id 1 init_agent)).2.

Definition master_of_two : Agent :=
  set_comm_queues
    ((fun w => (shutdown_worker map_to_list w).1)
       <$> [dog_worker; cat_dog_worker])
    (set_fact_id 2 init_agent).

(** The count that the integer triples [l] of agent [w] hold for token
    [t] in fact [f]: zero when [t] is not in the vocabulary of [w]. *)
Definition buffered_count (w : Agent) (l : list (Z * Z * Z)) (t : string)
  (f : Z) : Z :=
  match all_tokens w !! t with
  | Some i => cell_sum l (i, f)
  | None => 0
  end.

(** ** Construction over existing files *)

(** [load].  [retriever_file] and [token_file] are what is found at the
    paths [self.retriever_file] and [self.token_file] ([None]: no file
    there).  The result is [None] when [np.load] raises for a missing
    token file, an exception that no other method of the agent raises. *)
Definition load (retriever_file : option CountMatrix)
  (token_file : option (gmap string Z))
  : Agent -> option (Outcome unit * Agent) := fun s =>
  match retriever_file with
  | None => Some (Ok tt, s)
  | Some cm =>
      match token_file with
      | None => None
      | Some v =>
          Some ((modify (set_all_tokens v) ;;
                 modify (set_count_matrix (Some cm)) ;;
                 modify (fun s => set_num_docs (Some (cm_shape cm).2)
                                    (set_num_tokens (Some (cm_shape cm).1) s)) ;;
                 _compute_tfidf_from_count_matrix cm ;;
                 ret tt) s)
      end
  end.

(** [__init__] on the master's side ([shared=None]) over a database that
    holds [db_rows] (empty when the file is new: the table is created) and
    can be opened: vocabulary and buffers start empty, [load] runs, and
    the fact counter starts at 0 whatever was loaded. *)
Definition new_agent (db_rows : gmap Z string)
  (retriever_file : option CountMatrix) (token_file : option (gmap string Z))
  : option (Outcome unit * Agent) :=
  load retriever_file token_file
    (set_store {| rows := db_rows; healthy := true |} init_agent).

(** A saved index of the five facts, and the database that holds them. *)
Definition five_facts_vocabulary : gmap string Z :=
  <["dog" := 1]> (<["cat" := 0]> ∅).

Definition five_facts_rows : gmap Z string :=
  rows (store five_facts_agent).

(** * Vocabulary *)

Lemma token2id_present s t i :
  all_tokens s !! t = Some i -> token2id (VStr t) s = (Ok i, s).
Proof.
  intros H. unfold token2id.
  destruct (decide (all_tokens s !! t = None)) as [E|_]; [congruence|].
  by rewrite H.
Qed.

Lemma token2id_absent s t :
  all_tokens s !! t = None ->
  token2id (VStr t) s =
    (Ok (Z.of_nat (size (all_tokens s))),
     set_all_tokens (<[t := Z.of_nat (size (all_tokens s))]> (all_tokens s)) s).
Proof.
  intros H. unfold token2id.
  destruct (decide (all_tokens s !! t = None)) as [_|E]; [|done].
  cbn. by rewrite lookup_insert_eq.
Qed.

Lemma enumerates_empty : enumerates ∅ [].
Proof.
  split; [constructor|]. split; [done|].
  intros t i. rewrite lookup_empty. split; [done|].
  intros (n & _ & H). by rewrite lookup_nil in H.
Qed.

Lemma enumerates_elem v acc t :
  enumerates v acc -> (t ∈ acc ↔ is_Some (v !! t)).
Proof.
  intros (_ & _ & H). split.
  - intros (n & Hn)%list_elem_of_lookup. exists (Z.of_nat n).
    apply H. eauto.
  - intros [i Hi]. apply H in Hi as (n & _ & Hn).
    apply list_elem_of_lookup. eauto.
Qed.

Lemma enumerates_insert v acc t :
  enumerates v acc -> v !! t = None ->
  enumerates (<[t := Z.of_nat (size v)]> v) (acc ++ [t]).
Proof.
  intros Hv Hnone.
  assert (Hnotin : t ∉ acc).
  { rewrite (enumerates_elem v acc t Hv), Hnone. by intros [? ?]. }
  destruct Hv as (Hnd & Hsz & H).
  split; [|split].
  - apply NoDup_app. split; [done|]. split; [|apply NoDup_singleton].
    intros x Hx ->%list_elem_of_singleton. done.
  - rewrite map_size_insert_None by done. rewrite length_app. simpl. lia.
  - intros u i. rewrite lookup_insert. case_decide as Heq.
    + subst u. split.
      * intros [= <-]. exists (length acc). split; [by rewrite Hsz|].
        rewrite lookup_app_r by lia. by rewrite Nat.sub_diag.
      * intros (n & -> & Hn). f_equal. rewrite Hsz. f_equal.
        destruct (decide (n < length acc)%nat) as [Hlt|Hge].
        -- rewrite lookup_app_l in Hn by done.
           exfalso. apply Hnotin. apply list_elem_of_lookup. eauto.
        -- apply lookup_lt_Some in Hn. rewrite length_app in Hn. simpl in Hn.
           lia.
    + rewrite H. split.
      * intros (n & -> & Hn). exists n. split; [done|].
        rewrite lookup_app_l; [done|]. by eapply lookup_lt_Some.
      * intros (n & -> & Hn). exists n. split; [done|].
        destruct (decide (n < length acc)%nat) as [Hlt|Hge].
        -- by rewrite lookup_app_l in Hn.
        -- rewrite lookup_app_r in Hn by lia.
           destruct (n - length acc)%nat; simpl in Hn; [congruence|].
           by rewrite lookup_nil in Hn.
Qed.

Lemma intern_all_spec l : ∀ s acc,
  enumerates (all_tokens s) acc ->
  ∃ ids s',
    intern_all l s = (Ok ids, s') ∧
    enumerates (all_tokens s') (first_seen_from acc l) ∧
    all_tokens s ⊆ all_tokens s' ∧
    Forall2 (fun t i => all_tokens s' !! t = Some i) l ids.
Proof.
  induction l as [|t r IH]; intros s acc Hen.
  - exists [], s. split; [done|]. split; [done|]. split; [done|constructor].
  - cbn [intern_all]. unfold bind at 1.
    change (first_seen_from acc (t :: r))
      with (first_seen_from (if decide (t ∈ acc) then acc else acc ++ [t]) r).
    destruct (all_tokens s !! t) as [i|] eqn:Ht.
    + rewrite (token2id_present s t i Ht).
      assert (Hin : t ∈ acc) by (apply (enumerates_elem _ _ _ Hen); eauto).
      rewrite decide_True by done.
      destruct (IH s acc Hen) as (ids & s' & Hrun & Hen' & Hsub & Hall).
      exists (i :: ids), s'. unfold bind, ret. rewrite Hrun.
      split; [done|]. split; [exact Hen'|]. split; [exact Hsub|].
      constructor; [|done]. by eapply lookup_weaken.
    + rewrite (token2id_absent s t Ht).
      assert (Hnotin : t ∉ acc).
      { rewrite (enumerates_elem _ _ t Hen), Ht. by intros [? ?]. }
      rewrite decide_False by done.
      set (s1 := set_all_tokens _ s).
      destruct (IH s1 (acc ++ [t])) as (ids & s' & Hrun & Hen' & Hsub & Hall).
      { subst s1. cbn. by apply enumerates_insert. }
      exists (Z.of_nat (size (all_tokens s)) :: ids), s'.
      unfold bind, ret. rewrite Hrun.
      split; [done|]. split; [exact Hen'|]. split.
      * etrans; [|exact Hsub]. subst s1. cbn. by apply insert_subseteq.
      * constructor; [|done]. eapply lookup_weaken; [|exact Hsub].
        subst s1. cbn. by rewrite lookup_insert_eq.
Qed.

(** C8. [token2id] on a token string returns the recorded id when the
    token is present, and otherwise assigns the id [len(all_tokens)],
    records it and returns it.  Hence a caller that interns the strings of
    [l] one after the other into an empty vocabulary ends with the ids
    [0 .. size-1], the [n]-th distinct string of [l] (by first occurrence)
    holding id [n], and every call returned the id its string holds at the
    end: the same string always gets the same id. *)
Theorem token2id_interns_first_seen (s : Agent) (t : string) (l : list string) :
  token2id (VStr t) s =
    match all_tokens s !! t with
    | Some i => (Ok i, s)
    | None =>
        (Ok (Z.of_nat (size (all_tokens s))),
         set_all_tokens
           (<[t := Z.of_nat (size (all_tokens s))]> (all_tokens s)) s)
    end
  ∧ ∃ ids s',
      intern_all l (set_all_tokens ∅ s) = (Ok ids, s') ∧
      size (all_tokens s') = length (first_seen l) ∧
      NoDup (first_seen l) ∧
      (∀ u i, all_tokens s' !! u = Some i ↔
              ∃ n : nat, i = Z.of_nat n ∧ first_seen l !! n = Some u) ∧
      Forall2 (fun u i => all_tokens s' !! u = Some i) l ids.
Proof.
  split.
  - destruct (all_tokens s !! t) as [i|] eqn:Ht.
    + by apply token2id_present.
    + by apply token2id_absent.
  - destruct (intern_all_spec l (set_all_tokens ∅ s) [])
      as (ids & s' & Hrun & (Hnd & Hsz & Hen) & _ & Hall).
    { cbn. apply enumerates_empty. }
    exists ids, s'. split; [done|]. split; [done|]. split; [done|].
    split; [exact Hen|exact Hall].
Qed.

(** C10. [token2id] applied to an integer, whatever its sign or size,
    returns that integer and leaves the agent, so also the vocabulary, as it
    was: no range or membership check is made.  An integer token handed to
    [new_freq] therefore lands in [freq_token] as it is. *)
Theorem token2id_int_passthrough (n : Z) (s : Agent) (fact freq : PyVal) :
  token2id (VInt n) s = (Ok n, s) ∧
  new_freq (VInt n) fact freq s =
    (Ok tt, set_freqs (freq_token s ++ [n]) (freq_fact_id s ++ [fact])
              (freq_freq s ++ [freq]) s) ∧
  all_tokens (new_freq (VInt n) fact freq s).2 = all_tokens s.
Proof.
  assert (Hid : token2id (VInt n) s = (Ok n, s)) by reflexivity.
  split; [exact Hid|].
  unfold new_freq, bind, modify. rewrite Hid.
  split; reflexivity.
Qed.

(** * Running the definitions *)

Example act_counts_tokens :
  let s := (act blank_tokenize (Some "the cat the") init_agent).2 in
  all_tokens s = {[ "cat" := 0; "the" := 1 ]} ∧
  freq_token s = [0; 1] ∧
  freq_fact_id s = [VInt 0; VInt 0] ∧
  freq_freq s = [VInt 1; VInt 2] ∧
  rows (store s) = {[ 0 := "the cat the" ]} ∧
  fact_id s = 1.
Proof. repeat split; vm_compute; reflexivity. Qed.

(** The merge translates the local ids of each worker: "dog" is 0 for
    worker 0 and 1 for worker 1, and becomes the global id 0. *)
Example merge_translates_local_ids :
  (shutdown 10 two_workers_merge).1 = Ok true ∧
  saved_tokens (shutdown 10 two_workers_merge).2
    = Some {[ "dog" := 0; "cat" := 1 ]} ∧
  saved_matrix (shutdown 10 two_workers_merge).2
    = Some {| cm_shape := (2, 2);
              cm_cells := {[ (0, 0) := 1; (1, 1) := 2; (0, 1) := 1 ]} |}.
Proof. repeat split; vm_compute; reflexivity. Qed.

Lemma unique_insert_counts_pos {A} (cmp : A -> A -> comparison) x l :
  Forall (fun e : A * Z => 0 < e.2) l ->
  Forall (fun e : A * Z => 0 < e.2) (unique_insert cmp x l).
Proof.
  induction 1 as [|[y c] l Hy Hl IH]; cbn.
  - by repeat constructor.
  - cbn in Hy. destruct (cmp x y); repeat constructor; cbn; try lia; done.
Qed.

(** The counts that [process_act] records are positive. *)
Lemma np_unique_counts_pos {A} (cmp : A -> A -> comparison) l :
  Forall (fun e : A * Z => 0 < e.2) (np_unique cmp l).
Proof.
  unfold np_unique.
  assert (H : ∀ acc, Forall (fun e : A * Z => 0 < e.2) acc ->
                     Forall (fun e : A * Z => 0 < e.2)
                       (fold_left (fun acc x => unique_insert cmp x acc) l acc)).
  { induction l as [|x l IH]; intros acc Hacc; [done|].
    cbn. apply IH. by apply unique_insert_counts_pos. }
  apply H. constructor.
Qed.

(** * Count matrix *)

Lemma cell_sum_cons e l k :
  cell_sum (e :: l) k = (if decide (e.1 = k) then e.2 else 0) + cell_sum l k.
Proof.
  unfold cell_sum. rewrite filter_cons.
  destruct (decide (e.1 = k)); [rewrite fmap_cons; cbn [foldr]|]; lia.
Qed.

Lemma cell_sum_notin l k : k ∉ l.*1 -> cell_sum l k = 0.
Proof.
  induction l as [|e l IH]; [done|].
  rewrite fmap_cons, not_elem_of_cons. intros [Hne Hnotin].
  rewrite cell_sum_cons, IH by done.
  by rewrite decide_False by congruence.
Qed.

Lemma wrap_int64_small z : int64 z -> wrap_int64 z = z.
Proof. unfold int64, wrap_int64. intros Hz. rewrite Z.mod_small; lia. Qed.

Lemma wrap_int64_add_l a b :
  wrap_int64 (wrap_int64 a + b) = wrap_int64 (a + b).
Proof.
  unfold wrap_int64. f_equal.
  replace ((a + 2 ^ 63) mod 2 ^ 64 - 2 ^ 63 + b + 2 ^ 63)
    with ((a + 2 ^ 63) mod 2 ^ 64 + b) by lia.
  replace (a + b + 2 ^ 63) with (a + 2 ^ 63 + b) by lia.
  by rewrite Zplus_mod_idemp_l.
Qed.

(** The stored entry of a coordinate is the fold, in [int64] arithmetic,
    of the counts of its triples. *)
Lemma fold_add_cell_lookup l : ∀ m k,
  fold_left add_cell l m !! k =
    fold_left (fun o d => Some match o with
                               | Some v => wrap_int64 (v + d)
                               | None => d
                               end)
      (filter (fun e : Z * Z * Z => e.1 = k) l).*2 (m !! k).
Proof.
  induction l as [|[[r c] d] l IH]; intros m k; [done|].
  cbn [fold_left]. rewrite IH, filter_cons. cbn [fst add_cell].
  destruct (decide ((r, c) = k)) as [<-|Hne].
  - by rewrite lookup_insert_eq.
  - by rewrite lookup_insert_ne.
Qed.

Lemma fold_wrapped_sum ds : ∀ v,
  fold_left (fun o d => Some match o with
                             | Some v => wrap_int64 (v + d)
                             | None => d
                             end) ds (Some v)
  = Some match ds with
         | [] => v
         | _ => wrap_int64 (v + foldr Z.add 0 ds)
         end.
Proof.
  induction ds as [|d ds IH]; intros v; [done|].
  cbn [fold_left foldr]. rewrite IH. f_equal.
  destruct ds as [|d' ds]; cbn [foldr].
  - f_equal. lia.
  - rewrite wrap_int64_add_l. f_equal. lia.
Qed.

Lemma filter_coordinate_nil (l : list (Z * Z * Z)) k :
  filter (fun e : Z * Z * Z => e.1 = k) l = [] -> k ∉ l.*1.
Proof.
  intros Hf Hin. apply list_elem_of_fmap in Hin as (e & -> & He).
  assert (Hin : e ∈ filter (fun e' : Z * Z * Z => e'.1 = e.1) l)
    by (by apply list_elem_of_filter).
  rewrite Hf in Hin. by apply elem_of_nil in Hin.
Qed.

Lemma filter_coordinate_NoDup (l : list (Z * Z * Z)) k e1 e2 rest :
  NoDup l.*1 -> filter (fun e : Z * Z * Z => e.1 = k) l ≠ e1 :: e2 :: rest.
Proof.
  intros Hnd Hf.
  assert (Hsub : (e1 :: e2 :: rest).*1 `sublist_of` l.*1).
  { rewrite <- Hf. apply fmap_sublist, sublist_filter. }
  pose proof (sublist_NoDup _ _ Hnd Hsub) as Hnd'.
  assert (H1 : e1 ∈ filter (fun e : Z * Z * Z => e.1 = k) l)
    by (rewrite Hf; apply list_elem_of_here).
  assert (H2 : e2 ∈ filter (fun e : Z * Z * Z => e.1 = k) l)
    by (rewrite Hf; apply list_elem_of_further, list_elem_of_here).
  apply list_elem_of_filter in H1 as [H1 _].
  apply list_elem_of_filter in H2 as [H2 _].
  rewrite !fmap_cons, H1, H2 in Hnd'.
  apply NoDup_cons in Hnd' as [Hnotin _].
  apply Hnotin, list_elem_of_here.
Qed.

(** The stored entry is the sum of the counts when that sum is in the
    [int64] range, and also when no coordinate occurs twice: nothing is
    added then. *)
Lemma sum_cells_lookup l k :
  int64 (cell_sum l k) ∨ NoDup l.*1 ->
  sum_cells l !! k =
    if decide (k ∈ l.*1) then Some (cell_sum l k) else None.
Proof.
  intros Hok. unfold sum_cells. rewrite fold_add_cell_lookup, lookup_empty.
  unfold cell_sum in *.
  destruct (filter (fun e : Z * Z * Z => e.1 = k) l) as [|e1 rest] eqn:Hf.
  - rewrite decide_False by (by apply filter_coordinate_nil). done.
  - assert (Hin : e1 ∈ filter (fun e : Z * Z * Z => e.1 = k) l)
      by (rewrite Hf; apply list_elem_of_here).
    apply list_elem_of_filter in Hin as [Hk Hin].
    rewrite decide_True by (apply list_elem_of_fmap; eauto).
    rewrite fmap_cons. cbn [fold_left foldr]. rewrite fold_wrapped_sum.
    f_equal. destruct rest as [|e2 rest]; [cbn; lia|].
    destruct Hok as [Hint|Hnd].
    + rewrite fmap_cons in *. by apply wrap_int64_small.
    + by apply filter_coordinate_NoDup in Hf.
Qed.

Lemma mapM_as_int_VInt (xs : list Z) : mapM as_int (VInt <$> xs) = Some xs.
Proof.
  apply mapM_Some. induction xs; constructor; done.
Qed.

Lemma coo_triples_split (l : list (Z * Z * Z)) :
  coo_triples l.*1.*1 l.*1.*2 l.*2 = l.
Proof.
  induction l as [|[[r c] d] l IH]; [done|]. cbn. by rewrite IH.
Qed.

Lemma cell_sum_pos l k :
  Forall (fun e : Z * Z * Z => 0 < e.2) l -> k ∈ l.*1 -> 0 < cell_sum l k.
Proof.
  intros Hpos. assert (Hnn : ∀ l', Forall (fun e : Z * Z * Z => 0 < e.2) l' ->
                                   0 <= cell_sum l' k).
  { induction 1 as [|e l' He _ IH]; [done|].
    rewrite cell_sum_cons. case_decide; lia. }
  induction Hpos as [|e l He Hl IH]; [by intros ?%elem_of_nil|].
  rewrite fmap_cons, cell_sum_cons. specialize (Hnn l Hl).
  intros [Heq|Hin]%elem_of_cons.
  - rewrite decide_True by done. lia.
  - specialize (IH Hin). case_decide; lia.
Qed.

Lemma compute_count_matrix_fresh s m :
  count_matrix s = None ->
  csr_matrix (freq_freq s) (freq_token s) (freq_fact_id s) (shape_of s) = Ok m ->
  _compute_count_matrix s =
    (Ok m, set_count_matrix (Some m)
             (set_num_docs (Some (shape_of s).2)
                (set_num_tokens (Some (shape_of s).1) s))).
Proof.
  intros Hnone Hcsr. destruct s. cbn in Hnone. subst.
  unfold shape_of in *. cbn in Hcsr.
  unfold _compute_count_matrix, bind, get_state, get_num_tokens, get_num_docs,
    lift_outcome, modify, ret.
  destruct num_tokens0, num_docs0; cbn in *; rewrite Hcsr; reflexivity.
Qed.

(** C1. In a state with no cached count matrix whose buffers hold the
    triples [l] (token id, fact id, count), with a shape that has no
    negative dimension and holds every triple, and with every count and
    every sum of the counts at one coordinate in the [int64] range (so
    that no addition wraps around),
    [_compute_count_matrix] builds and caches a matrix of that shape in
    which the value at every coordinate is the sum of the counts of all
    triples of [l] at that coordinate; a coordinate has no stored entry
    exactly when no triple of [l] has it; and when the counts are positive,
    as ingestion produces them, the value is zero exactly there. *)
Theorem compute_count_matrix_sums_duplicates (s : Agent) (l : list (Z * Z * Z)) :
  count_matrix s = None ->
  freq_token s = l.*1.*1 ->
  freq_fact_id s = VInt <$> l.*1.*2 ->
  freq_freq s = VInt <$> l.*2 ->
  0 <= (shape_of s).1 ->
  0 <= (shape_of s).2 ->
  Forall (fun e : Z * Z * Z =>
            0 <= e.1.1 < (shape_of s).1 ∧ 0 <= e.1.2 < (shape_of s).2) l ->
  Forall (fun e : Z * Z * Z => int64 e.2 ∧ int64 (cell_sum l e.1)) l ->
  ∃ m s',
    _compute_count_matrix s = (Ok m, s') ∧
    count_matrix s' = Some m ∧
    cm_shape m = shape_of s ∧
    ∀ t f,
      cell m t f = cell_sum l (t, f) ∧
      (cm_cells m !! (t, f) = None ↔ (t, f) ∉ l.*1) ∧
      (Forall (fun e : Z * Z * Z => 0 < e.2) l ->
       (cell m t f = 0 ↔ (t, f) ∉ l.*1)).
Proof.
  intros Hnone Htok Hfact Hfreq Hrows Hcols Hrange Hint.
  assert (Hsum : ∀ k, int64 (cell_sum l k)).
  { intros k. destruct (decide (k ∈ l.*1)) as [Hin|Hnotin].
    - apply list_elem_of_fmap in Hin as (e & -> & He).
      rewrite Forall_forall in Hint. by apply Hint.
    - rewrite cell_sum_notin by done. unfold int64. lia. }
  set (m := {| cm_shape := shape_of s; cm_cells := sum_cells l |}).
  assert (Hcsr : csr_matrix (freq_freq s) (freq_token s) (freq_fact_id s)
                   (shape_of s) = Ok m).
  { unfold csr_matrix.
    replace (0 <=? (shape_of s).1) with true by (symmetry; lia).
    replace (0 <=? (shape_of s).2) with true by (symmetry; lia).
    cbn [andb negb].
    rewrite Hfreq, Hfact, Htok, !mapM_as_int_VInt.
    rewrite !length_fmap, !Nat.eqb_refl. cbn [andb negb].
    rewrite coo_triples_split.
    replace (forallb (in_shape (shape_of s)) l) with true; [done|].
    symmetry. apply forallb_forall. intros [[r c] d] Hin.
    rewrite Forall_forall in Hrange. apply list_elem_of_In in Hin.
    specialize (Hrange _ Hin). cbn in Hrange. cbn.
    repeat (apply andb_true_intro; split); lia. }
  exists m, (set_count_matrix (Some m)
              (set_num_docs (Some (shape_of s).2)
                 (set_num_tokens (Some (shape_of s).1) s))).
  split; [by apply compute_count_matrix_fresh|].
  split; [done|]. split; [done|].
  intros t f. unfold cell. cbn [m cm_cells].
  rewrite sum_cells_lookup by (left; apply Hsum).
  case_decide as Hin; cbn [default]; unfold Datatypes.id.
  - split; [done|]. split; [by split|].
    intros Hpos. pose proof (cell_sum_pos l (t, f) Hpos Hin). split; [lia|done].
  - split; [by rewrite cell_sum_notin|]. split; [done|]. by intros _.
Qed.

(** C1, as the claim has it, fails: the counts are [int64] values and the
    entries that share a coordinate are added in that type.  With two
    triples of count 2^62 at the coordinate (0, 0) the matrix holds -2^63
    there, not their sum 2^63.  The merge leaves such buffers when a
    worker has sent that triple twice, and [shutdown] saves that matrix. *)
Lemma count_matrix_sum_wraps_around :
  freq_token overflowing_agent = overflowing_triples.*1.*1 ∧
  freq_fact_id overflowing_agent = VInt <$> overflowing_triples.*1.*2 ∧
  freq_freq overflowing_agent = VInt <$> overflowing_triples.*2 ∧
  cell_sum overflowing_triples (0, 0) = 2 ^ 63 ∧
  (∃ m, (_compute_count_matrix overflowing_agent).1 = Ok m ∧
        cell m 0 0 = - 2 ^ 63) ∧
  (shutdown 100 overflowing_master).1 = Ok true ∧
  freq_token (shutdown 100 overflowing_master).2
    = freq_token overflowing_agent ∧
  freq_fact_id (shutdown 100 overflowing_master).2
    = freq_fact_id overflowing_agent ∧
  freq_freq (shutdown 100 overflowing_master).2
    = freq_freq overflowing_agent ∧
  ∃ m, saved_matrix (shutdown 100 overflowing_master).2 = Some m ∧
       cell m 0 0 = - 2 ^ 63.
Proof.
  repeat split; try (vm_compute; reflexivity).
  - eexists. split; vm_compute; reflexivity.
  - eexists. split; vm_compute; reflexivity.
Qed.

(** * Ingestion *)

Section Ingestion.

Variable tokenize : string -> list string.

Lemma insert_fact_without_id_fails s fact :
  db_lock s = false ->
  healthy (store s) = false ∨ is_Some (rows (store s) !! fact_id s) ->
  insert_fact_without_id fact s =
    (Raise DatabaseError, set_fact_id (c_int (fact_id s + 1)) s).
Proof.
  intros Hlock Hfail. destruct s. cbn in *. subst.
  unfold insert_fact_without_id, bind, new_fact_id, with_db_lock,
    execute_insert. cbn.
  destruct (healthy store0) eqn:Hh; cbn; [|done].
  destruct Hfail as [?|Hsome]; [done|].
  by rewrite decide_True.
Qed.

(** C5. When the insert into the fact store fails (the store is
    unavailable, or the row cannot be written), [process_act] raises, and
    so does [act] on that observation; the three triple buffers and the
    vocabulary are what they were before the call, nothing was stored, and
    the store's write lock is free again. *)
Theorem process_act_insert_failure (s : Agent) (fact : string) :
  db_lock s = false ->
  healthy (store s) = false ∨ is_Some (rows (store s) !! fact_id s) ->
  (∃ s', process_act tokenize fact s = (Raise DatabaseError, s') ∧
         freq_token s' = freq_token s ∧
         freq_fact_id s' = freq_fact_id s ∧
         freq_freq s' = freq_freq s ∧
         all_tokens s' = all_tokens s ∧
         store s' = store s ∧
         db_lock s' = false) ∧
  (∃ e s', act tokenize (Some fact) s = (Raise e, s') ∧
           freq_token s' = freq_token s ∧
           freq_fact_id s' = freq_fact_id s ∧
           freq_freq s' = freq_freq s ∧
           all_tokens s' = all_tokens s ∧
           store s' = store s ∧
           db_lock s' = false).
Proof.
  intros Hlock Hfail.
  assert (Hp : ∀ s0, db_lock s0 = false ->
             healthy (store s0) = false ∨ is_Some (rows (store s0) !! fact_id s0) ->
             process_act tokenize fact s0 =
               (Raise DatabaseError, set_fact_id (c_int (fact_id s0 + 1)) s0)).
  { intros s0 H1 H2. unfold process_act, bind.
    by rewrite insert_fact_without_id_fails. }
  split.
  - eexists. split; [by apply Hp|]. by destruct s.
  - unfold act, bind, get_state.
    destruct s as [v ft ff fq c fid lk st nd nt cm df tf svt svm q fin fc ctm].
    cbn in Hlock, Hfail. subst lk.
    destruct tf as [w|]; cbn.
    + unfold del_tfidfs, del_count_matrix, del_doc_freqs, del_num_docs,
        del_num_tokens, bind; cbn.
      destruct cm as [m|]; cbn; [|by eexists _, _].
      destruct df as [d|]; cbn; [|by eexists _, _].
      destruct nd as [n1|]; cbn; [|by eexists _, _].
      destruct nt as [n2|]; cbn; [|by eexists _, _].
      rewrite Hp by done. by eexists _, _.
    + rewrite Hp by done. by eexists _, _.
Qed.

End Ingestion.

(** * The merge loop *)

Lemma for_each_app {A} (l1 l2 : list A) (body : A -> M unit) s :
  for_each (l1 ++ l2) body s =
    match for_each l1 body s with
    | (Ok _, s1) => for_each l2 body s1
    | (Raise e, s1) => (Raise e, s1)
    | (Blocked, s1) => (Blocked, s1)
    end.
Proof.
  revert s. induction l1 as [|x l1 IH]; intros s; [done|].
  cbn [app for_each]. unfold bind.
  destruct (body x s) as [[[]|e|] s1]; [apply IH|done|done].
Qed.

Lemma for_each_skip {A} (l : list A) (body : A -> M unit) s :
  (∀ x, x ∈ l -> body x s = (Ok tt, s)) ->
  for_each l body s = (Ok tt, s).
Proof.
  induction l as [|x l IH]; intros H; [done|].
  cbn [for_each]. unfold bind. rewrite H by apply list_elem_of_here.
  apply IH. intros y Hy. apply H. by apply list_elem_of_further.
Qed.

Lemma process_data_finished_skip i s :
  process_data_finished s !! i = Some true ->
  _process_data i s = (Ok tt, s).
Proof. intros H. unfold _process_data, bind, get_state. by rewrite H. Qed.

(** A round that has come through the channels before [i] and stands in
    state [s] goes on with the call for channel [i]. *)
Lemma process_round_reaches i s0 s :
  (i < length (comm_queues s0))%nat ->
  for_each (seq 0 i) _process_data s0 = (Ok tt, s) ->
  process_round s0 =
    match _process_data i s with
    | (Ok _, s1) =>
        for_each (seq (S i) (length (comm_queues s0) - S i)) _process_data s1
    | (Raise e, s1) => (Raise e, s1)
    | (Blocked, s1) => (Blocked, s1)
    end.
Proof.
  intros Hi Hpre. unfold process_round, bind, get_state.
  replace (length (comm_queues s0)) with (i + (length (comm_queues s0) - i))%nat
    at 1 by lia.
  rewrite seq_app, for_each_app, Hpre.
  cbn [Nat.add].
  destruct (length (comm_queues s0) - i)%nat as [|k] eqn:Hk; [lia|].
  cbn [seq for_each]. unfold bind.
  replace (length (comm_queues s0) - S i)%nat with k by lia.
  by destruct (_process_data i s) as [[[]|e|] s1].
Qed.

Lemma process_child_data_raises fuel i s0 s e s1 :
  (i < length (comm_queues s0))%nat ->
  for_each (seq 0 i) _process_data s0 = (Ok tt, s) ->
  finished_cnt s0 ≠ Z.of_nat (length (comm_queues s0)) ->
  _process_data i s = (Raise e, s1) ->
  process_child_data (S fuel) s0 = (Raise e, s1).
Proof.
  intros Hi Hpre Hcnt Hb.
  cbn [process_child_data]. unfold bind at 1, get_state.
  rewrite decide_False by done. unfold bind.
  rewrite (process_round_reaches i s0 s) by done. by rewrite Hb.
Qed.


Lemma length_chars_of s : length (chars_of s) = String.length s.
Proof. induction s as [|c s IH]; [done|]. cbn. by rewrite IH. Qed.

Lemma token2id_total tok s :
  ∃ id s1, token2id tok s = (Ok id, s1) ∧
           child_token_map s1 = child_token_map s.
Proof.
  unfold token2id. destruct tok as [n|t]; [by eexists _, _|].
  case_decide as Hn; cbn.
  - rewrite lookup_insert_eq. by eexists _, _.
  - destruct (all_tokens s !! t) as [i|]; [|done]. by eexists _, _.
Qed.

(** C6. Let [data] be the message the coordinator receives, in state [s],
    on the channel of an unfinished worker, other than the end-of-stream
    sentinel.
    (1) If it has three elements and the first has no entry in that
    worker's translation table, [_process_data] raises [KeyError]; the
    message is consumed and nothing else changes: no triple is recorded.
    (2) If its length is neither 2 nor 3, or it has no length,
    [_process_data] raises [RuntimeError] or [TypeError].
    In both cases the exception leaves the merge loop: whenever a round of
    [process_child_data] started in [s0] reaches this call, the loop stops
    with that exception.
    (3) If it has two elements, strings or integers, nothing is raised,
    whatever they are: the first element goes through [token2id] and the
    second becomes a key of the worker's translation table. *)
Theorem process_data_protocol_violation
  (s : Agent) (queue_ind : nat) (data : Payload) (rest : list Payload)
  (tbl : gmap PyVal Z) :
  process_data_finished s !! queue_ind = Some false ->
  comm_queues s !! queue_ind = Some (data :: rest) ->
  child_token_map s !! queue_ind = Some tbl ->
  data ≠ PStr END_OF_DATA ->
  let s' := set_comm_queues (<[queue_ind := rest]> (comm_queues s)) s in
  let stops e :=
    _process_data queue_ind s = (Raise e, s') ∧
    ∀ s0 fuel,
      (queue_ind < length (comm_queues s0))%nat ->
      finished_cnt s0 ≠ Z.of_nat (length (comm_queues s0)) ->
      for_each (seq 0 queue_ind) _process_data s0 = (Ok tt, s) ->
      process_child_data (S fuel) s0 = (Raise e, s') in
  (∀ tid f c, py_items data = [tid; f; c] -> tbl !! tid = None ->
     stops KeyError) ∧
  (py_len data ≠ Some 2%nat -> py_len data ≠ Some 3%nat ->
     stops RuntimeError ∨ stops TypeError) ∧
  (∀ tok key, py_items data = [tok; key] ->
     ∃ id s1,
       token2id tok s' = (Ok id, s1) ∧
       _process_data queue_ind s =
         (Ok tt, set_child_token_map
                   (<[queue_ind := <[key := id]> tbl]> (child_token_map s1))
                   s1)).
Proof.
  intros Hfin Hq Htbl Hne s' stops.
  assert (Hget : queue_get queue_ind s = (Ok data, s'))
    by (unfold queue_get; by rewrite Hq).
  assert (Hstops : ∀ e, _process_data queue_ind s = (Raise e, s') -> stops e).
  { intros e Hrun. split; [done|]. intros s0 fuel Hlt Hcnt Hpre.
    by eapply process_child_data_raises. }
  split; [|split].
  - intros tid f c Hitems Hnone. apply Hstops.
    unfold _process_data, bind at 1, get_state. rewrite Hfin.
    unfold bind at 1. rewrite Hget. rewrite decide_False by done.
    assert (Hlen : py_len data = Some 3%nat).
    { destruct data as [str|xs|z]; cbn in *; [| |done].
      - by rewrite <- length_chars_of, Hitems.
      - by rewrite Hitems. }
    rewrite Hlen, Hitems. unfold bind, get_translation. cbn.
    by rewrite Htbl, Hnone.
  - intros H2 H3.
    assert (Hrun : _process_data queue_ind s = (Raise RuntimeError, s') ∨
                   _process_data queue_ind s = (Raise TypeError, s')).
    { destruct (py_len data) as [[|[|[|[|n]]]]|] eqn:Hlen; try done;
        [left|left|left|right];
        unfold _process_data, bind at 1, get_state; rewrite Hfin;
        unfold bind at 1; rewrite Hget; rewrite decide_False by done;
        by rewrite Hlen. }
    destruct Hrun as [Hrun|Hrun]; [left|right]; by apply Hstops.
  - intros tok key Hitems.
    destruct (token2id_total tok s') as (id & s1 & Hid & Hctm).
    exists id, s1. split; [done|].
    unfold _process_data, bind at 1, get_state. rewrite Hfin.
    unfold bind at 1. rewrite Hget. rewrite decide_False by done.
    assert (Hlen : py_len data = Some 2%nat).
    { destruct data as [str|xs|z]; cbn in *; [| |done].
      - by rewrite <- length_chars_of, Hitems.
      - by rewrite Hitems. }
    rewrite Hlen, Hitems. unfold bind. rewrite Hid.
    unfold set_translation. rewrite Hctm.
    change (child_token_map s') with (child_token_map s).
    by rewrite Htbl.
Qed.

(** C6, as the claim has it, fails: a two-character string and a pair of
    integers are neither the sentinel, nor a (token, id) pair, nor a
    triple, and the merge loop takes both without an error and runs to
    its end.  The string ['ab'] is unpacked into its characters: ['a']
    enters the vocabulary and ['b'] becomes a key of the worker's
    translation table; [(0, 5)] maps the key 5 to the id 0. *)
Lemma malformed_pairs_merged :
  (_process_data 0 malformed_pairs_agent).1 = Ok tt ∧
  (process_child_data 100 malformed_pairs_agent).1 = Ok true ∧
  all_tokens (process_child_data 100 malformed_pairs_agent).2
    = <["a" := 0]> ∅ ∧
  child_token_map (process_child_data 100 malformed_pairs_agent).2
    = [ <[VStr "b" := 0]> (<[VInt 5 := 0]> ∅) ] ∧
  comm_queues (process_child_data 100 malformed_pairs_agent).2 = [ [] ].
Proof. repeat split; vm_compute; reflexivity. Qed.









(** * Cache invalidation *)

Lemma token2id_caches tok s r s' :
  token2id tok s = (r, s') -> caches s' = caches s.
Proof.
  unfold token2id. destruct tok as [n|t]; [by intros [= _ <-]|].
  case_decide; cbn;
    [rewrite lookup_insert_eq | destruct (all_tokens s !! t)];
    by intros [= _ <-].
Qed.

Lemma new_freq_caches a b c s r s' :
  new_freq a b c s = (r, s') -> caches s' = caches s.
Proof.
  unfold new_freq, bind, modify.
  destruct (token2id a s) as [[tid|e|] s1] eqn:Ht;
    apply token2id_caches in Ht; intros [= _ <-]; by rewrite <- Ht.
Qed.

Lemma for_each_caches {A} (l : list A) (body : A -> M unit) :
  (∀ x s r s', body x s = (r, s') -> caches s' = caches s) ->
  ∀ s r s', for_each l body s = (r, s') -> caches s' = caches s.
Proof.
  intros Hbody. induction l as [|x l IH]; intros s r s'.
  - by intros [= _ <-].
  - cbn [for_each]. unfold bind.
    destruct (body x s) as [[[]|e|] s1] eqn:Hx; apply Hbody in Hx.
    + intros Hrest%IH. congruence.
    + intros [= _ <-]. done.
    + intros [= _ <-]. done.
Qed.

Lemma insert_fact_without_id_caches fact s r s' :
  insert_fact_without_id fact s = (r, s') -> caches s' = caches s.
Proof.
  unfold insert_fact_without_id, bind, new_fact_id, with_db_lock,
    execute_insert, ret. cbn.
  destruct (db_lock s); [by intros [= _ <-]|].
  destruct (healthy (store s)); cbn; [|by intros [= _ <-]].
  case_decide; cbn; by intros [= _ <-].
Qed.

Lemma process_act_caches tokenize fact s r s' :
  process_act tokenize fact s = (r, s') -> caches s' = caches s.
Proof.
  unfold process_act, bind.
  destruct (insert_fact_without_id fact s) as [[fid|e|] s1] eqn:Hi;
    apply insert_fact_without_id_caches in Hi.
  - intros Hl. eapply for_each_caches in Hl; [congruence|].
    intros x s2 r2 s3. apply new_freq_caches.
  - intros [= _ <-]. done.
  - intros [= _ <-]. done.
Qed.

(** When a TF-IDF matrix is cached together with the values it was derived
    from, [act] drops all five cached attributes before it ingests. *)
Lemma act_drops_caches_when_tfidfs_cached tokenize s w m d nd nt obs r s' :
  caches s = (Some w, Some m, Some d, Some nd, Some nt) ->
  act tokenize obs s = (r, s') ->
  caches s' = (None, None, None, None, None).
Proof.
  intros Hc.
  destruct s as [v ft ff fq c fid lk st nd0 nt0 cm df tf svt svm q fin fc ctm].
  injection Hc as -> -> -> -> ->.
  unfold act, bind, get_state, del_tfidfs, del_count_matrix, del_doc_freqs,
    del_num_docs, del_num_tokens, modify. cbn.
  destruct obs as [text|]; [|by intros [= _ <-]].
  by intros ->%process_act_caches.
Qed.

(** C2 fails on the code.  After [act("cat")], [save()], [act("dog")]
    both facts are in the triple buffers, yet the count matrix cached by
    [save] is still there: [_compute_count_matrix] returns it, with its
    shape (1, 1) and without the entry of the second fact, and the next
    [save] writes it out next to the two-token vocabulary. *)
Lemma stale_count_matrix_after_save :
  freq_token ingest_save_ingest = [0; 1] ∧
  freq_fact_id ingest_save_ingest = [VInt 0; VInt 1] ∧
  freq_freq ingest_save_ingest = [VInt 1; VInt 1] ∧
  tfidfs ingest_save_ingest = None ∧
  (_compute_count_matrix ingest_save_ingest).1
    = Ok {| cm_shape := (1, 1); cm_cells := {[ (0, 0) := 1 ]} |} ∧
  saved_tokens (save ingest_save_ingest).2
    = Some {[ "cat" := 0; "dog" := 1 ]} ∧
  saved_matrix (save ingest_save_ingest).2
    = Some {| cm_shape := (1, 1); cm_cells := {[ (0, 0) := 1 ]} |}.
Proof. repeat split; vm_compute; reflexivity. Qed.

(** * Inverse document frequency *)

Lemma ln_monotone x y : (0 < x)%R -> (x <= y)%R -> (ln x <= ln y)%R.
Proof.
  intros Hx [Hlt| ->]; [|lra]. left. by apply ln_increasing.
Qed.

Lemma idf_value_Rmax F df :
  idf_value F df = Rmax 0 (ln ((IZR F - IZR df + 0.5) / (IZR df + 0.5))).
Proof.
  unfold idf_value, Rmax.
  destruct (Rlt_dec _ 0) as [Hlt|Hge], (Rle_dec 0 _) as [Hle|Hnle]; lra.
Qed.

Lemma idf_value_nonneg F df : (0 <= idf_value F df)%R.
Proof. rewrite idf_value_Rmax. apply Rmax_l. Qed.

Lemma idf_value_every_fact F : 0 <= F -> idf_value F F = 0%R.
Proof.
  intros HF. apply IZR_le in HF.
  unfold idf_value.
  destruct (Rlt_dec _ 0) as [Hlt|Hge]; [done|].
  apply Rle_antisym; [|lra].
  replace (IZR F - IZR F + 0.5)%R with 0.5%R by lra.
  rewrite <- ln_1. apply ln_monotone.
  - apply Rdiv_lt_0_compat; lra.
  - apply (Rmult_le_reg_r (IZR F + 0.5)); [lra|].
    unfold Rdiv. rewrite Rmult_assoc, Rinv_l by lra. lra.
Qed.

Lemma idf_value_no_fact F : 0 <= F -> idf_value F 0 = ln (2 * IZR F + 1).
Proof.
  intros HF. apply IZR_le in HF.
  unfold idf_value.
  replace ((IZR F - 0 + 0.5) / (0 + 0.5))%R with (2 * IZR F + 1)%R.
  2:{ apply (Rmult_eq_reg_r (0 + 0.5)); [|lra].
      unfold Rdiv. rewrite Rmult_assoc, Rinv_l by lra. lra. }
  destruct (Rlt_dec _ 0) as [Hlt|Hge]; [|done].
  exfalso. assert (0 <= ln (2 * IZR F + 1))%R; [|lra].
  rewrite <- ln_1. apply ln_monotone; lra.
Qed.

Lemma doc_freq_vector_lookup cm t :
  0 <= t < (cm_shape cm).1 ->
  doc_freq_vector cm !! Z.to_nat t = Some (row_doc_freq (cm_cells cm) t).
Proof.
  intros Ht. unfold doc_freq_vector.
  rewrite list_lookup_fmap, lookup_seqZ_lt by lia. cbn. f_equal. f_equal. lia.
Qed.

Lemma length_doc_freq_vector cm :
  Z.of_nat (length (doc_freq_vector cm)) = Z.max 0 (cm_shape cm).1.
Proof. unfold doc_freq_vector. rewrite length_fmap, length_seqZ. lia. Qed.

(** The row count of the code is the number of facts with a positive
    count, when every stored entry lies in a column of the shape. *)
Lemma row_doc_freq_counts_facts cm t :
  (∀ k v, cm_cells cm !! k = Some v -> 0 <= k.2 < (cm_shape cm).2) ->
  row_doc_freq (cm_cells cm) t = facts_containing cm t.
Proof.
  intros Hin. unfold row_doc_freq, facts_containing. f_equal.
  rewrite <- length_map_to_list.
  rewrite <- (length_fmap (fun kv : Z * Z * Z => kv.1.2)).
  apply Permutation_length, NoDup_Permutation.
  - apply NoDup_fmap_2_strong; [|apply NoDup_map_to_list].
    intros [[t1 f1] v1] [[t2 f2] v2].
    rewrite !elem_of_map_to_list, !map_lookup_filter_Some. cbn.
    intros [H1 [-> _]] [H2 [-> _]] ->. congruence.
  - apply NoDup_filter, NoDup_seqZ.
  - intros f. rewrite list_elem_of_fmap, list_elem_of_filter, elem_of_seqZ.
    unfold cell. split.
    + intros ([[t1 f1] v] & -> & Hkv). cbn.
      apply elem_of_map_to_list, map_lookup_filter_Some in Hkv
        as [Hl [Ht Hv]]. cbn in Ht, Hv. subst t1.
      rewrite Hl. cbn. split; [done|]. apply (Hin _ _ Hl).
    + intros [Hpos Hr].
      destruct (cm_cells cm !! (t, f)) as [v|] eqn:Hl; cbn in Hpos; [|lia].
      exists ((t, f), v). split; [done|].
      apply elem_of_map_to_list, map_lookup_filter_Some. by split.
Qed.

Lemma facts_containing_bounds cm t :
  0 <= (cm_shape cm).2 -> 0 <= facts_containing cm t <= (cm_shape cm).2.
Proof.
  intros HF. unfold facts_containing.
  pose proof (length_filter (fun f => 0 < cell cm t f) (seqZ 0 (cm_shape cm).2)) as Hle.
  rewrite length_seqZ in Hle. lia.
Qed.

Lemma facts_containing_zero cm t :
  (∀ f, cell cm t f <= 0) -> facts_containing cm t = 0.
Proof.
  intros Hz. unfold facts_containing.
  replace (filter _ _) with (@nil Z); [done|].
  symmetry. induction (seqZ 0 (cm_shape cm).2) as [|f l IH]; [done|].
  rewrite filter_cons_False; [done|]. specialize (Hz f). lia.
Qed.

Lemma is_0d_doc_freq_vector cm :
  (cm_shape cm).1 ≠ 1 -> is_0d (doc_freq_vector cm) = false.
Proof.
  intros HT. unfold is_0d. apply Nat.eqb_neq.
  pose proof (length_doc_freq_vector cm). lia.
Qed.

Lemma compute_tfidf_from_count_matrix_fresh cm s :
  tfidfs s = None -> doc_freqs s = None ->
  0 <= (cm_shape cm).1 -> (cm_shape cm).1 ≠ 1 ->
  let W := {| wm_shape := cm_shape cm;
              wm_cells :=
                weight_cells
                  (map (idf_value (cm_shape cm).2) (doc_freq_vector cm))
                  (cm_cells cm) |} in
  _compute_tfidf_from_count_matrix cm s =
    (Ok W, set_tfidfs (Some W)
             (set_doc_freqs (Some (doc_freq_vector cm)) s)).
Proof.
  intros Htf Hdf HT HT1 W.
  unfold _compute_tfidf_from_count_matrix, bind, get_state, get_doc_freqs.
  rewrite Htf, Hdf, (is_0d_doc_freq_vector cm HT1).
  rewrite decide_True; [done|].
  rewrite length_map, length_doc_freq_vector. lia.
Qed.

Lemma weight_cells_value idfs cells t f c :
  cells !! (t, f) = Some c ->
  default 0%R (weight_cells idfs cells !! (t, f))
    = (nth (Z.to_nat t) idfs 0 * ln (1 + IZR c))%R.
Proof.
  intros Hc. unfold weight_cells. rewrite map_lookup_imap, Hc. cbn.
  by destruct (Req_dec_T _ 0) as [->|_].
Qed.

(** C4, as the code has it.  For a count matrix of shape (T, F) and a
    token t with a row in it, the document-frequency vector holds at
    position t the number df of facts in which t has a positive count; the
    idf of t is max(0, log((F - df + 0.5) / (df + 0.5))), never negative,
    and exactly 0 when t occurs in every fact.  A token that occurs in no
    fact is present in the vector with the value 0, and its idf is
    log(2F + 1).  When the matrix has more than one row, this idf is the
    factor of row t in the weight matrix that scoring uses. *)
Theorem idf_is_clamped_log (cm : CountMatrix) (t : Z) (s : Agent) :
  0 <= (cm_shape cm).2 ->
  0 <= t < (cm_shape cm).1 ->
  (∀ k v, cm_cells cm !! k = Some v -> 0 <= k.2 < (cm_shape cm).2) ->
  tfidfs s = None -> doc_freqs s = None ->
  let F := (cm_shape cm).2 in
  let df := facts_containing cm t in
  length (doc_freq_vector cm) = Z.to_nat (cm_shape cm).1 ∧
  doc_freq_vector cm !! Z.to_nat t = Some df ∧
  idf_value F df = Rmax 0 (ln ((IZR F - IZR df + 0.5) / (IZR df + 0.5))) ∧
  (0 <= idf_value F df)%R ∧
  (df = F -> idf_value F df = 0%R) ∧
  ((∀ f, cell cm t f <= 0) ->
     doc_freq_vector cm !! Z.to_nat t = Some 0 ∧
     idf_value F df = ln (2 * IZR F + 1)) ∧
  ((cm_shape cm).1 ≠ 1 ->
   ∃ W s',
     _compute_tfidf_from_count_matrix cm s = (Ok W, s') ∧
     doc_freqs s' = Some (doc_freq_vector cm) ∧
     ∀ f c, cm_cells cm !! (t, f) = Some c ->
            weight W t f = (idf_value F df * ln (1 + IZR c))%R).
Proof.
  intros HF Ht Hcols Htf Hdf F df.
  assert (Hlook : doc_freq_vector cm !! Z.to_nat t = Some df).
  { rewrite doc_freq_vector_lookup by done.
    by rewrite row_doc_freq_counts_facts. }
  split.
  { pose proof (length_doc_freq_vector cm). lia. }
  split; [done|].
  split; [apply idf_value_Rmax|].
  split; [apply idf_value_nonneg|].
  split; [intros ->; by apply idf_value_every_fact|].
  split.
  { intros Hz. rewrite Hlook. subst df.
    rewrite (facts_containing_zero cm t Hz). split; [done|].
    by apply idf_value_no_fact. }
  intros HT1. eexists _, _. split.
  { apply compute_tfidf_from_count_matrix_fresh; [done|done|lia|done]. }
  split; [done|].
  intros f c Hc. unfold weight. cbn [wm_cells].
  rewrite (weight_cells_value _ _ _ _ _ Hc). f_equal.
  apply nth_lookup_Some. by rewrite list_lookup_fmap, Hlook.
Qed.

(** C4, as the claim has it, fails in its last part.  The merge of a
    worker that announced "dog" without a triple for it yields a count
    matrix of shape (2, 1) in which token 1 occurs in no fact; the
    document-frequency vector computed from it has an entry for token 1,
    and that entry is 0. *)
Lemma unused_token_has_zero_doc_freq :
  (shutdown 10 unused_token_merge).1 = Ok true ∧
  count_matrix (shutdown 10 unused_token_merge).2 = Some unused_token_matrix ∧
  facts_containing unused_token_matrix 1 = 0 ∧
  (get_doc_freqs unused_token_matrix (shutdown 10 unused_token_merge).2).1
    = Ok [1; 0] ∧
  doc_freq_vector unused_token_matrix !! 1%nat = Some 0 ∧
  doc_freq_vector unused_token_matrix !! 1%nat ≠ None.
Proof. repeat split; try (vm_compute; reflexivity). discriminate. Qed.

(** * Ranking *)

Lemma nth_map_Ropp (l : list R) i : nth i (map Ropp l) 0%R = (- nth i l 0)%R.
Proof.
  transitivity (nth i (map Ropp l) (- 0)%R); [by rewrite Ropp_0|].
  apply map_nth.
Qed.

Lemma take_at_Some {A} (a : list A) (idx : list nat) (d : A) :
  (∀ i, i ∈ idx -> (i < length a)%nat) ->
  take_at a idx = Some (map (fun i => nth i a d) idx).
Proof.
  intros Hin. unfold take_at. apply mapM_Some.
  induction idx as [|i idx IH]; [constructor|].
  cbn. constructor.
  - destruct (nth_lookup_or_length a i d) as [H|H]; [done|].
    pose proof (Hin i (list_elem_of_here _ _)). lia.
  - apply IH. intros j Hj. apply Hin. by apply list_elem_of_further.
Qed.

Lemma map_nth_seq_id {A} (l : list A) (d : A) :
  map (fun i => nth i l d) (seq 0 (length l)) = l.
Proof.
  apply list_eq. intros i. rewrite list_lookup_fmap.
  destruct (decide (i < length l)%nat) as [Hlt|Hge].
  - rewrite lookup_seq_lt by done. cbn.
    destruct (lookup_lt_is_Some_2 l i Hlt) as [x Hx].
    rewrite Hx. f_equal. by apply nth_lookup_Some.
  - rewrite lookup_seq_ge by lia. cbn. symmetry. apply lookup_ge_None. lia.
Qed.

Lemma positions_of_permutation (p : list nat) n :
  Permutation p (seq 0 n) ->
  NoDup p ∧ length p = n ∧ ∀ i, i ∈ p ↔ (i < n)%nat.
Proof.
  intros Hp. split; [|split].
  - rewrite Hp. apply NoDup_seq.
  - rewrite Hp. apply length_seq.
  - intros i. rewrite Hp, elem_of_seq. lia.
Qed.

Section Ranking.

Variable argsort : list R -> list nat.
Variable argpartition : list R -> nat -> list nat.
Hypothesis argsort_ok : argsort_spec argsort.
Hypothesis argpartition_ok : argpartition_spec argpartition.

Lemma retrieve_order_all (data : list R) (k : Z) :
  Z.of_nat (length data) <= k ->
  retrieve_order argsort argpartition data k = Ok (argsort (map Ropp data)) ∧
  top_positions data (Z.to_nat k) (argsort (map Ropp data)).
Proof.
  intros Hk. unfold retrieve_order.
  rewrite (proj2 (Z.leb_le _ _) Hk). split; [done|].
  destruct (argsort_ok (map Ropp data)) as [Hperm Hsorted].
  rewrite length_map in Hperm.
  destruct (positions_of_permutation _ _ Hperm) as (Hnd & Hlen & Hmem).
  split; [done|]. split; [by intros i ?%Hmem|]. split; [lia|]. split.
  - intros i j pi pj Hij Hi Hj.
    specialize (Hsorted i j pi pj Hij Hi Hj).
    rewrite !nth_map_Ropp in Hsorted. lra.
  - intros pi pj _ Hlt Hnotin. exfalso. by apply Hnotin, Hmem.
Qed.

Lemma retrieve_order_partial (data : list R) (k : Z) :
  0 <= k < Z.of_nat (length data) ->
  ∃ o, retrieve_order argsort argpartition data k = Ok o ∧
       top_positions data (Z.to_nat k) o.
Proof.
  intros Hk. unfold retrieve_order, np_argpartition.
  rewrite (proj2 (Z.leb_gt _ _)) by lia.
  rewrite length_map.
  rewrite (proj2 (Z.eqb_neq _ _)) by lia.
  rewrite (proj2 (Z.ltb_ge _ _)) by lia.
  rewrite (proj2 (Z.leb_le _ _)) by lia.
  rewrite (proj2 (Z.ltb_lt _ _)) by lia. cbn [andb].
  set (neg := map Ropp data).
  set (p := argpartition neg (Z.to_nat k)).
  destruct (argpartition_ok neg (Z.to_nat k)) as [Hperm Hpart].
  { subst neg. rewrite length_map. lia. }
  fold p in Hperm, Hpart. subst neg. rewrite length_map in Hperm.
  destruct (positions_of_permutation _ _ Hperm) as (Hnd & Hlen & Hmem).
  unfold slice_to. rewrite (proj2 (Z.leb_le _ _)) by lia.
  set (o := take (Z.to_nat k) p).
  assert (Ho_len : length o = Z.to_nat k) by (subst o; rewrite length_take; lia).
  assert (Ho_in : ∀ i, i ∈ o -> (i < length data)%nat).
  { intros i Hi. apply Hmem. subst o.
    apply elem_of_take in Hi as (a & Ha & _).
    apply list_elem_of_lookup. eauto. }
  assert (Ho_nd : NoDup o).
  { subst o. eapply sublist_NoDup; [exact Hnd|apply sublist_take]. }
  rewrite (take_at_Some data o 0%R Ho_in).
  set (sub := map (fun i => nth i data 0%R) o).
  set (q := argsort (map Ropp sub)).
  destruct (argsort_ok (map Ropp sub)) as [Hqperm Hqsorted].
  fold q in Hqperm, Hqsorted.
  rewrite length_map in Hqperm. subst sub. rewrite length_map in Hqperm.
  destruct (positions_of_permutation _ _ Hqperm) as (Hqnd & Hqlen & Hqmem).
  rewrite (take_at_Some o q 0%nat) by (by intros i ?%Hqmem).
  set (o_sort := map (fun j => nth j o 0%nat) q).
  assert (Hos : Permutation o_sort o).
  { subst o_sort. rewrite Hqperm. by rewrite map_nth_seq_id. }
  exists o_sort. split; [done|].
  split; [by rewrite Hos|].
  split; [intros i Hi; apply Ho_in; by rewrite <- Hos|].
  split; [rewrite Hos; lia|].
  split.
  - intros i j pi pj Hij Hi Hj. subst o_sort.
    rewrite list_lookup_fmap in Hi, Hj.
    destruct (q !! i) as [qi|] eqn:Hqi; [|done].
    destruct (q !! j) as [qj|] eqn:Hqj; [|done].
    cbn in Hi, Hj. injection Hi as <-. injection Hj as <-.
    specialize (Hqsorted i j qi qj Hij Hqi Hqj).
    rewrite !nth_map_Ropp in Hqsorted.
    assert (Hsub : ∀ x, x ∈ q ->
              nth x (map (fun i => nth i data 0%R) o) 0%R
              = nth (nth x o 0%nat) data 0%R).
    { intros x Hx%Hqmem. apply nth_lookup_Some.
      rewrite list_lookup_fmap.
      destruct (nth_lookup_or_length o x 0%nat) as [->|?]; [done|lia]. }
    rewrite !Hsub in Hqsorted
      by (apply list_elem_of_lookup; eauto). lra.
  - intros pi pj Hpi Hpj Hnotin.
    rewrite Hos in Hpi, Hnotin.
    apply list_elem_of_lookup in Hpi as [a Ha].
    assert (Ha_lt : (a < Z.to_nat k)%nat).
    { apply lookup_lt_Some in Ha. lia. }
    subst o. rewrite lookup_take_lt in Ha by done.
    assert (Hpj_in : pj ∈ p) by (by apply Hmem).
    apply list_elem_of_lookup in Hpj_in as [b Hb].
    assert (Hb_ge : (Z.to_nat k <= b)%nat).
    { destruct (decide (Z.to_nat k <= b)%nat) as [|Hn]; [done|].
      exfalso. apply Hnotin. apply list_elem_of_lookup. exists b.
      rewrite lookup_take_lt by lia. done. }
    specialize (Hpart a b pi pj ltac:(lia) Hb_ge Ha Hb).
    rewrite !nth_map_Ropp in Hpart. lra.
Qed.

Lemma retrieve_order_top (data : list R) (k : Z) :
  0 <= k ->
  ∃ o, retrieve_order argsort argpartition data k = Ok o ∧
       top_positions data (Z.to_nat k) o.
Proof.
  intros Hk. destruct (decide (Z.of_nat (length data) <= k)) as [Hle|Hgt].
  - eexists. by apply retrieve_order_all.
  - apply retrieve_order_partial. lia.
Qed.

End Ranking.

Lemma sparse_row_dot_nonzero q W e : e ∈ sparse_row_dot q W -> e.2 ≠ 0%R.
Proof.
  unfold sparse_row_dot. rewrite list_elem_of_omap.
  intros (f & _ & Hf). destruct (Req_dec_T _ 0) as [|Hne]; [done|].
  by injection Hf as <-.
Qed.

Lemma map_each_fetch_fact ids s :
  healthy (store s) = true ->
  (∀ id, id ∈ ids -> is_Some (rows (store s) !! id)) ->
  ∃ out, map_each ids fetch_fact s = (Ok out, s) ∧
         Forall2 (fun id text => rows (store s) !! id = Some text) ids out.
Proof.
  intros Hh. induction ids as [|id ids IH]; intros Hin.
  - exists []. split; [done|constructor].
  - destruct (Hin id (list_elem_of_here _ _)) as [text Htext].
    destruct IH as (out & Hrun & Hall).
    { intros j Hj. apply Hin. by apply list_elem_of_further. }
    exists (text :: out). split; [|by constructor].
    cbn [map_each]. unfold bind, fetch_fact at 1. rewrite Hh, Htext. cbn.
    by rewrite Hrun.
Qed.

(** The positions outside [o], and the split of a list along [o]. *)
Lemma split_by_positions {A} (l : list A) (d : A) (o : list nat) :
  NoDup o -> (∀ i, i ∈ o -> (i < length l)%nat) ->
  Permutation l
    (map (fun i => nth i l d) o ++
     map (fun i => nth i l d) (filter (fun i => i ∉ o) (seq 0 (length l)))).
Proof.
  intros Hnd Hin. rewrite <- map_app.
  rewrite <- (map_nth_seq_id l d) at 1.
  apply Permutation_map. apply NoDup_Permutation.
  - apply NoDup_seq.
  - apply NoDup_app. split; [done|]. split.
    + intros i Hi [Hni _]%list_elem_of_filter. done.
    + apply NoDup_filter, NoDup_seq.
  - intros i. rewrite elem_of_app, list_elem_of_filter, elem_of_seq. split.
    + intros Hi. destruct (decide (i ∈ o)); [by left|right]. split; [done|lia].
    + intros [Hi|[_ Hi]]; [|lia]. apply Hin in Hi. lia.
Qed.

Section Retrieval.

Variable tokenize : string -> list string.
Variable argsort : list R -> list nat.
Variable argpartition : list R -> nat -> list nat.
Hypothesis argsort_ok : argsort_spec argsort.
Hypothesis argpartition_ok : argpartition_spec argpartition.

Lemma retrieve_scores_nonzero tokens s res s1 :
  retrieve_scores tokens s = (Ok res, s1) -> ∀ e, e ∈ res -> e.2 ≠ 0%R.
Proof.
  unfold retrieve_scores, bind, get_state, raise, ret.
  destruct (compute_tfidf s) as [[w|e|] sa]; [|done|done].
  destruct (map_each tokens _ sa) as [[wids|e|] sb]; [|done|done].
  destruct (doc_freqs sb) as [df|]; [|done].
  destruct (if is_0d df then _ else _) as [Ns|]; [|done].
  destruct (get_num_docs sb) as [[nd|e|] sc]; [|done|done].
  destruct (get_num_tokens sc) as [[nt|e|] sd]; [|done|done].
  destruct (tfidfs sd) as [W|]; [|done].
  case_decide; [|done].
  intros [= <- <-] e. apply sparse_row_dot_nonzero.
Qed.

Lemma retrieve_tail_top (res : list (Z * R)) (k : Z) (s : Agent) :
  0 <= k ->
  healthy (store s) = true ->
  (∀ id, id ∈ res.*1 -> is_Some (rows (store s) !! id)) ->
  ∃ ranked rest out,
    retrieve_tail argsort argpartition res k s = (Ok out, s) ∧
    Forall2 (fun e text => rows (store s) !! e.1 = Some text) ranked out ∧
    Permutation res (ranked ++ rest) ∧
    length ranked = Nat.min (length res) (Z.to_nat k) ∧
    (∀ i j e1 e2, (i <= j)%nat -> ranked !! i = Some e1 ->
       ranked !! j = Some e2 -> (e2.2 <= e1.2)%R) ∧
    (∀ e e', e ∈ ranked -> e' ∈ rest -> (e'.2 <= e.2)%R).
Proof.
  intros Hk Hh Hstore.
  destruct (retrieve_order_top argsort argpartition argsort_ok argpartition_ok
              res.*2 k Hk) as (o & Horder & Hnd & Hin & Hlen & Hdesc & Hdom).
  rewrite length_fmap in Hin, Hlen.
  set (d := (0, 0%R) : Z * R).
  assert (Hnth2 : ∀ i, nth i res.*2 0%R = (nth i res d).2).
  { intros i. change 0%R with (d.2). apply map_nth. }
  set (ranked := map (fun i => nth i res d) o).
  set (others := filter (fun i => i ∉ o) (seq 0 (length res))).
  set (rest := map (fun i => nth i res d) others).
  assert (Hids : take_at res.*1 o = Some ranked.*1).
  { rewrite (take_at_Some res.*1 o 0) by (by rewrite length_fmap).
    f_equal. subst ranked. rewrite <- list_fmap_compose.
    apply list_fmap_ext. intros _ i _. cbn. change 0 with (d.1).
    apply map_nth. }
  destruct (map_each_fetch_fact ranked.*1 s Hh) as (out & Hrun & Hall).
  { intros id (e & -> & He)%list_elem_of_fmap. apply Hstore.
    apply list_elem_of_fmap. exists e. split; [done|].
    subst ranked. apply list_elem_of_fmap in He as (i & -> & Hi).
    apply list_elem_of_lookup. exists i.
    destruct (nth_lookup_or_length res i d) as [?|?]; [done|].
    apply Hin in Hi. lia. }
  exists ranked, rest, out. split; [|split; [|split; [|split; [|split]]]].
  - unfold retrieve_tail, bind, lift_outcome. rewrite Horder.
    rewrite (take_at_Some res.*2 o 0%R) by (by rewrite length_fmap).
    by rewrite Hids.
  - by apply Forall2_fmap_l in Hall.
  - by apply split_by_positions.
  - subst ranked. by rewrite length_map.
  - intros i j e1 e2 Hij H1 H2. subst ranked.
    rewrite list_lookup_fmap in H1, H2.
    destruct (o !! i) as [pi|] eqn:Hpi; [|done].
    destruct (o !! j) as [pj|] eqn:Hpj; [|done].
    cbn in H1, H2. injection H1 as <-. injection H2 as <-.
    rewrite <- !Hnth2. by eapply Hdesc.
  - intros e e' He He'. subst ranked rest.
    apply list_elem_of_fmap in He as (pi & -> & Hpi).
    apply list_elem_of_fmap in He' as (pj & -> & Hpj).
    subst others. apply list_elem_of_filter in Hpj as [Hnot Hseq].
    apply elem_of_seq in Hseq.
    rewrite <- !Hnth2. apply Hdom; [done|rewrite length_fmap; lia|done].
Qed.

(** C7. When no token of the query is in the vocabulary, [retrieve]
    returns the empty sequence at once, whatever [max_results] is: nothing
    is raised, and nothing is computed or cached. *)
Theorem retrieve_unknown_tokens_empty (s : Agent) (query : string)
  (max_results : Z) :
  (∀ t, t ∈ tokenize query -> all_tokens s !! t = None) ->
  retrieve tokenize argsort argpartition query max_results s = (Ok [], s).
Proof.
  intros Hnone. unfold retrieve, bind, get_state.
  replace (filter _ (tokenize query)) with (@nil string); [done|].
  symmetry. induction (tokenize query) as [|t l IH]; [done|].
  rewrite filter_cons_False.
  - apply IH. intros u Hu. apply Hnone. by apply list_elem_of_further.
  - rewrite (Hnone t (list_elem_of_here _ _)). by intros [? ?].
Qed.

(** C3, as the code has it: for [max_results >= 0].  Let [res] be the
    sparse score vector of the query (empty when no token of the query is
    known); its entries are the facts with a nonzero score.  With every
    such fact in the store, [retrieve] yields the texts of the entries
    [ranked], where [ranked] is taken from [res] and leaves [rest] behind;
    it has [min(len(res), max_results)] entries: all of them when there are
    at most [max_results], exactly [max_results] otherwise; its scores
    descend; and no entry left behind has a larger score than a yielded
    one. *)
Theorem retrieve_yields_top_scores (s : Agent) (query : string)
  (max_results : Z) (res : list (Z * R)) (s1 : Agent) :
  0 <= max_results ->
  let tokens :=
    filter (fun t => is_Some (all_tokens s !! t)) (tokenize query) in
  (tokens = [] ∧ res = [] ∧ s1 = s) ∨
  (tokens ≠ [] ∧ retrieve_scores tokens s = (Ok res, s1)) ->
  healthy (store s1) = true ->
  (∀ id, id ∈ res.*1 -> is_Some (rows (store s1) !! id)) ->
  (∀ e, e ∈ res -> e.2 ≠ 0%R) ∧
  ∃ ranked rest out,
    retrieve tokenize argsort argpartition query max_results s = (Ok out, s1) ∧
    Forall2 (fun e text => rows (store s1) !! e.1 = Some text) ranked out ∧
    Permutation res (ranked ++ rest) ∧
    Z.of_nat (length out) <= max_results ∧
    length ranked = Nat.min (length res) (Z.to_nat max_results) ∧
    (∀ i j e1 e2, (i <= j)%nat -> ranked !! i = Some e1 ->
       ranked !! j = Some e2 -> (e2.2 <= e1.2)%R) ∧
    (∀ e e', e ∈ ranked -> e' ∈ rest -> (e'.2 <= e.2)%R).
Proof.
  intros Hk tokens Hres Hh Hstore.
  destruct Hres as [(Htok & -> & ->)|(Htok & Hscores)].
  - split; [by intros e ?%elem_of_nil|].
    exists [], [], []. unfold retrieve, bind, get_state. fold tokens.
    rewrite Htok. cbn.
    split; [done|]. split; [constructor|]. split; [done|].
    split; [lia|]. split; [done|]. split.
    + intros i j e1 e2 _ H. by rewrite lookup_nil in H.
    + by intros e e' ?%elem_of_nil.
  - split; [by eapply retrieve_scores_nonzero|].
    destruct (retrieve_tail_top res max_results s1 Hk Hh Hstore)
      as (ranked & rest & out & Hrun & Hall & Hperm & Hlen & Hdesc & Hdom).
    exists ranked, rest, out.
    split.
    { unfold retrieve, bind at 1, get_state. fold tokens.
      destruct tokens as [|t l]; [done|].
      unfold bind. by rewrite Hscores. }
    split; [done|]. split; [done|]. split.
    { apply Forall2_length in Hall. lia. }
    done.
Qed.

End Retrieval.

(** * The sort instance meets both numpy contracts *)

#[local] Instance value_le_trans a : Transitive (value_le a).
Proof. intros i j k. unfold value_le. lra. Qed.

#[local] Instance value_le_total a : Total (value_le a).
Proof. intros i j. unfold value_le. lra. Qed.

Lemma StronglySorted_lookup_le {A} (Rel : relation A) `{!Reflexive Rel}
  (l : list A) :
  StronglySorted Rel l ->
  ∀ i j x y, (i <= j)%nat -> l !! i = Some x -> l !! j = Some y -> Rel x y.
Proof.
  induction 1 as [|z l Hl IH Hz]; intros i j x y Hij Hi Hj.
  - by rewrite lookup_nil in Hi.
  - destruct i as [|i], j as [|j]; cbn in Hi, Hj; try lia.
    + by injection Hi as <-; injection Hj as <-.
    + injection Hi as <-. rewrite Forall_forall in Hz. apply Hz.
      apply list_elem_of_lookup. eauto.
    + eapply (IH i j); [lia|done|done].
Qed.

#[local] Instance value_le_refl a : Reflexive (value_le a).
Proof. intros i. unfold value_le. lra. Qed.

Lemma sort_positions_sorted a i j pi pj :
  (i <= j)%nat ->
  sort_positions a !! i = Some pi -> sort_positions a !! j = Some pj ->
  (nth pi a 0 <= nth pj a 0)%R.
Proof.
  intros Hij Hi Hj.
  apply (StronglySorted_lookup_le (value_le a) (sort_positions a)
           (StronglySorted_merge_sort _ _) i j pi pj Hij Hi Hj).
Qed.

Lemma sort_positions_argsort : argsort_spec sort_positions.
Proof.
  intros a. split; [apply merge_sort_Permutation|].
  intros i j pi pj. apply sort_positions_sorted.
Qed.

Lemma sort_partition_argpartition : argpartition_spec sort_partition.
Proof.
  intros a kth _. split; [apply merge_sort_Permutation|].
  intros i j pi pj Hi Hj. apply sort_positions_sorted. lia.
Qed.

(** * The score vector, unfolded *)

Lemma map_each_token2id_present tokens wids s :
  Forall2 (fun t i => all_tokens s !! t = Some i) tokens wids ->
  map_each tokens (fun t => token2id (VStr t)) s = (Ok wids, s).
Proof.
  induction 1 as [|t i tokens wids Ht _ IH]; [done|].
  cbn [map_each]. unfold bind. rewrite (token2id_present s t i Ht).
  by rewrite IH.
Qed.

Lemma csr_matrix_shape data row col shape cm :
  csr_matrix data row col shape = Ok cm -> cm_shape cm = shape.
Proof.
  unfold csr_matrix.
  destruct (negb (_ && _)); [done|].
  destruct (mapM as_int data), (mapM as_int col); try done.
  destruct (negb _); [done|]. destruct (forallb _ _); [|done].
  by intros [= <-].
Qed.

(** [retrieve_scores] in a state without cached values: the count matrix
    and the weights are built from the buffers, and the result is the
    product of the query vector with the weight matrix. *)
Lemma retrieve_scores_fresh (s : Agent) (tokens : list string)
  (cm : CountMatrix) (wids : list Z) (Ns : list Z) :
  caches s = (None, None, None, None, None) ->
  csr_matrix (freq_freq s) (freq_token s) (freq_fact_id s) (shape_of s) = Ok cm ->
  (shape_of s).1 ≠ 1 ->
  Forall2 (fun t i => all_tokens s !! t = Some i) tokens wids ->
  mapM (np_index (doc_freq_vector cm)) (np_unique Z.compare wids).*1 = Some Ns ->
  let uc := np_unique Z.compare wids in
  let F := (cm_shape cm).2 in
  let W := {| wm_shape := cm_shape cm;
              wm_cells := weight_cells
                            (map (idf_value F) (doc_freq_vector cm))
                            (cm_cells cm) |} in
  let data := zip_with Rmult (map (fun c => ln (1 + IZR c)) uc.*2)
                (map (idf_value F) Ns) in
  retrieve_scores tokens s =
    (Ok (sparse_row_dot (zip uc.*1 data) (wm_cells W)),
     set_tfidfs (Some W)
       (set_doc_freqs (Some (doc_freq_vector cm))
          (set_count_matrix (Some cm)
             (set_num_docs (Some (shape_of s).2)
                (set_num_tokens (Some (shape_of s).1) s))))).
Proof.
  intros Hc Hcsr HT1 Htok HNs uc F W data.
  pose proof (csr_matrix_shape _ _ _ _ _ Hcsr) as Hshape.
  injection Hc as Htf Hcm Hdf Hnd Hnt.
  unfold retrieve_scores, bind at 1, compute_tfidf, bind at 1.
  rewrite (compute_count_matrix_fresh s cm Hcm Hcsr).
  set (sa := set_count_matrix _ _).
  rewrite (compute_tfidf_from_count_matrix_fresh cm sa).
  2:{ subst sa. by destruct s. }
  2:{ subst sa. by destruct s. }
  2:{ rewrite Hshape. unfold shape_of. rewrite Hnt. cbn. lia. }
  2:{ by rewrite Hshape. }
  fold F. fold W.
  set (sb := set_tfidfs _ _).
  unfold bind at 1.
  rewrite (map_each_token2id_present tokens wids sb).
  2:{ subst sb sa. by destruct s. }
  fold uc. unfold bind at 1, get_state.
  replace (doc_freqs sb) with (Some (doc_freq_vector cm))
    by (subst sb sa; by destruct s).
  rewrite is_0d_doc_freq_vector by (by rewrite Hshape).
  fold uc in HNs. rewrite HNs.
  unfold bind at 1, get_num_docs.
  replace (num_docs sb) with (Some (shape_of s).2)
    by (subst sb sa; by destruct s).
  unfold bind at 1, get_num_tokens.
  replace (num_tokens sb) with (Some (shape_of s).1)
    by (subst sb sa; by destruct s).
  unfold bind at 1.
  replace (tfidfs sb) with (Some W) by (subst sb sa; by destruct s).
  rewrite decide_True by (cbn; by rewrite Hshape).
  unfold ret. subst data F. by rewrite Hshape.
Qed.

(** * A run of [retrieve] on five facts *)

Lemma idf_value_pos F df :
  0 <= df -> 2 * df < F -> (0 < idf_value F df)%R.
Proof.
  intros Hdf HF. apply IZR_le in Hdf. apply IZR_lt in HF.
  rewrite mult_IZR in HF.
  assert (Hraw : (0 < ln ((IZR F - IZR df + 0.5) / (IZR df + 0.5)))%R).
  { rewrite <- ln_1. apply ln_increasing; [lra|].
    apply (Rmult_lt_reg_r (IZR df + 0.5)); [lra|].
    unfold Rdiv. rewrite Rmult_assoc, Rinv_l by lra. lra. }
  unfold idf_value. destruct (Rlt_dec _ 0); lra.
Qed.

Lemma ln_two_pos : (0 < ln (1 + IZR 1))%R.
Proof. rewrite <- ln_1 at 1. apply ln_increasing; lra. Qed.

Lemma five_facts_cells_cat f :
  cm_cells five_facts_matrix !! (0, f) =
    if decide (f = 0 ∨ f = 1) then Some 1 else None.
Proof.
  unfold five_facts_matrix. cbn [cm_cells].
  case_decide as Hf.
  - destruct Hf as [-> | ->]; [by rewrite lookup_insert_eq|].
    rewrite lookup_insert_ne by done. by rewrite lookup_insert_eq.
  - rewrite !lookup_insert_ne; [done|intros H; inversion H; lia..].
Qed.

Lemma five_facts_weights_cat f :
  weight_cells [idf_value 5 2; idf_value 5 3] (cm_cells five_facts_matrix)
    !! (0, f) =
    if decide (f = 0 ∨ f = 1) then Some (idf_value 5 2 * ln (1 + IZR 1))%R
    else None.
Proof.
  unfold weight_cells. rewrite map_lookup_imap, five_facts_cells_cat.
  case_decide; [|done]. cbn [option_bind mbind].
  change (nth (Z.to_nat (0, f).1) [idf_value 5 2; idf_value 5 3] 0%R)
    with (idf_value 5 2).
  destruct (Req_dec_T _ 0) as [Hz|_]; [|done].
  pose proof (idf_value_pos 5 2 ltac:(lia) ltac:(lia)).
  pose proof ln_two_pos. nra.
Qed.

Lemma five_facts_cat_columns d :
  touched_columns [(0, d)]
    (weight_cells [idf_value 5 2; idf_value 5 3] (cm_cells five_facts_matrix))
  ≡ₚ [0; 1].
Proof.
  apply NoDup_Permutation.
  - apply NoDup_elements.
  - apply NoDup_cons. split; [|apply NoDup_singleton].
    by intros [=]%list_elem_of_singleton.
  - intros f. unfold touched_columns.
    rewrite elem_of_elements, elem_of_map. split.
    + intros ([t f'] & -> & [Ht Hk]%elem_of_filter). cbn in *.
      apply list_elem_of_singleton in Ht. subst t.
      apply elem_of_dom in Hk. rewrite five_facts_weights_cat in Hk.
      case_decide as Hf; [|by destruct Hk].
      destruct Hf as [-> | ->]; [apply list_elem_of_here|].
      apply list_elem_of_further, list_elem_of_here.
    + intros Hf. exists (0, f). split; [done|].
      assert (Hf' : f = 0 ∨ f = 1).
      { apply elem_of_cons in Hf as [?|Hf]; [by left|].
        apply list_elem_of_singleton in Hf. by right. }
      apply elem_of_filter. split; [apply list_elem_of_here|].
      apply elem_of_dom. rewrite five_facts_weights_cat.
      by rewrite decide_True.
Qed.

Lemma five_facts_cat_scores d :
  d ≠ 0%R ->
  ∃ v, sparse_row_dot [(0, d)]
         (weight_cells [idf_value 5 2; idf_value 5 3]
            (cm_cells five_facts_matrix))
       ≡ₚ [(0, v); (1, v)].
Proof.
  intros Hd.
  set (W := weight_cells _ _).
  set (v := (d * (idf_value 5 2 * ln (1 + IZR 1)) + 0)%R).
  assert (Hv : v ≠ 0%R).
  { assert (0 < idf_value 5 2 * ln (1 + IZR 1))%R.
    { apply Rmult_lt_0_compat; [|apply ln_two_pos].
      apply idf_value_pos; lia. }
    subst v. rewrite Rplus_0_r.
    apply Rmult_integral_contrapositive_currified; [done|lra]. }
  assert (Hscore : ∀ f, f = 0 ∨ f = 1 -> column_score [(0, d)] W f = v).
  { intros f Hf. unfold column_score. cbn. subst W.
    rewrite five_facts_weights_cat, decide_True by done. done. }
  exists v. unfold sparse_row_dot. subst W.
  rewrite (five_facts_cat_columns d).
  cbn [omap list_omap]. rewrite !Hscore by auto.
  by destruct (Req_dec_T v 0).
Qed.

Lemma five_facts_cat_retrieve_scores :
  retrieve_scores ["cat"] five_facts_agent
    = (Ok five_facts_cat_res, five_facts_cat_state).
Proof.
  rewrite (retrieve_scores_fresh five_facts_agent ["cat"] five_facts_matrix
             [0] [2]).
  - cbv zeta.
    replace (np_unique Z.compare [0]) with [(0, 1)]
      by (vm_compute; reflexivity).
    replace (doc_freq_vector five_facts_matrix) with [2; 3]
      by (vm_compute; reflexivity).
    replace (shape_of five_facts_agent) with (2, 5)
      by (vm_compute; reflexivity).
    reflexivity.
  - vm_compute. reflexivity.
  - vm_compute. reflexivity.
  - vm_compute. discriminate.
  - constructor; [|constructor]. vm_compute. reflexivity.
  - vm_compute. reflexivity.
Qed.

Lemma five_facts_cat_res_entries :
  ∃ v, five_facts_cat_res ≡ₚ [(0, v); (1, v)].
Proof.
  unfold five_facts_cat_res, five_facts_weights. cbn [wm_cells].
  apply five_facts_cat_scores.
  assert (0 < ln (1 + IZR 1) * idf_value 5 2)%R; [|lra].
  apply Rmult_lt_0_compat; [apply ln_two_pos|]. apply idf_value_pos; lia.
Qed.

Lemma five_facts_cat_in_store id :
  id ∈ five_facts_cat_res.*1 ->
  is_Some (rows (store five_facts_cat_state) !! id).
Proof.
  destruct five_facts_cat_res_entries as [v Hv]. rewrite Hv.
  change (rows (store five_facts_cat_state))
    with (rows (store five_facts_agent)).
  intros Hid. rewrite !fmap_cons in Hid. cbn [fst fmap list_fmap] in Hid.
  apply elem_of_cons in Hid as [->|Hid]; [vm_compute; by eexists|].
  apply list_elem_of_singleton in Hid as ->. vm_compute; by eexists.
Qed.

Section NegativeMaxResults.

Variable argsort : list R -> list nat.
Variable argpartition : list R -> nat -> list nat.
Hypothesis argsort_ok : argsort_spec argsort.
Hypothesis argpartition_ok : argpartition_spec argpartition.

(** With a negative [max_results] that does not exceed the number of
    scores in size, the slice [o[0:max_results]] keeps all but the last
    [-max_results] positions. *)
Lemma retrieve_order_negative (data : list R) (k : Z) :
  k < 0 -> 0 <= Z.of_nat (length data) + k ->
  ∃ o, retrieve_order argsort argpartition data k = Ok o ∧
       length o = Z.to_nat (Z.of_nat (length data) + k) ∧
       ∀ i, i ∈ o -> (i < length data)%nat.
Proof.
  intros Hk Hn. unfold retrieve_order, np_argpartition.
  rewrite (proj2 (Z.leb_gt _ _)) by lia.
  rewrite length_map.
  rewrite (proj2 (Z.eqb_neq _ _)) by lia.
  rewrite (proj2 (Z.ltb_lt _ _)) by lia.
  rewrite (proj2 (Z.leb_le _ _)) by lia.
  rewrite (proj2 (Z.ltb_lt _ _)) by lia. cbn [andb].
  set (neg := map Ropp data).
  set (p := argpartition neg _).
  destruct (argpartition_ok neg (Z.to_nat (k + Z.of_nat (length data))))
    as [Hperm _].
  { subst neg. rewrite length_map. lia. }
  fold p in Hperm. subst neg. rewrite length_map in Hperm.
  destruct (positions_of_permutation _ _ Hperm) as (Hnd & Hlen & Hmem).
  unfold slice_to. rewrite (proj2 (Z.leb_gt _ _)) by lia.
  set (o := take _ p).
  assert (Ho_len : length o = Z.to_nat (Z.of_nat (length data) + k)).
  { subst o. rewrite length_take. lia. }
  assert (Ho_in : ∀ i, i ∈ o -> (i < length data)%nat).
  { intros i Hi. apply Hmem. subst o.
    apply elem_of_take in Hi as (a & Ha & _).
    apply list_elem_of_lookup. eauto. }
  rewrite (take_at_Some data o 0%R Ho_in).
  set (sub := map (fun i => nth i data 0%R) o).
  set (q := argsort (map Ropp sub)).
  destruct (argsort_ok (map Ropp sub)) as [Hqperm _].
  fold q in Hqperm.
  rewrite length_map in Hqperm. subst sub. rewrite length_map in Hqperm.
  destruct (positions_of_permutation _ _ Hqperm) as (Hqnd & Hqlen & Hqmem).
  rewrite (take_at_Some o q 0%nat) by (by intros i ?%Hqmem).
  eexists. split; [done|]. split.
  - rewrite length_map. lia.
  - intros i (j & -> & Hj)%list_elem_of_fmap. apply Ho_in.
    apply list_elem_of_lookup. exists j.
    destruct (nth_lookup_or_length o j 0%nat) as [?|?]; [done|].
    apply Hqmem in Hj. lia.
Qed.

Lemma retrieve_tail_negative (res : list (Z * R)) (k : Z) (s : Agent) :
  k < 0 -> 0 <= Z.of_nat (length res) + k ->
  healthy (store s) = true ->
  (∀ id, id ∈ res.*1 -> is_Some (rows (store s) !! id)) ->
  ∃ out, retrieve_tail argsort argpartition res k s = (Ok out, s) ∧
         length out = Z.to_nat (Z.of_nat (length res) + k).
Proof.
  intros Hk Hn Hh Hstore.
  destruct (retrieve_order_negative res.*2 k Hk) as (o & Horder & Hlen & Hin).
  { by rewrite length_fmap. }
  rewrite length_fmap in Hlen, Hin.
  unfold retrieve_tail, bind, lift_outcome. rewrite Horder.
  rewrite (take_at_Some res.*2 o 0%R) by (by rewrite length_fmap).
  rewrite (take_at_Some res.*1 o 0) by (by rewrite length_fmap).
  destruct (map_each_fetch_fact (map (fun i => nth i res.*1 0) o) s Hh)
    as (out & Hrun & Hall).
  { intros id (i & -> & Hi)%list_elem_of_fmap. apply Hstore.
    apply list_elem_of_lookup. exists i.
    destruct (nth_lookup_or_length res.*1 i 0) as [?|Hge]; [done|].
    rewrite length_fmap in Hge. apply Hin in Hi. lia. }
  exists out. split; [done|].
  apply Forall2_length in Hall. rewrite length_map in Hall. lia.
Qed.

End NegativeMaxResults.

(** C3, as the claim has it, fails for a negative [max_results]: on the
    five facts, [retrieve("cat", -1)] finds two facts with a nonzero score
    and yields one of them, which is more than [max_results]. *)
Lemma retrieve_negative_max_results_yields :
  results_count
    (retrieve blank_tokenize sort_positions sort_partition "cat" (-1)
       five_facts_agent).1
  = Some 1%nat ∧
  ¬ (Z.of_nat 1 <= -1).
Proof.
  split; [|lia].
  unfold retrieve, bind at 1, get_state.
  replace (filter _ (blank_tokenize "cat")) with ["cat"]
    by (vm_compute; reflexivity).
  unfold bind. rewrite five_facts_cat_retrieve_scores.
  destruct five_facts_cat_res_entries as [v Hv].
  destruct (retrieve_tail_negative sort_positions sort_partition
              sort_positions_argsort sort_partition_argpartition
              five_facts_cat_res (-1) five_facts_cat_state)
    as (out & Hrun & Hlen).
  - lia.
  - rewrite Hv. cbn. lia.
  - reflexivity.
  - apply five_facts_cat_in_store.
  - rewrite Hrun. cbn. rewrite Hlen, Hv. reflexivity.
Qed.

(** * The theorems at concrete inputs *)

Lemma compute_count_matrix_sums_duplicates_witness :
  ∃ m s', _compute_count_matrix duplicate_agent = (Ok m, s') ∧
          cell m 0 0 = 5 ∧ cell m 1 0 = 1 ∧
          cm_cells m !! (1, 1) = None.
Proof.
  destruct (compute_count_matrix_sums_duplicates duplicate_agent
              duplicate_triples)
    as (m & s' & Hrun & _ & _ & Hcells).
  - reflexivity.
  - reflexivity.
  - reflexivity.
  - reflexivity.
  - vm_compute. discriminate.
  - vm_compute. discriminate.
  - apply (bool_decide_unpack _). vm_compute. exact I.
  - apply (bool_decide_unpack _). vm_compute. exact I.
  - exists m, s'. split; [exact Hrun|].
    destruct (Hcells 0 0) as (H00 & _ & _).
    destruct (Hcells 1 0) as (H10 & _ & _).
    destruct (Hcells 1 1) as (_ & H11 & _).
    split; [rewrite H00; reflexivity|].
    split; [rewrite H10; reflexivity|].
    apply H11. apply (bool_decide_unpack _). vm_compute. exact I.
Defined.

Lemma idf_is_clamped_log_witness :
  doc_freq_vector five_facts_matrix !! 0%nat = Some 2 ∧
  (0 <= idf_value 5 2)%R.
Proof.
  destruct (idf_is_clamped_log five_facts_matrix 0 init_agent)
    as (_ & Hdf & _ & Hnn & _).
  - cbn. lia.
  - cbn. lia.
  - apply (bool_decide_unpack
             (map_Forall (fun k _ => 0 <= k.2 < 5)
                (cm_cells five_facts_matrix))).
    vm_compute. exact I.
  - reflexivity.
  - reflexivity.
  - split; [exact Hdf|exact Hnn].
Defined.

Lemma process_act_insert_failure_witness :
  ∃ s', process_act blank_tokenize "cat" broken_store_agent
          = (Raise DatabaseError, s') ∧
        freq_token s' = [] ∧ all_tokens s' = ∅ ∧ db_lock s' = false.
Proof.
  destruct (process_act_insert_failure blank_tokenize broken_store_agent "cat")
    as [(s' & Hrun & Ht & _ & _ & Hv & _ & Hl) _].
  - reflexivity.
  - left. reflexivity.
  - exists s'. split; [exact Hrun|]. split; [exact Ht|].
    split; [exact Hv|exact Hl].
Defined.

Lemma process_data_protocol_violation_witness :
  (_process_data 0 untranslated_triple_agent).1 = Raise KeyError ∧
  (process_child_data 5 untranslated_triple_agent).1 = Raise KeyError.
Proof.
  destruct (process_data_protocol_violation untranslated_triple_agent 0%nat
              (PTuple [VInt 7; VInt 0; VInt 1]) [PStr END_OF_DATA] ∅)
    as [Htriple _].
  - reflexivity.
  - reflexivity.
  - reflexivity.
  - discriminate.
  - destruct (Htriple (VInt 7) (VInt 0) (VInt 1)) as [Hstep Hloop].
    + reflexivity.
    + reflexivity.
    + split; [by rewrite Hstep|].
      rewrite (Hloop untranslated_triple_agent 4%nat); [done| | |].
      * cbn. lia.
      * cbn. lia.
      * reflexivity.
Defined.

Lemma retrieve_unknown_tokens_empty_witness :
  retrieve blank_tokenize sort_positions sort_partition "zzzqqq" 100
    five_facts_agent
  = (Ok [], five_facts_agent).
Proof.
  apply retrieve_unknown_tokens_empty.
  intros t Ht.
  replace (blank_tokenize "zzzqqq") with ["zzzqqq"] in Ht
    by (vm_compute; reflexivity).
  apply list_elem_of_singleton in Ht. subst t. vm_compute. reflexivity.
Defined.


Lemma retrieve_yields_top_scores_witness :
  ∃ out,
    retrieve blank_tokenize sort_positions sort_partition "cat" 1
      five_facts_agent
    = (Ok out, five_facts_cat_state) ∧
    length out = 1%nat.
Proof.
  destruct five_facts_cat_res_entries as [v Hv].
  destruct (retrieve_yields_top_scores blank_tokenize sort_positions
              sort_partition sort_positions_argsort
              sort_partition_argpartition
              five_facts_agent "cat" 1 five_facts_cat_res
              five_facts_cat_state)
    as (_ & ranked & rest & out & Hrun & Hall & _ & _ & Hlen & _).
  - lia.
  - right.
    replace (filter _ (blank_tokenize "cat")) with ["cat"]
      by (vm_compute; reflexivity).
    split; [discriminate|]. apply five_facts_cat_retrieve_scores.
  - reflexivity.
  - apply five_facts_cat_in_store.
  - exists out. split; [exact Hrun|].
    apply Forall2_length in Hall. rewrite <- Hall, Hlen, Hv. reflexivity.
Defined.

(** * More of the agent: what [np_unique] returns *)

Section Unique.

Context {A : Type} `{EqDecision A} (cmp : A -> A -> comparison)
  `{!CmpOrder cmp}.

Lemma cmp_lt_neq x y : cmp x y = Lt -> x ≠ y.
Proof. intros H ->. rewrite cmp_refl in H. discriminate. Qed.

Lemma count_for_cons x e (l : list (A * Z)) :
  count_for x (e :: l) = (if decide (e.1 = x) then e.2 else 0) + count_for x l.
Proof.
  unfold count_for. rewrite filter_cons.
  destruct (decide (e.1 = x)); [rewrite fmap_cons; cbn [foldr]|]; lia.
Qed.

Lemma count_for_notin x (l : list (A * Z)) : x ∉ l.*1 -> count_for x l = 0.
Proof.
  induction l as [|e l IH]; [done|].
  rewrite fmap_cons, not_elem_of_cons. intros [Hne Hnotin].
  rewrite count_for_cons, IH by done.
  by rewrite decide_False by congruence.
Qed.

Lemma unique_insert_spec x (l : list (A * Z)) :
  StronglySorted (fun a b => cmp a b = Lt) l.*1 ->
  StronglySorted (fun a b => cmp a b = Lt) (unique_insert cmp x l).*1 ∧
  (∀ y, y ∈ (unique_insert cmp x l).*1 ↔ y = x ∨ y ∈ l.*1) ∧
  ∀ y, count_for y (unique_insert cmp x l)
       = count_for y l + (if decide (x = y) then 1 else 0).
Proof.
  induction l as [|[z c] l IH]; intros Hs.
  - cbn [unique_insert]. split; [repeat constructor|]. split.
    + intros y. cbn. rewrite list_elem_of_singleton, elem_of_nil. tauto.
    + intros y. rewrite count_for_cons. cbn [fst snd].
      unfold count_for. cbn. case_decide; lia.
  - rewrite fmap_cons in Hs. apply StronglySorted_inv in Hs as [Hs Hz].
    cbn [unique_insert]. destruct (cmp x z) eqn:Hc.
    + apply cmp_eq in Hc as ->. rewrite !fmap_cons. cbn [fst].
      split; [by constructor|]. split.
      * intros y. rewrite elem_of_cons. tauto.
      * intros y. rewrite !count_for_cons. cbn. case_decide; lia.
    + rewrite !fmap_cons. cbn [fst]. split; [|split].
      * constructor; [by constructor|].
        constructor; [done|]. rewrite Forall_forall in Hz |- *.
        intros w Hw. eapply cmp_lt_trans; [exact Hc|]. by apply Hz.
      * intros y. rewrite !elem_of_cons. tauto.
      * intros y. rewrite !count_for_cons. cbn. repeat case_decide; lia.
    + destruct (IH Hs) as (Hs' & Hin' & Hc').
      rewrite !fmap_cons. cbn [fst]. split; [|split].
      * constructor; [done|]. rewrite Forall_forall in Hz |- *.
        intros w [->|Hw]%Hin'; [by apply cmp_gt_lt|by apply Hz].
      * intros y. rewrite !elem_of_cons, Hin'. tauto.
      * intros y. rewrite !count_for_cons, Hc'. lia.
Qed.

Lemma np_unique_spec (l : list A) :
  StronglySorted (fun a b => cmp a b = Lt) (np_unique cmp l).*1 ∧
  (∀ y, y ∈ (np_unique cmp l).*1 ↔ y ∈ l) ∧
  ∀ y, count_for y (np_unique cmp l) = occurrences y l.
Proof.
  unfold np_unique.
  assert (H : ∀ acc,
    StronglySorted (fun a b => cmp a b = Lt) acc.*1 ->
    let r := fold_left (fun acc x => unique_insert cmp x acc) l acc in
    StronglySorted (fun a b => cmp a b = Lt) r.*1 ∧
    (∀ y, y ∈ r.*1 ↔ y ∈ l ∨ y ∈ acc.*1) ∧
    ∀ y, count_for y r = count_for y acc + occurrences y l).
  { induction l as [|x l IH]; intros acc Hs; cbv zeta; cbn [fold_left].
    - split; [done|]. split.
      + intros y. rewrite elem_of_nil. tauto.
      + intros y. unfold occurrences. cbn. lia.
    - destruct (unique_insert_spec x acc Hs) as (Hs1 & Hin1 & Hc1).
      destruct (IH _ Hs1) as (Hs2 & Hin2 & Hc2).
      split; [done|]. split.
      + intros y. rewrite Hin2, Hin1, elem_of_cons. tauto.
      + intros y. rewrite Hc2, Hc1. unfold occurrences.
        rewrite filter_cons. repeat case_decide; cbn [length];
          try lia; congruence. }
  destruct (H [] ltac:(constructor)) as (Hs & Hin & Hc).
  split; [done|]. split.
  - intros y. rewrite Hin. cbn. rewrite elem_of_nil. tauto.
  - intros y. rewrite Hc. unfold count_for. cbn. lia.
Qed.

Lemma strictly_sorted_NoDup (l : list A) :
  StronglySorted (fun a b => cmp a b = Lt) l -> NoDup l.
Proof.
  induction 1 as [|x l Hs IH Hx]; constructor; [|done].
  intros Hin. rewrite Forall_forall in Hx.
  by apply (cmp_lt_neq x x (Hx x Hin)).
Qed.

End Unique.

Lemma string_compare_refl (x : string) : String.compare x x = Eq.
Proof.
  induction x as [|a x IH]; [done|]. cbn.
  unfold Ascii.compare. by rewrite N.compare_refl.
Qed.

Lemma string_compare_lt_trans (x y z : string) :
  String.compare x y = Lt -> String.compare y z = Lt ->
  String.compare x z = Lt.
Proof.
  revert y z. induction x as [|a x IH]; intros [|b y] [|c z]; cbn; try done.
  destruct (Ascii.compare a b) eqn:Hab; [| |done];
    destruct (Ascii.compare b c) eqn:Hbc; try done.
  - apply Ascii.compare_eq_iff in Hab, Hbc. subst.
    unfold Ascii.compare. rewrite N.compare_refl. apply IH.
  - apply Ascii.compare_eq_iff in Hab. subst. by rewrite Hbc.
  - apply Ascii.compare_eq_iff in Hbc. subst. by rewrite Hab.
  - unfold Ascii.compare in *.
    apply N.compare_lt_iff in Hab, Hbc.
    assert (H : (N_of_ascii a < N_of_ascii c)%N)
      by (by eapply N.lt_trans).
    apply N.compare_lt_iff in H. by rewrite H.
Qed.

#[global] Instance string_compare_order : CmpOrder String.compare.
Proof.
  split.
  - apply String.compare_eq_iff.
  - apply string_compare_refl.
  - intros x y H. by rewrite String.compare_antisym, H.
  - apply string_compare_lt_trans.
Qed.

#[global] Instance Z_compare_order : CmpOrder Z.compare.
Proof.
  split.
  - intros x y. apply Z.compare_eq.
  - apply Z.compare_refl.
  - intros x y H. apply Z.compare_gt_iff in H. by apply Z.compare_lt_iff.
  - intros x y z H1 H2. change (x < y) in H1. change (y < z) in H2.
    change (x < z). lia.
Qed.

(** * More of the agent: ingestion *)

Lemma same_outside_index_refl s : same_outside_index s s.
Proof. by repeat split. Qed.

Lemma same_outside_index_trans s1 s2 s3 :
  same_outside_index s1 s2 -> same_outside_index s2 s3 ->
  same_outside_index s1 s3.
Proof.
  unfold same_outside_index. intros H1 H2.
  destruct H1 as (?&?&?&?&?&?&?&?&?&?&?), H2 as (?&?&?&?&?&?&?&?&?&?&?).
  repeat split; congruence.
Qed.

Lemma token2id_str_spec t s :
  ∃ i s', token2id (VStr t) s = (Ok i, s') ∧
          all_tokens s' !! t = Some i ∧
          all_tokens s ⊆ all_tokens s' ∧
          (∀ acc, enumerates (all_tokens s) acc ->
                  enumerates (all_tokens s')
                    (if decide (t ∈ acc) then acc else acc ++ [t])) ∧
          freq_token s' = freq_token s ∧ freq_fact_id s' = freq_fact_id s ∧
          freq_freq s' = freq_freq s ∧ same_outside_index s s'.
Proof.
  destruct (all_tokens s !! t) as [i|] eqn:Ht.
  - exists i, s. rewrite (token2id_present s t i Ht).
    split; [done|]. split; [done|]. split; [done|]. split.
    + intros acc Hen. rewrite decide_True; [done|].
      apply (enumerates_elem _ _ _ Hen). eauto.
    + by repeat split.
  - eexists _, _. rewrite (token2id_absent s t Ht).
    split; [done|]. cbn. split; [by rewrite lookup_insert_eq|].
    split; [by apply insert_subseteq|]. split.
    + intros acc Hen. rewrite decide_False.
      * by apply enumerates_insert.
      * rewrite (enumerates_elem _ _ t Hen), Ht. by intros [? ?].
    + by repeat split.
Qed.

Lemma for_each_new_freq_spec fid (unique : list (string * Z)) : ∀ s,
  ∃ s' ids,
    for_each unique
      (fun tc : string * Z => new_freq (VStr tc.1) (VInt fid) (VInt tc.2)) s
      = (Ok tt, s') ∧
    Forall2 (fun tc i => all_tokens s' !! tc.1 = Some i) unique ids ∧
    all_tokens s ⊆ all_tokens s' ∧
    (∀ acc, enumerates (all_tokens s) acc ->
            enumerates (all_tokens s') (first_seen_from acc unique.*1)) ∧
    (∀ t, is_Some (all_tokens s' !! t) ->
          is_Some (all_tokens s !! t) ∨ t ∈ unique.*1) ∧
    freq_token s' = freq_token s ++ ids ∧
    freq_fact_id s' = freq_fact_id s ++ replicate (length unique) (VInt fid) ∧
    freq_freq s' = freq_freq s ++ (VInt <$> unique.*2) ∧
    same_outside_index s s'.
Proof.
  induction unique as [|[t c] unique IH]; intros s.
  - exists s, []. cbn. rewrite !app_nil_r.
    split; [done|]. split; [constructor|]. split; [done|].
    split; [done|]. split; [by left|].
    split; [done|]. split; [done|]. split; [done|].
    apply same_outside_index_refl.
  - destruct (token2id_str_spec t s)
      as (i & s1 & Hid & Hi & Hsub1 & Hen1 & Hft & Hff & Hfq & Hsame1).
    set (s2 := set_freqs (freq_token s1 ++ [i]) (freq_fact_id s1 ++ [VInt fid])
                 (freq_freq s1 ++ [VInt c]) s1).
    destruct (IH s2)
      as (s' & ids & Hrun & Hall & Hsub2 & Hen2 & Hdom2 & Ht' & Hf' & Hq'
          & Hsame2).
    exists s', (i :: ids). split; [|split; [|split; [|split; [|split]]]].
    + cbn [for_each fst snd]. unfold bind at 1, new_freq, bind at 1.
      rewrite Hid. unfold modify. exact Hrun.
    + constructor; [|done]. cbn. eapply lookup_weaken; [exact Hi|exact Hsub2].
    + etrans; [exact Hsub1|exact Hsub2].
    + intros acc Hen. rewrite fmap_cons. cbn [fst].
      change (first_seen_from acc (t :: unique.*1))
        with (first_seen_from (if decide (t ∈ acc) then acc else acc ++ [t])
                unique.*1).
      apply Hen2. cbn. by apply Hen1.
    + intros u Hu. destruct (Hdom2 u Hu) as [Hu2|Hu2].
      * cbn in Hu2. rewrite fmap_cons. cbn [fst].
        destruct (decide (u = t)) as [->|Hne];
          [right; apply list_elem_of_here|].
        left. destruct Hu2 as [j Hj].
        destruct (all_tokens s !! u) as [k|] eqn:Hk; [by eexists|].
        exfalso.
        unfold token2id in Hid.
        destruct (decide (all_tokens s !! t = None)) as [Hn|Hn].
        -- cbn in Hid. rewrite lookup_insert_eq in Hid.
           injection Hid as <- <-. cbn in Hj.
           rewrite lookup_insert_ne in Hj by done. congruence.
        -- destruct (all_tokens s !! t); [|done].
           injection Hid as <- <-. congruence.
      * right. rewrite fmap_cons. by apply list_elem_of_further.
    + rewrite Ht', Hf', Hq'. cbn. rewrite Hft, Hff, Hfq.
      rewrite <- !app_assoc. cbn.
      split; [done|]. split; [done|]. split; [done|].
      eapply same_outside_index_trans; [exact Hsame1|].
      eapply same_outside_index_trans; [|exact Hsame2].
      by repeat split.
Qed.

Lemma enumerates_inj v acc t1 t2 g :
  enumerates v acc -> v !! t1 = Some g -> v !! t2 = Some g -> t1 = t2.
Proof.
  intros (_ & _ & H) H1 H2.
  apply H in H1 as (n1 & -> & Hn1). apply H in H2 as (n2 & Heq & Hn2).
  apply Nat2Z.inj in Heq. subst. congruence.
Qed.

Lemma enumerates_range v acc t g :
  enumerates v acc -> v !! t = Some g -> 0 <= g < Z.of_nat (size v).
Proof.
  intros (_ & Hsz & H) H1. apply H in H1 as (n & -> & Hn).
  apply lookup_lt_Some in Hn. lia.
Qed.

Lemma enumerates_surj v acc g :
  enumerates v acc -> 0 <= g < Z.of_nat (size v) -> ∃ t, v !! t = Some g.
Proof.
  intros (_ & Hsz & H) Hg.
  destruct (lookup_lt_is_Some_2 acc (Z.to_nat g)) as [t Ht]; [lia|].
  exists t. apply H. exists (Z.to_nat g). split; [lia|done].
Qed.

Lemma cell_sum_app l1 l2 k :
  cell_sum (l1 ++ l2) k = cell_sum l1 k + cell_sum l2 k.
Proof.
  induction l1 as [|e l1 IH].
  - cbn [app]. change (cell_sum [] k) with 0. lia.
  - cbn [app]. rewrite !cell_sum_cons, IH. lia.
Qed.

Lemma c_int_small z : - 2 ^ 31 <= z < 2 ^ 31 -> c_int z = z.
Proof. intros Hz. unfold c_int. rewrite Z.mod_small; lia. Qed.

Lemma insert_fact_without_id_ok fact s :
  db_lock s = false -> healthy (store s) = true ->
  rows (store s) !! fact_id s = None ->
  insert_fact_without_id fact s =
    (Ok (fact_id s),
     set_db_lock false
       (set_store {| rows := <[fact_id s := fact]> (rows (store s));
                     healthy := true |}
          (set_db_lock true (set_fact_id (c_int (fact_id s + 1)) s)))).
Proof.
  intros Hlock Hh Hrow. destruct s. cbn in *. subst.
  unfold insert_fact_without_id, bind, new_fact_id, with_db_lock,
    execute_insert, ret. cbn. rewrite Hh. cbn.
  rewrite decide_False; [done|]. rewrite Hrow. by intros [? ?].
Qed.

(** The triples that one fact adds: one per distinct token. *)
Lemma cell_sum_new_triples (v : gmap string Z) acc n
  (unique : list (string * Z)) (ids : list Z) t g i :
  enumerates v acc ->
  Forall2 (fun tc j => v !! tc.1 = Some j) unique ids ->
  v !! t = Some g ->
  cell_sum ((fun jc : Z * Z => (jc.1, n, jc.2)) <$> zip ids unique.*2) (g, i)
    = if decide (i = n) then count_for t unique else 0.
Proof.
  intros Hen Hall Ht. induction Hall as [|[u c] j unique ids Hu _ IH].
  - cbn. case_decide; done.
  - cbn [fmap list_fmap zip zip_with fst snd].
    rewrite cell_sum_cons, count_for_cons, IH. cbn [fst snd] in *.
    destruct (decide (i = n)) as [->|Hne].
    + destruct (decide (u = t)) as [->|Hut].
      * assert (j = g) by congruence. subst. rewrite decide_True by done. lia.
      * rewrite decide_False; [lia|]. intros [= -> ].
        apply Hut. by eapply enumerates_inj.
    + rewrite decide_False; [lia|]. congruence.
Qed.

Lemma process_act_ok tokenize fact s :
  db_lock s = false -> healthy (store s) = true ->
  rows (store s) !! fact_id s = None ->
  let unique := np_unique String.compare (tokenize fact) in
  ∃ s' ids,
    process_act tokenize fact s = (Ok tt, s') ∧
    store s' = {| rows := <[fact_id s := fact]> (rows (store s));
                  healthy := true |} ∧
    fact_id s' = c_int (fact_id s + 1) ∧ db_lock s' = false ∧
    cnt s' = cnt s ∧ caches s' = caches s ∧
    Forall2 (fun tc i => all_tokens s' !! tc.1 = Some i) unique ids ∧
    all_tokens s ⊆ all_tokens s' ∧
    (∀ acc, enumerates (all_tokens s) acc ->
            enumerates (all_tokens s') (first_seen_from acc unique.*1)) ∧
    (∀ t, is_Some (all_tokens s' !! t) ->
          is_Some (all_tokens s !! t) ∨ t ∈ unique.*1) ∧
    freq_token s' = freq_token s ++ ids ∧
    freq_fact_id s' =
      freq_fact_id s ++ replicate (length unique) (VInt (fact_id s)) ∧
    freq_freq s' = freq_freq s ++ (VInt <$> unique.*2).
Proof.
  intros Hlock Hh Hrow unique.
  unfold process_act, bind.
  rewrite (insert_fact_without_id_ok fact s Hlock Hh Hrow).
  set (s1 := set_db_lock false _).
  destruct (for_each_new_freq_spec (fact_id s) unique s1)
    as (s' & ids & Hrun & Hall & Hsub & Hen & Hdom & Ht & Hf & Hq & Hsame).
  destruct Hsame as (Hc & Hfid & Hlk & Hst & Hca & _).
  exists s', ids. fold unique. rewrite Hrun.
  split; [done|]. split; [by rewrite Hst|]. split; [by rewrite Hfid|].
  split; [by rewrite Hlk|]. split; [by rewrite Hc|].
  split; [rewrite Hca; by destruct s|].
  split; [done|]. split; [done|]. split; [done|]. split; [done|].
  by rewrite Ht, Hf, Hq.
Qed.

(** X1. On a free lock and a store that accepts the row, [process_act]
    stores the text under the id it allocated and appends one triple for
    every distinct token of the fact, in ascending token order: the
    token's id, the fact id and the number of occurrences of the token in
    the fact.  Ids already in the vocabulary are kept. *)
Theorem process_act_records_fact (tokenize : string -> list string)
  (s : Agent) (fact : string) :
  db_lock s = false -> healthy (store s) = true ->
  rows (store s) !! fact_id s = None ->
  let unique := np_unique String.compare (tokenize fact) in
  ∃ s' ids,
    process_act tokenize fact s = (Ok tt, s') ∧
    rows (store s') = <[fact_id s := fact]> (rows (store s)) ∧
    fact_id s' = c_int (fact_id s + 1) ∧ db_lock s' = false ∧
    NoDup unique.*1 ∧
    (∀ t, t ∈ unique.*1 ↔ t ∈ tokenize fact) ∧
    (∀ t, count_for t unique = occurrences t (tokenize fact)) ∧
    Forall2 (fun tc i => all_tokens s' !! tc.1 = Some i) unique ids ∧
    all_tokens s ⊆ all_tokens s' ∧
    freq_token s' = freq_token s ++ ids ∧
    freq_fact_id s' =
      freq_fact_id s ++ replicate (length unique) (VInt (fact_id s)) ∧
    freq_freq s' = freq_freq s ++ (VInt <$> unique.*2).
Proof.
  intros Hlock Hh Hrow unique.
  destruct (process_act_ok tokenize fact s Hlock Hh Hrow)
    as (s' & ids & Hrun & Hst & Hfid & Hlk & _ & _ & Hall & Hsub & _ & _
        & Ht & Hf & Hq).
  destruct (np_unique_spec String.compare (tokenize fact))
    as (Hsorted & Hmem & Hcount).
  exists s', ids. split; [done|]. split; [by rewrite Hst|].
  split; [done|]. split; [done|].
  split; [exact (strictly_sorted_NoDup String.compare _ Hsorted)|].
  split; [done|]. split; [done|]. split; [done|]. split; [done|].
  by rewrite Ht, Hf, Hq.
Qed.

Lemma new_triples_split (n : Z) (ids cs : list Z) :
  length ids = length cs ->
  let new := (fun jc : Z * Z => (jc.1, n, jc.2)) <$> zip ids cs in
  new.*1.*1 = ids ∧ new.*1.*2 = replicate (length cs) n ∧ new.*2 = cs.
Proof.
  revert cs. induction ids as [|j ids IH]; intros [|c cs] Hlen;
    cbn in Hlen; try lia; [done|].
  destruct (IH cs ltac:(lia)) as (H1 & H2 & H3).
  cbn. cbn in H1, H2, H3. by rewrite H1, H2, H3.
Qed.

Lemma translated_ids_NoDup (v : gmap string Z) acc
  (unique : list (string * Z)) (ids : list Z) :
  enumerates v acc ->
  Forall2 (fun tc j => v !! tc.1 = Some j) unique ids ->
  NoDup unique.*1 -> NoDup ids.
Proof.
  intros Hen Hall. induction Hall as [|tc j unique ids Htc Hall IH].
  - constructor.
  - rewrite fmap_cons. intros [Hnotin Hnd]%NoDup_cons.
    apply NoDup_cons. split; [|by apply IH].
    intros Hj. apply list_elem_of_lookup in Hj as [a Ha].
    destruct (Forall2_lookup_r _ _ _ _ _ Hall Ha) as (tc' & Htc' & Hv).
    apply Hnotin.
    replace tc.1 with tc'.1 by (by eapply enumerates_inj).
    apply list_elem_of_fmap. exists tc'. split; [done|].
    by eapply list_elem_of_lookup_2.
Qed.

Lemma act_indexed tokenize facts s text :
  indexed tokenize facts s -> no_caches s ->
  Z.of_nat (length facts) + 1 < 2 ^ 31 ->
  ∃ s', act tokenize (Some text) s = (Ok tt, s') ∧
        indexed tokenize (facts ++ [text]) s' ∧ no_caches s' ∧
        cnt s' = cnt s + 1.
Proof.
  intros (Hlen & Hfid & Hlock & Hh & Hrows & [acc Hacc] & Hdom & l & Htr
          & Hnd & Hrange & Hcells) Hnc Hbound.
  set (n := Z.of_nat (length facts)) in *.
  assert (Htf : tfidfs s = None) by (by injection Hnc).
  set (s0 := set_cnt (cnt s + 1) s).
  assert (Hact : act tokenize (Some text) s = process_act tokenize text s0).
  { unfold act, bind at 1, get_state. rewrite Htf.
    unfold bind at 1, ret. unfold bind at 1, modify. done. }
  destruct (process_act_ok tokenize text s0)
    as (s' & ids & Hrun & Hst & Hfid' & Hlk & Hcnt & Hca & Hall & Hsub & Hen
        & Hdom' & Ht & Hf & Hq).
  { done. } { done. }
  { cbn. rewrite Hrows, Hfid. rewrite decide_True by lia.
    apply lookup_ge_None. lia. }
  set (unique := np_unique String.compare (tokenize text)) in *.
  destruct (np_unique_spec String.compare (tokenize text))
    as (Hsorted & Hmem & Hcount). fold unique in Hsorted, Hmem, Hcount.
  change (fact_id s0) with (fact_id s) in *.
  change (all_tokens s0) with (all_tokens s) in *.
  change (freq_token s0) with (freq_token s) in *.
  change (freq_fact_id s0) with (freq_fact_id s) in *.
  change (freq_freq s0) with (freq_freq s) in *.
  change (store s0) with (store s) in *.
  change (cnt s0) with (cnt s + 1) in *.
  rewrite Hfid in *.
  pose proof (Forall2_length _ _ _ Hall) as Hlen_ids.
  set (new := (fun jc : Z * Z => (jc.1, n, jc.2)) <$> zip ids unique.*2).
  destruct (new_triples_split n ids unique.*2) as (Hn1 & Hn2 & Hn3).
  { by rewrite length_fmap. }
  fold new in Hn1, Hn2, Hn3.
  pose proof (Hen acc Hacc) as Hacc'.
  assert (Hsize : Z.of_nat (size (all_tokens s))
                  <= Z.of_nat (size (all_tokens s'))).
  { apply inj_le. by apply map_subseteq_size. }
  exists s'. rewrite Hact. split; [exact Hrun|]. split; [|split].
  2:{ unfold no_caches. rewrite Hca. exact Hnc. }
  2:{ exact Hcnt. }
  unfold indexed. rewrite length_app. cbn [length].
  replace (Z.of_nat (length facts + 1)) with (n + 1) by lia.
  split; [lia|]. split; [rewrite Hfid'; apply c_int_small; lia|].
  split; [done|]. split; [by rewrite Hst|].
  split.
  { intros k. rewrite Hst. cbn [rows]. rewrite lookup_insert.
    case_decide as Hk.
    - subst k. rewrite decide_True by lia.
      rewrite lookup_app_r by lia.
      replace (Z.to_nat n - length facts)%nat with 0%nat by lia. done.
    - rewrite Hrows. case_decide; [|done].
      destruct (decide (Z.to_nat k < length facts)%nat).
      + by rewrite lookup_app_l.
      + rewrite lookup_ge_None_2 by lia. symmetry.
        apply lookup_ge_None_2. rewrite length_app. cbn. lia. }
  split; [eauto|].
  split.
  { intros t. split.
    - intros [Hold|Hnew]%Hdom'.
      + apply Hdom in Hold as (tx & Htx & Hin). exists tx.
        split; [|done]. apply elem_of_app. by left.
      + exists text. split; [|by apply Hmem].
        apply elem_of_app. right. apply list_elem_of_here.
    - intros (tx & [Htx| ->%list_elem_of_singleton]%elem_of_app & Hin).
      + destruct (proj2 (Hdom t)) as [g Hg]; [eauto|].
        exists g. by eapply lookup_weaken.
      + apply Hmem in Hin.
        apply list_elem_of_fmap in Hin as ([u c] & -> & Huc).
        apply list_elem_of_lookup in Huc as [j Hj].
        destruct (Forall2_lookup_l _ _ _ _ _ Hall Hj) as (i & _ & Hi).
        by exists i. }
  destruct Htr as (Htr1 & Htr2 & Htr3).
  exists (l ++ new). split; [|split; [|split]].
  - unfold triples_of. rewrite !fmap_app, Hn1, Hn2, Hn3, Ht, Hf, Hq.
    rewrite Htr1, Htr2, Htr3, length_fmap, fmap_replicate. done.
  - rewrite fmap_app. apply NoDup_app. split; [done|]. split.
    + intros k Hk Hk'.
      apply list_elem_of_fmap in Hk as (e & -> & He).
      rewrite Forall_forall in Hrange. destruct (Hrange e He) as (_ & Hr & _).
      assert (Hn : e.1.2 ∈ new.*1.*2)
        by (apply list_elem_of_fmap; exists e.1; done).
      rewrite Hn2 in Hn. apply elem_of_replicate in Hn as [Hn _]. lia.
    + apply (NoDup_fmap_1 fst). rewrite Hn1.
      eapply translated_ids_NoDup; [exact Hacc'|exact Hall|].
      exact (strictly_sorted_NoDup String.compare _ Hsorted).
  - apply Forall_app. split.
    + eapply Forall_impl; [exact Hrange|]. cbn. intros e. lia.
    + apply Forall_forall. intros e He. subst new.
      apply list_elem_of_fmap in He as ([j c] & -> & Hjc). cbn.
      pose proof (elem_of_zip_l _ _ _ _ Hjc) as Hj.
      pose proof (elem_of_zip_r _ _ _ _ Hjc) as Hc.
      split; [|split; [lia|]].
      * apply list_elem_of_lookup in Hj as [a Ha].
        destruct (Forall2_lookup_r _ _ _ _ _ Hall Ha) as (tc & _ & Htc).
        by eapply enumerates_range.
      * pose proof (np_unique_counts_pos String.compare (tokenize text))
          as Hpos. fold unique in Hpos.
        rewrite Forall_forall in Hpos.
        apply list_elem_of_fmap in Hc as (tc & -> & Htc). by apply Hpos.
  - intros t g i tx Hg Hi. rewrite cell_sum_app. unfold new.
    rewrite (cell_sum_new_triples (all_tokens s') _ n unique ids t g
               (Z.of_nat i) Hacc' Hall Hg).
    destruct (decide (i < length facts)%nat) as [Hlt|Hge].
    + rewrite lookup_app_l in Hi by done.
      rewrite decide_False by lia.
      destruct (all_tokens s !! t) as [g0|] eqn:Hold.
      * assert (g0 = g).
        { eapply lookup_weaken in Hold; [|exact Hsub]. congruence. }
        subst g0. rewrite (Hcells t g i tx Hold Hi). lia.
      * assert (Hocc : occurrences t (tokenize tx) = 0).
        { unfold occurrences.
          destruct (filter _ (tokenize tx)) as [|x r] eqn:Hfil; [done|].
          exfalso.
          assert (Hx : x ∈ filter (fun y => y = t) (tokenize tx))
            by (rewrite Hfil; apply list_elem_of_here).
          apply list_elem_of_filter in Hx as [-> Hin].
          destruct (proj2 (Hdom t)) as [? ?]; [|congruence].
          exists tx. split; [|done]. apply list_elem_of_lookup. eauto. }
        rewrite Hocc, cell_sum_notin; [lia|].
        intros Hin. apply list_elem_of_fmap in Hin as (e & He & Hel).
        rewrite Forall_forall in Hrange. destruct (Hrange e Hel) as (Hr & _).
        rewrite <- He in Hr. cbn in Hr.
        destruct (enumerates_surj _ _ g Hacc Hr) as [t0 Ht0].
        assert (t0 = t).
        { eapply enumerates_inj; [exact Hacc'| |exact Hg].
          by eapply lookup_weaken. }
        congruence.
    + assert (i = length facts).
      { apply lookup_lt_Some in Hi. rewrite length_app in Hi. cbn in Hi. lia. }
      subst i. rewrite lookup_app_r in Hi by lia.
      rewrite Nat.sub_diag in Hi. injection Hi as <-.
      rewrite decide_True by done. rewrite Hcount.
      rewrite cell_sum_notin; [lia|].
      intros Hin. apply list_elem_of_fmap in Hin as (e & He & Hel).
      rewrite Forall_forall in Hrange. destruct (Hrange e Hel) as (_ & Hr & _).
      rewrite <- He in Hr. cbn in Hr. lia.
Qed.

Lemma init_agent_indexed tokenize : indexed tokenize [] init_agent.
Proof.
  unfold indexed. cbn.
  split; [lia|]. split; [done|]. split; [done|]. split; [done|].
  split; [intros k; rewrite lookup_empty; by case_decide|].
  split; [exists []; apply enumerates_empty|].
  split.
  { intros t. rewrite lookup_empty. split; [by intros [? ?]|].
    by intros (tx & ?%elem_of_nil & _). }
  exists []. split; [done|]. split; [constructor|]. split; [constructor|].
  intros t g i tx. by rewrite lookup_empty.
Qed.

Lemma ingest_indexed tokenize more : ∀ facts s,
  indexed tokenize facts s -> no_caches s ->
  Z.of_nat (length facts) + Z.of_nat (length more) < 2 ^ 31 ->
  ∃ s', ingest tokenize more s = (Ok tt, s') ∧
        indexed tokenize (facts ++ more) s' ∧ no_caches s' ∧
        cnt s' = cnt s + Z.of_nat (length more).
Proof.
  induction more as [|text more IH]; intros facts s Hix Hnc Hlen.
  - exists s. rewrite app_nil_r. cbn. split; [done|]. split; [done|].
    split; [done|lia].
  - cbn [length] in Hlen.
    destruct (act_indexed tokenize facts s text Hix Hnc ltac:(lia))
      as (s1 & Hact & Hix1 & Hnc1 & Hcnt1).
    destruct (IH (facts ++ [text]) s1 Hix1 Hnc1)
      as (s' & Hrun & Hix' & Hnc' & Hcnt').
    { rewrite length_app. cbn. lia. }
    exists s'. unfold ingest in *. cbn [for_each]. unfold bind.
    rewrite Hact, Hrun. rewrite <- app_assoc in Hix'.
    split; [done|]. split; [done|]. split; [done|].
    rewrite Hcnt', Hcnt1. cbn [length]. lia.
Qed.

Lemma csr_matrix_of_triples s l shape :
  triples_of s l ->
  0 <= shape.1 -> 0 <= shape.2 ->
  Forall (fun e : Z * Z * Z =>
            0 <= e.1.1 < shape.1 ∧ 0 <= e.1.2 < shape.2) l ->
  csr_matrix (freq_freq s) (freq_token s) (freq_fact_id s) shape
    = Ok {| cm_shape := shape; cm_cells := sum_cells l |}.
Proof.
  intros (Htok & Hfact & Hfreq) Hrows Hcols Hrange.
  unfold csr_matrix.
  replace (0 <=? shape.1) with true by (symmetry; lia).
  replace (0 <=? shape.2) with true by (symmetry; lia).
  cbn [andb negb].
  rewrite Hfreq, Hfact, Htok, !mapM_as_int_VInt.
  rewrite !length_fmap, !Nat.eqb_refl. cbn [andb negb].
  rewrite coo_triples_split.
  replace (forallb (in_shape shape) l) with true; [done|].
  symmetry. apply forallb_forall. intros [[r c] d] Hin.
  rewrite Forall_forall in Hrange. apply list_elem_of_In in Hin.
  specialize (Hrange _ Hin). cbn in Hrange. cbn.
  repeat (apply andb_true_intro; split); lia.
Qed.

Lemma sum_cells_value l k :
  int64 (cell_sum l k) ∨ NoDup l.*1 ->
  default 0 (sum_cells l !! k) = cell_sum l k.
Proof.
  intros Hok. rewrite sum_cells_lookup by done. case_decide; [done|].
  by rewrite cell_sum_notin.
Qed.

Lemma compute_count_matrix_set_saved_tokens v s :
  _compute_count_matrix (set_saved_tokens v s)
  = ((_compute_count_matrix s).1,
     set_saved_tokens v (_compute_count_matrix s).2).
Proof.
  unfold _compute_count_matrix, bind, get_state, get_num_tokens,
    get_num_docs, lift_outcome, modify, ret.
  destruct s as [? ? ? ? ? ? ? ? nd nt cmx ? ? ? ? ? ? ? ?].
  cbn -[csr_matrix].
  destruct cmx; [done|]. destruct nt, nd; cbn -[csr_matrix];
    destruct (csr_matrix _ _ _ _); done.
Qed.

(** The count matrix of an agent in an [indexed] state. *)
Lemma indexed_count_matrix tokenize facts s :
  indexed tokenize facts s -> no_caches s ->
  ∃ cm,
    _compute_count_matrix s =
      (Ok cm, set_count_matrix (Some cm)
                (set_num_docs (Some (shape_of s).2)
                   (set_num_tokens (Some (shape_of s).1) s))) ∧
    cm_shape cm = (Z.of_nat (size (all_tokens s)), Z.of_nat (length facts)) ∧
    (∀ k v, cm_cells cm !! k = Some v ->
            0 <= k.1 < Z.of_nat (size (all_tokens s)) ∧
            0 <= k.2 < Z.of_nat (length facts) ∧ 0 < v) ∧
    ∀ t g i text,
      all_tokens s !! t = Some g -> facts !! i = Some text ->
      cell cm g (Z.of_nat i) = occurrences t (tokenize text).
Proof.
  intros (Hlen & Hfid & Hlock & Hh & Hrows & Hacc & Hdom & l & Htr
          & Hnodup & Hrange & Hcells) Hnc.
  injection Hnc as Htf Hcm Hdf Hnd Hnt.
  assert (Hshape : shape_of s
            = (Z.of_nat (size (all_tokens s)), Z.of_nat (length facts))).
  { unfold shape_of. by rewrite Hnt, Hnd, Hfid. }
  exists {| cm_shape := shape_of s; cm_cells := sum_cells l |}.
  split; [|split; [done|split]].
  - apply compute_count_matrix_fresh; [done|].
    rewrite Hshape.
    apply csr_matrix_of_triples; [done|cbn; lia|cbn; lia|].
    eapply Forall_impl; [exact Hrange|]. cbn. tauto.
  - intros k v. cbn [cm_cells]. rewrite sum_cells_lookup by (by right).
    case_decide as Hin; [|done]. intros [= <-].
    pose proof (cell_sum_pos l k) as Hpos.
    apply list_elem_of_fmap in Hin as (e & -> & He).
    rewrite Forall_forall in Hrange. destruct (Hrange e He) as (H1 & H2 & _).
    split; [done|]. split; [done|]. apply Hpos.
    + eapply Forall_impl; [apply Forall_forall, Hrange|]. cbn. tauto.
    + apply list_elem_of_fmap. eauto.
  - intros t g i tx Hg Hi. unfold cell. cbn [cm_cells].
    rewrite sum_cells_value by (by right). by eapply Hcells.
Qed.

(** X2. Ingesting any list of facts (fewer than 2^31) into a new agent
    never fails, as long as the store accepts the rows: fact number [i] is
    stored under the id [i] and nothing else is stored, the counters
    [fact_id] and [cnt] equal the number of facts, and the vocabulary
    holds exactly the tokens of the facts, numbered 0 .. size-1 without
    gaps, no two tokens sharing an id. *)
Theorem ingest_stores_facts (tokenize : string -> list string)
  (facts : list string) :
  Z.of_nat (length facts) < 2 ^ 31 ->
  ∃ s,
    ingest tokenize facts init_agent = (Ok tt, s) ∧
    fact_id s = Z.of_nat (length facts) ∧
    cnt s = Z.of_nat (length facts) ∧
    (∀ k, rows (store s) !! k =
          if decide (0 <= k) then facts !! Z.to_nat k else None) ∧
    (∀ t, is_Some (all_tokens s !! t) ↔
          ∃ text, text ∈ facts ∧ t ∈ tokenize text) ∧
    (∀ g, 0 <= g < Z.of_nat (size (all_tokens s)) ↔
          ∃ t, all_tokens s !! t = Some g) ∧
    (∀ t1 t2 g, all_tokens s !! t1 = Some g -> all_tokens s !! t2 = Some g ->
                t1 = t2) ∧
    db_lock s = false ∧ no_caches s.
Proof.
  intros Hlen.
  destruct (ingest_indexed tokenize facts [] init_agent)
    as (s & Hrun & Hix & Hnc & Hcnt).
  { apply init_agent_indexed. } { done. } { cbn. lia. }
  cbn [app] in Hix.
  destruct Hix as (_ & Hfid & Hlock & _ & Hrows & [acc Hacc] & Hdom & _).
  exists s. split; [done|]. split; [done|]. split; [cbn in Hcnt; lia|].
  split; [done|]. split; [done|]. split.
  { intros g. split; [by eapply enumerates_surj|].
    intros [t Ht]. by eapply enumerates_range. }
  split; [intros t1 t2 g; by eapply enumerates_inj|].
  done.
Qed.

(** X3. After the ingestion of [facts] into a new agent, the count matrix
    is built without an error, has one row per token of the vocabulary and
    one column per fact, and its value at (id of token [t], [i]) is the
    number of occurrences of [t] in the tokens of fact [i]; every stored
    entry is positive.  [save] then succeeds and writes this matrix next
    to the vocabulary. *)
Theorem ingest_count_matrix_counts_occurrences
  (tokenize : string -> list string) (facts : list string) :
  Z.of_nat (length facts) < 2 ^ 31 ->
  ∃ s cm s',
    ingest tokenize facts init_agent = (Ok tt, s) ∧
    _compute_count_matrix s = (Ok cm, s') ∧
    (save s).1 = Ok tt ∧
    saved_tokens (save s).2 = Some (all_tokens s) ∧
    saved_matrix (save s).2 = Some cm ∧
    cm_shape cm = (Z.of_nat (size (all_tokens s)), Z.of_nat (length facts)) ∧
    (∀ k v, cm_cells cm !! k = Some v -> 0 < v) ∧
    ∀ t g i text,
      all_tokens s !! t = Some g -> facts !! i = Some text ->
      cell cm g (Z.of_nat i) = occurrences t (tokenize text).
Proof.
  intros Hlen.
  destruct (ingest_indexed tokenize facts [] init_agent)
    as (s & Hrun & Hix & Hnc & Hcnt).
  { apply init_agent_indexed. } { done. } { cbn. lia. }
  cbn [app] in Hix.
  destruct (indexed_count_matrix tokenize facts s Hix Hnc)
    as (cm & Hcm & Hshape & Hpos & Hcells).
  assert (Hsave : save s
            = (Ok tt, set_saved_matrix (Some cm)
                        (set_saved_tokens (Some (all_tokens s))
                           (set_count_matrix (Some cm)
                              (set_num_docs (Some (shape_of s).2)
                                 (set_num_tokens (Some (shape_of s).1) s)))))).
  { unfold save, bind at 1, modify.
    unfold bind. by rewrite compute_count_matrix_set_saved_tokens, Hcm. }
  eexists s, cm, _. split; [done|]. split; [exact Hcm|].
  rewrite Hsave. split; [done|]. split; [by destruct s|].
  split; [by destruct s|].
  split; [done|]. split; [|done].
  intros k v Hk. by destruct (Hpos k v Hk) as (_ & _ & ?).
Qed.

Lemma process_act_records_fact_witness :
  ∃ s', process_act blank_tokenize "a b a" init_agent = (Ok tt, s') ∧
        rows (store s') = {[ 0 := "a b a" ]} ∧
        freq_fact_id s' = [VInt 0; VInt 0] ∧
        freq_freq s' = [VInt 2; VInt 1].
Proof.
  destruct (process_act_records_fact blank_tokenize init_agent "a b a")
    as (s' & ids & Hrun & Hrows & _ & _ & _ & _ & _ & _ & _ & _ & Hfact
        & Hfreq).
  - reflexivity.
  - reflexivity.
  - reflexivity.
  - exists s'. split; [exact Hrun|]. split; [exact Hrows|].
    split; [exact Hfact|exact Hfreq].
Defined.

Lemma ingest_stores_facts_witness :
  ∃ s, ingest blank_tokenize ["a b a"; "b c"] init_agent = (Ok tt, s) ∧
       fact_id s = 2 ∧
       rows (store s) !! 1 = Some "b c" ∧
       is_Some (all_tokens s !! "c").
Proof.
  destruct (ingest_stores_facts blank_tokenize ["a b a"; "b c"])
    as (s & Hrun & Hfid & _ & Hrows & Hvoc & _).
  - vm_compute. reflexivity.
  - exists s. split; [exact Hrun|]. split; [exact Hfid|].
    split; [exact (Hrows 1)|].
    apply Hvoc. exists "b c". split.
    + apply (bool_decide_unpack _). vm_compute. exact I.
    + apply (bool_decide_unpack _). vm_compute. exact I.
Defined.

Lemma ingest_count_matrix_counts_occurrences_witness :
  ∃ s cm, ingest blank_tokenize ["a b a"; "b c"] init_agent = (Ok tt, s) ∧
          cm_shape cm = (3, 2) ∧
          saved_matrix (save s).2 = Some cm ∧
          ∀ g, all_tokens s !! "a" = Some g -> cell cm g 0 = 2.
Proof.
  destruct (ingest_count_matrix_counts_occurrences blank_tokenize
              ["a b a"; "b c"])
    as (s & cm & s' & Hrun & _ & _ & _ & Hsaved & Hshape & _ & Hcells).
  - vm_compute. reflexivity.
  - exists s, cm. split; [exact Hrun|]. split.
    + rewrite Hshape. injection Hrun as <-. vm_compute. reflexivity.
    + split; [exact Hsaved|].
      intros g Hg. exact (Hcells "a" g 0%nat "a b a" Hg eq_refl).
Defined.

(** * The lazily created attributes *)

Lemma caches_consistent_caches s s' :
  caches s' = caches s -> caches_consistent s -> caches_consistent s'.
Proof.
  unfold caches, caches_consistent. intros [= -> -> -> -> ->]. done.
Qed.

Lemma keeps_ret {A} (a : A) : keeps_caches_consistent (ret a).
Proof. by intros s Hs. Qed.

Lemma keeps_bind {A B} (m : M A) (k : A -> M B) :
  keeps_caches_consistent m -> (∀ a, keeps_caches_consistent (k a)) ->
  keeps_caches_consistent (bind m k).
Proof.
  intros Hm Hk s Hs. unfold bind.
  destruct (Hm s Hs) as [Hr Hc].
  destruct (m s) as [[a|e|] s1]; cbn in *; [by apply Hk| |done].
  split; [|done]. intros [= ->]. by apply Hr.
Qed.

Lemma keeps_of_caches {A} (m : M A) :
  (∀ s r s', m s = (r, s') -> caches s' = caches s) ->
  (∀ s, (m s).1 ≠ Raise AttributeError) ->
  keeps_caches_consistent m.
Proof.
  intros Hc Hr s Hs. split; [apply Hr|].
  eapply caches_consistent_caches; [|exact Hs].
  eapply Hc. apply surjective_pairing.
Qed.

Lemma keeps_get_num_docs : keeps_caches_consistent get_num_docs.
Proof.
  intros s [H1 H2]. unfold get_num_docs.
  destruct s as [? ? ? ? ? ? ? ? nd nt cm df tf ? ? ? ? ? ?]; cbn in *.
  destruct nd; cbn; (split; [done|]); split; cbn; try done.
  intros Hcm. destruct (H2 Hcm) as [[? [=]] _].
Qed.

Lemma keeps_get_num_tokens : keeps_caches_consistent get_num_tokens.
Proof.
  intros s [H1 H2]. unfold get_num_tokens.
  destruct s as [? ? ? ? ? ? ? ? nd nt cm df tf ? ? ? ? ? ?]; cbn in *.
  destruct nt; cbn; (split; [done|]); split; cbn; try done.
  intros Hcm. destruct (H2 Hcm) as [_ [? [=]]].
Qed.

Lemma compute_count_matrix_consistent s r s' :
  caches_consistent s -> _compute_count_matrix s = (r, s') ->
  r ≠ Raise AttributeError ∧ caches_consistent s' ∧
  tfidfs s' = tfidfs s ∧ doc_freqs s' = doc_freqs s ∧
  (∀ m, r = Ok m -> count_matrix s' = Some m).
Proof.
  intros [H1 H2].
  unfold _compute_count_matrix, bind, get_state, get_num_tokens,
    get_num_docs, lift_outcome, modify, ret.
  destruct s as [? ? ? ? ? ? ? ? nd nt cm df tf ? ? ? ? ? ?]; cbn in *.
  destruct cm as [m|].
  { intros [= <- <-]. cbn. split; [done|]. split; [done|].
    split; [done|]. split; [done|]. by intros ? [= ->]. }
  assert (Htf : tf = None).
  { destruct tf; [|done]. destruct H1 as [[? [=]] _]. done. }
  subst tf.
  destruct nt, nd; cbn -[csr_matrix];
    destruct (csr_matrix _ _ _ _) as [m|e|] eqn:Hcsr;
    intros [= <- <-]; unfold caches_consistent; cbn;
    (split; [|split; [split|]]);
    try done; try (by intros [? [=]]); try (by intros _; split; eexists);
    try (by repeat split; try done; intros ? [= ->]).
  all: intros [= ->]; revert Hcsr; unfold csr_matrix;
    repeat (case_match; try done).
Qed.

Lemma compute_tfidf_from_count_matrix_consistent cm s r s' :
  caches_consistent s -> is_Some (count_matrix s) ->
  _compute_tfidf_from_count_matrix cm s = (r, s') ->
  r ≠ Raise AttributeError ∧ caches_consistent s' ∧
  (∀ w, r = Ok w -> tfidfs s' = Some w).
Proof.
  intros Hs Hcm.
  unfold _compute_tfidf_from_count_matrix, bind, get_state, get_doc_freqs,
    modify, ret, raise.
  destruct (tfidfs s) as [w|] eqn:Htf.
  { intros [= <- <-]. split; [done|]. split; [done|]. by intros ? [= <-]. }
  destruct Hs as [H1 H2].
  destruct (H2 Hcm) as [Hnd Hnt].
  destruct s as [? ? ? ? ? ? ? ? nd nt cmx df tf ? ? ? ? ? ?]; cbn in *.
  subst tf.
  destruct df as [d|]; cbn -[doc_freq_vector weight_cells idf_value];
    (destruct (is_0d _);
     [|case_decide]; intros [= <- <-]; unfold caches_consistent;
     cbn -[doc_freq_vector weight_cells idf_value];
     (split; [done|]); (split; [|by try intros ? [= <-]]);
     split; try done; try (by intros [? [=]]); try (by intros _; split)).
Qed.

Lemma keeps_compute_count_matrix :
  keeps_caches_consistent _compute_count_matrix.
Proof.
  intros s Hs.
  destruct (_compute_count_matrix s) as [r s'] eqn:Hrun.
  by destruct (compute_count_matrix_consistent s r s' Hs Hrun) as (? & ? & _).
Qed.

Lemma compute_tfidf_consistent s r s' :
  caches_consistent s -> compute_tfidf s = (r, s') ->
  r ≠ Raise AttributeError ∧ caches_consistent s' ∧
  (∀ w, r = Ok w -> tfidfs s' = Some w).
Proof.
  intros Hs. unfold compute_tfidf, bind.
  destruct (_compute_count_matrix s) as [[m|e|] s1] eqn:Hcm;
    destruct (compute_count_matrix_consistent s _ s1 Hs Hcm)
      as (Hr & Hs1 & _ & _ & Hm).
  - apply compute_tfidf_from_count_matrix_consistent; [done|].
    rewrite (Hm m eq_refl). by eexists.
  - intros [= <- <-]. split; [|split; [done|by intros ? [=]]].
    intros [= ->]. by apply Hr.
  - intros [= <- <-]. done.
Qed.

Lemma keeps_compute_tfidf : keeps_caches_consistent compute_tfidf.
Proof.
  intros s Hs. destruct (compute_tfidf s) as [r s'] eqn:Hrun.
  by destruct (compute_tfidf_consistent s r s' Hs Hrun) as (? & ? & _).
Qed.

Lemma keeps_save : keeps_caches_consistent save.
Proof.
  unfold save. apply keeps_bind.
  { apply keeps_of_caches; [|done]. by intros s r s' [= _ <-]. }
  intros _. apply keeps_bind; [apply keeps_compute_count_matrix|].
  intros m. apply keeps_of_caches; [|done]. by intros s r s' [= _ <-].
Qed.

Lemma execute_insert_not_attribute_error id fact s :
  (execute_insert id fact s).1 ≠ Raise AttributeError.
Proof. unfold execute_insert. repeat case_match; done. Qed.

Lemma token2id_str_ok t s : ∃ i, (token2id (VStr t) s).1 = Ok i.
Proof.
  unfold token2id. case_decide as Hn; cbn.
  - rewrite lookup_insert_eq. by eexists.
  - destruct (all_tokens s !! t); [by eexists|done].
Qed.

Lemma new_freq_not_attribute_error a b c s :
  (new_freq a b c s).1 ≠ Raise AttributeError.
Proof.
  unfold new_freq, bind, modify. destruct a as [n|t]; [done|].
  destruct (token2id_str_ok t s) as [i Hi].
  destruct (token2id (VStr t) s) as [[j|e|] s1]; cbn in *; done.
Qed.

Lemma for_each_not_attribute_error {A} (l : list A) (body : A -> M unit) :
  (∀ x s, (body x s).1 ≠ Raise AttributeError) ->
  ∀ s, (for_each l body s).1 ≠ Raise AttributeError.
Proof.
  intros Hbody. induction l as [|x l IH]; intros s; [done|].
  cbn [for_each]. unfold bind. specialize (Hbody x s).
  destruct (body x s) as [[[]|e|] s1]; cbn in *; [apply IH| |done].
  intros [= ->]. done.
Qed.

Lemma process_act_not_attribute_error tokenize fact s :
  (process_act tokenize fact s).1 ≠ Raise AttributeError.
Proof.
  unfold process_act, bind at 1.
  destruct (insert_fact_without_id fact s) as [[fid|e|] s1] eqn:Hi.
  - apply for_each_not_attribute_error. intros x s2.
    apply new_freq_not_attribute_error.
  - cbn. intros [= ->]. revert Hi.
    unfold insert_fact_without_id, bind, new_fact_id, with_db_lock, ret.
    destruct (db_lock _); [done|].
    pose proof (execute_insert_not_attribute_error (fact_id s) fact
                  (set_db_lock true (set_fact_id (c_int (fact_id s + 1)) s)))
      as Hne.
    destruct (execute_insert _ _ _) as [[[]|e|] s2]; cbn in *; [done| |done].
    intros [= -> _]. done.
  - done.
Qed.

Lemma keeps_act tokenize obs : keeps_caches_consistent (act tokenize obs).
Proof.
  intros s Hs.
  destruct (act tokenize obs s) as [r s'] eqn:Hrun. cbn.
  destruct (tfidfs s) as [w|] eqn:Htf.
  - destruct Hs as [H1 H2].
    destruct H1 as [[m Hm] [d Hd]]; [by eexists|].
    destruct H2 as [[nd Hnd] [nt Hnt]]; [by eexists|].
    assert (Hc : caches s = (Some w, Some m, Some d, Some nd, Some nt)).
    { unfold caches. by rewrite Htf, Hm, Hd, Hnd, Hnt. }
    pose proof (act_drops_caches_when_tfidfs_cached tokenize s w m d nd nt
                  obs r s' Hc Hrun) as Hnone.
    injection Hnone as Ha Hb Hcc Hd' He.
    split.
    + revert Hrun. unfold act, bind at 1, get_state. rewrite Htf.
      unfold bind at 1.
      destruct ((_ ;; _) s) as [[[]|e|] s1] eqn:Hdel.
      * destruct obs as [text|]; [|by intros [= <- _]].
        unfold bind, modify. intros Hp [= ->].
        by eapply process_act_not_attribute_error; rewrite Hp.
      * revert Hdel.
        unfold bind, del_tfidfs, del_count_matrix, del_doc_freqs,
          del_num_docs, del_num_tokens.
        rewrite Htf. destruct s; cbn in *. subst. by cbn.
      * by intros [= <- _].
    + unfold caches_consistent. rewrite Ha, Hb. split; by intros [? [=]].
  - revert Hrun. unfold act, bind at 1, get_state. rewrite Htf.
    unfold bind at 1, ret.
    destruct obs as [text|]; [|by intros [= <- <-]].
    unfold bind, modify. intros Hp. split.
    + intros ->.
      by eapply process_act_not_attribute_error; rewrite Hp.
    + apply process_act_caches in Hp.
      eapply caches_consistent_caches; [|exact Hs]. rewrite Hp.
      by destruct s.
Qed.

Lemma map_each_token2id_str tokens : ∀ s,
  ∃ wids s', map_each tokens (fun t => token2id (VStr t)) s = (Ok wids, s') ∧
             caches s' = caches s.
Proof.
  induction tokens as [|t tokens IH]; intros s.
  - by exists [], s.
  - cbn [map_each]. unfold bind.
    destruct (token2id_str_ok t s) as [i Hi].
    destruct (token2id (VStr t) s) as [r s1] eqn:Ht. cbn in Hi. subst r.
    apply token2id_caches in Ht.
    destruct (IH s1) as (wids & s' & -> & Hc).
    exists (i :: wids), s'. split; [done|]. congruence.
Qed.

Lemma retrieve_order_not_attribute_error argsort argpartition data k :
  retrieve_order argsort argpartition data k ≠ Raise AttributeError.
Proof.
  unfold retrieve_order, np_argpartition.
  repeat case_match; congruence.
Qed.

Lemma map_each_fetch_fact_state ids : ∀ s r s',
  map_each ids fetch_fact s = (r, s') -> s' = s ∧ r ≠ Raise AttributeError.
Proof.
  induction ids as [|id ids IH]; intros s r s'.
  - by intros [= <- <-].
  - cbn [map_each]. unfold bind, fetch_fact at 1.
    destruct (negb _); [by intros [= <- <-]|].
    destruct (rows (store s) !! id); [|by intros [= <- <-]].
    destruct (map_each ids fetch_fact s) as [[out|e|] s1] eqn:Hrest;
      destruct (IH _ _ _ Hrest) as [-> Hne]; by intros [= <- <-].
Qed.

Lemma retrieve_tail_state argsort argpartition res k s r s' :
  retrieve_tail argsort argpartition res k s = (r, s') ->
  s' = s ∧ r ≠ Raise AttributeError.
Proof.
  unfold retrieve_tail, bind, lift_outcome, raise.
  pose proof (retrieve_order_not_attribute_error argsort argpartition
                res.*2 k) as Hne.
  destruct (retrieve_order _ _ _ _) as [o|e|].
  - destruct (take_at res.*2 o); [|by intros [= <- <-]].
    destruct (take_at res.*1 o); [|by intros [= <- <-]].
    apply map_each_fetch_fact_state.
  - intros [= <- <-]. split; [done|]. intros [= ->]. done.
  - by intros [= <- <-].
Qed.

Lemma retrieve_scores_consistent tokens s r s' :
  caches_consistent s -> retrieve_scores tokens s = (r, s') ->
  r ≠ Raise AttributeError ∧ caches_consistent s'.
Proof.
  intros Hs. unfold retrieve_scores, bind at 1.
  destruct (compute_tfidf s) as [[w|e|] sa] eqn:Htf;
    destruct (compute_tfidf_consistent s _ sa Hs Htf) as (Hr & Hsa & Hw).
  2:{ intros [= <- <-]. split; [|done]. intros [= ->]. done. }
  2:{ by intros [= <- <-]. }
  specialize (Hw w eq_refl).
  unfold bind at 1.
  destruct (map_each_token2id_str tokens sa) as (wids & sb & -> & Hc).
  assert (Hsb : caches_consistent sb)
    by (by eapply caches_consistent_caches).
  injection Hc as Hc1 Hc2 Hc3 Hc4 Hc5.
  destruct Hsa as [Ha1 Ha2].
  destruct Ha1 as [[m Hm] [d Hd]]; [by eexists|].
  destruct Ha2 as [[nd Hnd] [nt Hnt]]; [by eexists|].
  unfold bind at 1, get_state. rewrite Hc3, Hd.
  destruct (if is_0d d then _ else _) as [Ns|]; [|by intros [= <- <-]].
  unfold bind at 1, get_num_docs. rewrite Hc4, Hnd.
  unfold bind at 1, get_num_tokens. rewrite Hc5, Hnt.
  unfold bind at 1, get_state. rewrite Hc1, Hw.
  case_decide; by intros [= <- <-].
Qed.

Lemma keeps_retrieve tokenize argsort argpartition query k :
  keeps_caches_consistent (retrieve tokenize argsort argpartition query k).
Proof.
  intros s Hs.
  destruct (retrieve tokenize argsort argpartition query k s)
    as [r s'] eqn:Hrun. cbn [fst snd].
  revert Hrun. unfold retrieve, bind at 1, get_state.
  destruct (filter _ _) as [|t l]; [by intros [= <- <-]|].
  unfold bind.
  destruct (retrieve_scores (t :: l) s) as [[res|e|] s1] eqn:Hsc;
    destruct (retrieve_scores_consistent _ s _ s1 Hs Hsc) as [Hr Hs1].
  - by intros [-> ?]%retrieve_tail_state.
  - intros [= <- <-]. split; [|done]. intros [= ->]. done.
  - by intros [= <- <-].
Qed.

Lemma process_data_caches i s r s' :
  _process_data i s = (r, s') ->
  caches s' = caches s ∧ r ≠ Raise AttributeError.
Proof.
  unfold _process_data, bind at 1, get_state.
  destruct (process_data_finished s !! i) as [[]|];
    [by intros [= <- <-] | | by intros [= <- <-]].
  unfold bind at 1, queue_get.
  destruct (comm_queues s !! i) as [[|d q]|];
    [by intros [= <- <-] | | by intros [= <- <-]].
  set (s1 := set_comm_queues _ s).
  assert (Hs1 : caches s1 = caches s) by (by destruct s).
  case_decide as Hd.
  { unfold modify. intros [= <- <-]. split; [|done]. by destruct s. }
  destruct (py_len d) as [[|[|[|[|n]]]]|];
    try (unfold raise; by intros [= <- <-]).
  - destruct (py_items d) as [|a [|b [|c l]]];
      try (unfold raise; by intros [= <- <-]).
    unfold bind.
    destruct (token2id a s1) as [[tid|e|] s2] eqn:Ht.
    + apply token2id_caches in Ht. unfold set_translation.
      destruct (child_token_map s2 !! i); intros [= <- <-]; cbn;
        (split; [|done]); [|congruence].
      transitivity (caches s2); [by destruct s2|congruence].
    + intros [= <- <-]. split; [apply token2id_caches in Ht; congruence|].
      intros [= ->]. revert Ht. unfold token2id. destruct a as [n|t]; [done|].
      repeat case_match; done.
    + intros [= <- <-]. split; [|done].
      apply token2id_caches in Ht; congruence.
  - destruct (py_items d) as [|a [|b [|c [|x l]]]];
      try (unfold raise; by intros [= <- <-]).
    unfold bind, get_translation.
    destruct (child_token_map s1 !! i) as [tbl|]; [|by intros [= <- <-]].
    destruct (tbl !! a) as [g|]; [|by intros [= <- <-]].
    intros Hn. split.
    + apply new_freq_caches in Hn. congruence.
    + intros ->. by eapply new_freq_not_attribute_error; rewrite Hn.
Qed.

Lemma keeps_process_data i : keeps_caches_consistent (_process_data i).
Proof.
  apply keeps_of_caches.
  - intros s r s' H. by apply process_data_caches in H as [? _].
  - intros s. destruct (_process_data i s) as [r s'] eqn:H.
    by apply process_data_caches in H as [_ ?].
Qed.

Lemma keeps_for_each {A} (l : list A) (body : A -> M unit) :
  (∀ x, keeps_caches_consistent (body x)) ->
  keeps_caches_consistent (for_each l body).
Proof.
  intros Hbody. induction l as [|x l IH]; [apply keeps_ret|].
  cbn [for_each]. apply keeps_bind; [apply Hbody|]. intros _. apply IH.
Qed.

Lemma keeps_process_round : keeps_caches_consistent process_round.
Proof.
  unfold process_round. apply keeps_bind; [by apply keeps_of_caches; [intros s r s' [= _ <-]|]|].
  intros s0. apply keeps_for_each. intros i. apply keeps_process_data.
Qed.

Lemma keeps_process_child_data fuel :
  keeps_caches_consistent (process_child_data fuel).
Proof.
  induction fuel as [|fuel IH]; cbn [process_child_data].
  - apply keeps_bind; [by apply keeps_of_caches; [intros s r s' [= _ <-]|]|].
    intros s0. case_decide; apply keeps_ret.
  - apply keeps_bind; [by apply keeps_of_caches; [intros s r s' [= _ <-]|]|].
    intros s0. case_decide; [apply keeps_ret|].
    apply keeps_bind; [apply keeps_process_round|]. intros _. apply IH.
Qed.

Lemma keeps_shutdown fuel : keeps_caches_consistent (shutdown fuel).
Proof.
  unfold shutdown. apply keeps_bind.
  { apply keeps_of_caches; [|done]. intros s r s' [= _ <-]. by destruct s. }
  intros _. apply keeps_bind; [apply keeps_process_child_data|].
  intros []; [|apply keeps_ret].
  apply keeps_bind; [apply keeps_save|]. intros _. apply keeps_ret.
Qed.

(** X4. No public method ever finds a lazily created attribute missing:
    in a new agent the five attributes are absent, and [act], [save],
    [compute_tfidf], [retrieve] and the master's [shutdown], called in any
    order and with any arguments, whatever their outcome, neither raise
    AttributeError (from a [del] in [act] or from reading [doc_freqs] and
    [tfidfs] in [retrieve]) nor break the order in which the attributes
    come to exist. *)
Theorem lazy_attributes_never_missing (tokenize : string -> list string)
  (argsort : list R -> list nat) (argpartition : list R -> nat -> list nat) :
  caches_consistent init_agent ∧
  (∀ obs, keeps_caches_consistent (act tokenize obs)) ∧
  keeps_caches_consistent save ∧
  keeps_caches_consistent compute_tfidf ∧
  (∀ query k, keeps_caches_consistent
                (retrieve tokenize argsort argpartition query k)) ∧
  (∀ fuel, keeps_caches_consistent (shutdown fuel)).
Proof.
  split.
  { split; by intros [? [=]]. }
  split; [apply keeps_act|]. split; [apply keeps_save|].
  split; [apply keeps_compute_tfidf|].
  split; [apply keeps_retrieve|apply keeps_shutdown].
Qed.

(** * Queries only fill the lazily created attributes *)

Lemma cache_ext_refl s : cache_ext s s.
Proof. unfold cache_ext, same_outside_caches. repeat split; done. Qed.

Lemma cache_ext_trans s1 s2 s3 :
  cache_ext s1 s2 -> cache_ext s2 s3 -> cache_ext s1 s3.
Proof.
  unfold cache_ext, same_outside_caches.
  intros H1 H2. destruct_and!. repeat split; try congruence; eauto.
Qed.

Lemma cache_ext_all_tokens s s' : cache_ext s s' -> all_tokens s' = all_tokens s.
Proof. by intros [[? _] _]. Qed.

Section Settled.

Context (v : gmap string Z).

Lemma settled_ret {A} (a : A) : settled v (ret a).
Proof.
  intros s r s' _ [= <- <-]. split; [apply cache_ext_refl|]. done.
Qed.

Lemma settled_raise {A} e : settled v (@raise A e).
Proof.
  intros s r s' _ [= <- <-]. split; [apply cache_ext_refl|]. done.
Qed.

Lemma settled_lift_outcome {A} (o : Outcome A) : settled v (lift_outcome o).
Proof.
  intros s r s' _ [= <- <-]. split; [apply cache_ext_refl|].
  by destruct o.
Qed.

Lemma settled_bind {A B} (m : M A) (k : A -> M B) :
  settled v m -> (∀ a, settled v (k a)) -> settled v (bind m k).
Proof.
  intros Hm Hk s r s' Hv. unfold bind.
  destruct (m s) as [[a|e|] s1] eqn:Hms;
    destruct (Hm _ _ _ Hv Hms) as [Hext Hagain].
  - intros Hks.
    assert (Hv1 : all_tokens s1 = v)
      by (by rewrite (cache_ext_all_tokens s s1)).
    destruct (Hk a _ _ _ Hv1 Hks) as [Hext2 Hagain2].
    split; [by eapply cache_ext_trans|].
    destruct r as [b|e|].
    + intros s'' Hs''. rewrite (Hagain s'') by (by eapply cache_ext_trans).
      by apply Hagain2.
    + by rewrite (Hagain s' Hext2).
    + by rewrite (Hagain s' Hext2).
  - intros [= <- <-]. split; [done|]. by rewrite Hagain.
  - intros [= <- <-]. split; [done|]. by rewrite Hagain.
Qed.

(** Reading a lazily created attribute: absent, the method stops. *)
Lemma settled_read_cache {A B} (field : Agent -> option B) (k : B -> M A)
  (stop : M A) :
  (∀ s s' x, cache_ext s s' -> field s = Some x -> field s' = Some x) ->
  (∀ b, settled v (k b)) ->
  (∀ s, ∃ e, stop s = (Raise e, s)) ->
  settled v (let* s := get_state in
             match field s with Some b => k b | None => stop end).
Proof.
  intros Hfield Hk Hstop s r s' Hv. unfold bind, get_state.
  destruct (field s) as [b|] eqn:Hb.
  - intros Hrun. destruct (Hk _ _ _ _ Hv Hrun) as [Hext Hagain].
    split; [done|]. destruct r as [a|e|].
    + intros s'' Hs''.
      rewrite (Hfield s s'' b) by (done || by eapply cache_ext_trans).
      by apply Hagain.
    + by rewrite (Hfield s s' b).
    + by rewrite (Hfield s s' b).
  - destruct (Hstop s) as [e He]. rewrite He. intros [= <- <-].
    split; [apply cache_ext_refl|]. by rewrite Hb.
Qed.

Lemma settled_get_num_docs : settled v get_num_docs.
Proof.
  intros s r s' _. unfold get_num_docs.
  destruct (num_docs s) as [n|] eqn:Hn; intros [= <- <-].
  - split; [apply cache_ext_refl|].
    intros s'' (_ & _ & _ & _ & H & _). by rewrite (H n Hn).
  - split.
    + unfold cache_ext, same_outside_caches. destruct s; cbn in *.
      repeat split; try done. by subst.
    + intros s'' (_ & _ & _ & _ & H & _). by rewrite (H (fact_id s)).
Qed.

Lemma settled_get_num_tokens : settled v get_num_tokens.
Proof.
  intros s r s' _. unfold get_num_tokens.
  destruct (num_tokens s) as [n|] eqn:Hn; intros [= <- <-].
  - split; [apply cache_ext_refl|].
    intros s'' (_ & _ & _ & _ & _ & H). by rewrite (H n Hn).
  - split.
    + unfold cache_ext, same_outside_caches. destruct s; cbn in *.
      repeat split; try done. by subst.
    + intros s'' (_ & _ & _ & _ & _ & H).
      by rewrite (H (Z.of_nat (size (all_tokens s)))).
Qed.

Lemma settled_compute_count_matrix : settled v _compute_count_matrix.
Proof.
  intros s r s' _.
  unfold _compute_count_matrix, bind at 1, get_state.
  destruct (count_matrix s) as [m|] eqn:Hm.
  { intros [= <- <-]. split; [apply cache_ext_refl|].
    intros s'' (_ & _ & H & _).
    unfold _compute_count_matrix, bind, get_state. by rewrite (H m Hm). }
  unfold bind, get_num_tokens, get_num_docs, lift_outcome, modify, ret.
  destruct s as [? ? ? ? ? ? ? ? nd nt cmx df tf ? ? ? ? ? ?]; cbn in Hm.
  subst cmx.
  destruct nt as [nt|], nd as [nd|]; cbn -[csr_matrix];
    destruct (csr_matrix _ _ _ _) as [m|e|] eqn:Hcsr; intros [= <- <-];
    (split;
     [unfold cache_ext, same_outside_caches; cbn; by repeat split|]);
    try (intros s'' (_ & _ & H & _);
         unfold _compute_count_matrix, bind, get_state;
         by rewrite (H m eq_refl));
    unfold _compute_count_matrix, bind, get_state, get_num_tokens,
      get_num_docs, lift_outcome, modify, ret; cbn -[csr_matrix];
    by rewrite Hcsr.
Qed.

Lemma settled_compute_tfidf_from_count_matrix cm :
  settled v (_compute_tfidf_from_count_matrix cm).
Proof.
  intros s r s' _.
  unfold _compute_tfidf_from_count_matrix, bind at 1, get_state.
  destruct (tfidfs s) as [w|] eqn:Hw.
  { intros [= <- <-]. split; [apply cache_ext_refl|].
    intros s'' (_ & H & _).
    unfold _compute_tfidf_from_count_matrix, bind, get_state.
    by rewrite (H w Hw). }
  unfold bind, get_doc_freqs, modify, ret, raise.
  destruct s as [? ? ? ? ? ? ? ? nd nt cmx df tf ? ? ? ? ? ?]; cbn in Hw.
  subst tf.
  destruct df as [d|]; cbn -[doc_freq_vector weight_cells idf_value];
    (destruct (is_0d _) eqn:H0d; [|case_decide as Hlen]);
    intros [= <- <-];
    (split;
     [unfold cache_ext, same_outside_caches; cbn; by repeat split|]);
    try (intros s'' (_ & H & _);
         unfold _compute_tfidf_from_count_matrix, bind, get_state;
         by rewrite (H _ eq_refl));
    unfold _compute_tfidf_from_count_matrix, bind, get_state, get_doc_freqs,
      modify, ret, raise; cbn -[doc_freq_vector weight_cells idf_value];
    rewrite ?H0d; try done; by rewrite decide_False.
Qed.

Lemma settled_compute_tfidf : settled v compute_tfidf.
Proof.
  unfold compute_tfidf. apply settled_bind.
  - apply settled_compute_count_matrix.
  - apply settled_compute_tfidf_from_count_matrix.
Qed.

Lemma settled_map_each_token2id tokens :
  (∀ t, t ∈ tokens -> is_Some (v !! t)) ->
  settled v (map_each tokens (fun t => token2id (VStr t))).
Proof.
  intros Hin.
  assert (Hwids : ∃ wids, Forall2 (fun t i => v !! t = Some i) tokens wids).
  { induction tokens as [|t l IH]; [by exists []|].
    destruct (Hin t (list_elem_of_here _ _)) as [i Hi].
    destruct IH as [wids Hw].
    { intros u Hu. apply Hin. by apply list_elem_of_further. }
    exists (i :: wids). by constructor. }
  destruct Hwids as [wids Hw].
  intros s r s' Hv. subst v.
  rewrite (map_each_token2id_present tokens wids s Hw).
  intros [= <- <-]. split; [apply cache_ext_refl|].
  intros s'' Hs''. apply map_each_token2id_present.
  by rewrite (cache_ext_all_tokens _ _ Hs'').
Qed.

Lemma map_each_fetch_fact_store ids s s'' :
  store s'' = store s ->
  (map_each ids fetch_fact s'').1 = (map_each ids fetch_fact s).1.
Proof.
  intros Hst. induction ids as [|id ids IH]; [done|].
  cbn [map_each]. unfold bind, fetch_fact at 1 3. rewrite Hst.
  destruct (negb _); [done|].
  destruct (rows (store s) !! id); [|done].
  destruct (map_each ids fetch_fact s'') as [r1 s1] eqn:H1.
  destruct (map_each ids fetch_fact s) as [r2 s2] eqn:H2.
  cbn in IH. subst r2. by destruct r1.
Qed.

Lemma settled_retrieve_tail argsort argpartition res k :
  settled v (retrieve_tail argsort argpartition res k).
Proof.
  intros s r s' _ Hrun.
  destruct (retrieve_tail_state _ _ _ _ _ _ _ Hrun) as [-> _].
  split; [apply cache_ext_refl|].
  assert (Hdep : ∀ s'', store s'' = store s ->
            retrieve_tail argsort argpartition res k s'' = (r, s'')).
  { intros s'' Hst.
    destruct (retrieve_tail argsort argpartition res k s'') as [r2 s2]
      eqn:Hrun2.
    destruct (retrieve_tail_state _ _ _ _ _ _ _ Hrun2) as [-> _].
    f_equal. revert Hrun Hrun2.
    unfold retrieve_tail, bind, lift_outcome, raise.
    destruct (retrieve_order _ _ _ _) as [o|e|].
    - destruct (take_at res.*2 o), (take_at res.*1 o);
        try (intros; congruence).
      intros H1 H2. pose proof (map_each_fetch_fact_store l0 s s'' Hst) as H.
      by rewrite H1, H2 in H.
    - congruence.
    - congruence. }
  destruct r; [|by apply Hdep..].
  intros s'' ((_ & _ & _ & _ & _ & _ & _ & Hst & _) & _). by apply Hdep.
Qed.

Lemma settled_retrieve_scores tokens :
  (∀ t, t ∈ tokens -> is_Some (v !! t)) ->
  settled v (retrieve_scores tokens).
Proof.
  intros Hin. unfold retrieve_scores.
  apply settled_bind; [apply settled_compute_tfidf|]. intros _.
  apply settled_bind; [by apply settled_map_each_token2id|]. intros wids.
  cbv zeta.
  apply (settled_read_cache doc_freqs).
  { intros s s' x (_ & _ & _ & H & _). apply H. }
  2:{ intros s. by eexists. }
  intros df.
  destruct (if is_0d df then None else _) as [Ns|]; [|apply settled_raise].
  apply settled_bind; [apply settled_get_num_docs|]. intros nd.
  apply settled_bind; [apply settled_get_num_tokens|]. intros nt.
  apply (settled_read_cache tfidfs).
  { intros s s' x (_ & H & _). apply H. }
  2:{ intros s. by eexists. }
  intros W. case_decide; [apply settled_ret|apply settled_raise].
Qed.

Lemma settled_retrieve tokenize argsort argpartition query k :
  settled v (retrieve tokenize argsort argpartition query k).
Proof.
  set (K := match filter (fun t => is_Some (v !! t)) (tokenize query) with
            | [] => ret []
            | _ :: _ =>
                let* res := retrieve_scores
                              (filter (fun t => is_Some (v !! t))
                                 (tokenize query)) in
                retrieve_tail argsort argpartition res k
            end).
  assert (Hk : settled v K).
  { subst K. destruct (filter _ _) as [|t l] eqn:Hf; [apply settled_ret|].
    apply settled_bind; [|intros res; apply settled_retrieve_tail].
    apply settled_retrieve_scores. intros u Hu. rewrite <- Hf in Hu.
    by apply list_elem_of_filter in Hu as [? _]. }
  assert (Hre : ∀ s0, all_tokens s0 = v ->
            retrieve tokenize argsort argpartition query k s0 = K s0).
  { intros s0 H0. unfold retrieve, bind at 1, get_state. by rewrite H0. }
  intros s r s' Hv Hrun. rewrite (Hre s Hv) in Hrun.
  destruct (Hk s r s' Hv Hrun) as [Hext Hagain].
  split; [done|].
  assert (Hv' : all_tokens s' = v)
    by (by rewrite (cache_ext_all_tokens _ _ Hext)).
  destruct r as [out|e|].
  - intros s'' Hs''. rewrite Hre; [by apply Hagain|].
    by rewrite (cache_ext_all_tokens _ _ Hs'').
  - by rewrite Hre.
  - by rewrite Hre.
Qed.

End Settled.

(** X5. A query changes nothing but the lazily created attributes, and
    those it only adds: whatever the outcome of [retrieve], the
    vocabulary, the three buffers, the counters, the fact store, the saved
    files and the channels are as before, and an attribute that existed
    before the call still holds the same value. *)
Theorem retrieve_only_fills_caches (tokenize : string -> list string)
  (argsort : list R -> list nat) (argpartition : list R -> nat -> list nat)
  (query : string) (max_results : Z) (s : Agent) :
  cache_ext s
    (retrieve tokenize argsort argpartition query max_results s).2.
Proof.
  destruct (retrieve tokenize argsort argpartition query max_results s)
    as [r s'] eqn:Hrun.
  by destruct (settled_retrieve (all_tokens s) tokenize argsort argpartition
                 query max_results s r s' eq_refl Hrun) as [? _].
Qed.

(** X6. A query asked a second time gets the same outcome (the same facts
    in the same order, or the same exception), and the second call changes
    nothing: what the first call computed is read from the lazily created
    attributes. *)
Theorem retrieve_twice_same_outcome (tokenize : string -> list string)
  (argsort : list R -> list nat) (argpartition : list R -> nat -> list nat)
  (query : string) (max_results : Z) (s : Agent) :
  let first := retrieve tokenize argsort argpartition query max_results s in
  retrieve tokenize argsort argpartition query max_results first.2 = first.
Proof.
  cbv zeta.
  destruct (retrieve tokenize argsort argpartition query max_results s)
    as [r s'] eqn:Hrun.
  destruct (settled_retrieve (all_tokens s) tokenize argsort argpartition
              query max_results s r s' eq_refl Hrun) as [_ Hagain].
  cbn [snd]. destruct r as [out|e|]; [|done..].
  apply Hagain, cache_ext_refl.
Qed.

(** * TF-IDF weights of ingested facts *)

Lemma occurrences_pos `{EqDecision A} (x : A) (l : list A) :
  0 < occurrences x l ↔ x ∈ l.
Proof.
  unfold occurrences. induction l as [|y l IH].
  - cbn. split; [lia|by intros ?%elem_of_nil].
  - rewrite elem_of_cons, filter_cons. case_decide as Hy.
    + subst. rewrite length_cons. split; [by left|lia].
    + split; [intros H; right; by apply IH|].
      intros [->|H]; [done|]. by apply IH.
Qed.

Lemma occurrences_nonneg `{EqDecision A} (x : A) (l : list A) :
  0 <= occurrences x l.
Proof. unfold occurrences. lia. Qed.

Lemma length_filter_positions {A} (l : list A) (P : Z -> Prop)
  (Q : A -> Prop) `{∀ z, Decision (P z)} `{∀ x, Decision (Q x)} :
  (∀ i x, l !! i = Some x -> (P (Z.of_nat i) ↔ Q x)) ->
  length (filter P (seqZ 0 (Z.of_nat (length l)))) = length (filter Q l).
Proof.
  induction l as [|x l IH] using rev_ind; intros HPQ; [done|].
  rewrite length_app. cbn [length].
  replace (Z.of_nat (length l + 1)) with (Z.of_nat (length l) + 1) by lia.
  rewrite seqZ_app by lia. rewrite !filter_app, !length_app.
  rewrite IH.
  2:{ intros i y Hi. apply HPQ. by rewrite lookup_app_l
        by (by eapply lookup_lt_Some). }
  f_equal. change (seqZ (0 + Z.of_nat (length l)) 1)
    with [0 + Z.of_nat (length l)].
  rewrite Z.add_0_l.
  specialize (HPQ (length l) x).
  rewrite list_lookup_middle in HPQ by done. specialize (HPQ eq_refl).
  rewrite !filter_cons, !filter_nil.
  destruct (decide (P _)), (decide (Q x)); tauto || done.
Qed.

Lemma indexed_tfidf tokenize facts s :
  indexed tokenize facts s -> no_caches s ->
  (1 < size (all_tokens s))%nat ->
  ∃ W cm d s',
    compute_tfidf s = (Ok W, s') ∧
    same_outside_caches s s' ∧
    caches s' = (Some W, Some cm, Some d,
                 Some (Z.of_nat (length facts)),
                 Some (Z.of_nat (size (all_tokens s)))) ∧
    length d = size (all_tokens s) ∧
    wm_shape W = (Z.of_nat (size (all_tokens s)), Z.of_nat (length facts)) ∧
    (∀ k w, wm_cells W !! k = Some w ->
       ∃ t i text, all_tokens s !! t = Some k.1 ∧ k.2 = Z.of_nat i ∧
                   facts !! i = Some text ∧ t ∈ tokenize text) ∧
    ∀ t g i text,
      all_tokens s !! t = Some g -> facts !! i = Some text ->
      weight W g (Z.of_nat i)
      = (idf_value (Z.of_nat (length facts)) (facts_with tokenize t facts)
         * ln (1 + IZR (occurrences t (tokenize text))))%R.
Proof.
  intros Hix Hnc HT.
  destruct (indexed_count_matrix tokenize facts s Hix Hnc)
    as (cm & Hcm & Hshape & Hpos & Hcells).
  destruct Hix as (Hlen & Hfid & _ & _ & _ & [acc Hacc] & _ & _).
  injection Hnc as Htf Hc Hdf Hnd Hnt.
  set (s1 := set_count_matrix _ _) in Hcm.
  pose proof (compute_tfidf_from_count_matrix_fresh cm s1) as Hw.
  cbv zeta in Hw.
  set (W := {| wm_shape := cm_shape cm; wm_cells := _ |}) in Hw.
  exists W, cm, (doc_freq_vector cm),
    (set_tfidfs (Some W) (set_doc_freqs (Some (doc_freq_vector cm)) s1)).
  split.
  { unfold compute_tfidf, bind. rewrite Hcm. apply Hw.
    - subst s1. by destruct s.
    - subst s1. by destruct s.
    - rewrite Hshape. cbn. lia.
    - rewrite Hshape. cbn. lia. }
  split.
  { subst s1. unfold same_outside_caches. destruct s. cbn. by repeat split. }
  split.
  { subst s1. unfold caches, shape_of. destruct s; cbn in *. by subst. }
  split.
  { pose proof (length_doc_freq_vector cm) as Hl. rewrite Hshape in Hl.
    cbn in Hl. lia. }
  split; [done|]. split.
  { intros k w. subst W. cbn [wm_cells]. unfold weight_cells.
    rewrite map_lookup_imap.
    destruct (cm_cells cm !! k) as [c|] eqn:Hk; [|done]. intros _.
    destruct (Hpos k c Hk) as (Hk1 & Hk2 & Hc0).
    destruct (enumerates_surj _ _ _ Hacc Hk1) as [t Ht].
    destruct (lookup_lt_is_Some_2 facts (Z.to_nat k.2)) as [text Htext];
      [lia|].
    exists t, (Z.to_nat k.2), text.
    split; [done|]. split; [lia|]. split; [done|].
    apply occurrences_pos.
    rewrite <- (Hcells t k.1 (Z.to_nat k.2) text Ht Htext).
    unfold cell. rewrite Z2Nat.id by lia.
    destruct k as [k1 k2]. cbn [fst snd]. by rewrite Hk. }
  intros t g i text Hg Hi.
  assert (Hgr : 0 <= g < Z.of_nat (size (all_tokens s)))
    by (by eapply enumerates_range).
  assert (Hidf : nth (Z.to_nat g)
                   (map (idf_value (cm_shape cm).2) (doc_freq_vector cm)) 0%R
                 = idf_value (Z.of_nat (length facts))
                     (facts_with tokenize t facts)).
  { rewrite nth_lookup.
    change (map ?f ?l) with (f <$> l). rewrite list_lookup_fmap.
    rewrite doc_freq_vector_lookup by (rewrite Hshape; cbn; lia).
    cbn. rewrite Hshape. cbn [snd]. f_equal.
    rewrite row_doc_freq_counts_facts.
    2:{ intros k c Hk. rewrite Hshape. cbn.
        by destruct (Hpos k c Hk) as (_ & ? & _). }
    unfold facts_containing, facts_with. rewrite Hshape. cbn [snd].
    f_equal. apply length_filter_positions.
    intros j tx Hj. rewrite (Hcells t g j tx Hg Hj).
    apply occurrences_pos. }
  specialize (Hcells t g i text Hg Hi). unfold cell in Hcells.
  unfold weight. subst W. cbn [wm_cells].
  destruct (cm_cells cm !! (g, Z.of_nat i)) as [c|] eqn:Hc'.
  - rewrite (weight_cells_value _ _ _ _ c Hc'). cbn in Hcells. subst c.
    by rewrite Hidf.
  - unfold weight_cells. rewrite map_lookup_imap, Hc'. cbn.
    cbn in Hcells. rewrite <- Hcells.
    replace (1 + IZR 0)%R with 1%R by lra. rewrite ln_1. lra.
Qed.

(** X7. After the ingestion of [facts] into a new agent, when the
    vocabulary has at least two tokens, [compute_tfidf] succeeds and the
    weight of token [t] in fact [i] is
    max(0, log((n - df + 0.5) / (df + 0.5))) * log(1 + c), where [n] is the
    number of facts, [df] the number of facts that contain [t] and [c] the
    number of occurrences of [t] in fact [i]. *)
Theorem ingest_tfidf_weights (tokenize : string -> list string)
  (facts : list string) :
  Z.of_nat (length facts) < 2 ^ 31 ->
  let s := (ingest tokenize facts init_agent).2 in
  (1 < size (all_tokens s))%nat ->
  ∃ W s',
    compute_tfidf s = (Ok W, s') ∧
    wm_shape W = (Z.of_nat (size (all_tokens s)), Z.of_nat (length facts)) ∧
    ∀ t g i text,
      all_tokens s !! t = Some g -> facts !! i = Some text ->
      weight W g (Z.of_nat i)
      = (Rmax 0 (ln ((IZR (Z.of_nat (length facts))
                      - IZR (facts_with tokenize t facts) + 0.5)
                     / (IZR (facts_with tokenize t facts) + 0.5)))
         * ln (1 + IZR (occurrences t (tokenize text))))%R.
Proof.
  intros Hlen s HT.
  destruct (ingest_indexed tokenize facts [] init_agent)
    as (s0 & Hrun & Hix & Hnc & _).
  { apply init_agent_indexed. } { done. } { cbn. lia. }
  cbn [app] in Hix. subst s. rewrite Hrun in HT |- *. cbn [snd] in *.
  destruct (indexed_tfidf tokenize facts s0 Hix Hnc HT)
    as (W & cm & d & s' & Hw & _ & _ & _ & Hshape & _ & Hweights).
  exists W, s'. split; [done|]. split; [done|].
  intros t g i text Hg Hi. rewrite (Hweights t g i text Hg Hi).
  by rewrite idf_value_Rmax.
Qed.

Lemma ingest_tfidf_weights_witness :
  ∃ W s',
    compute_tfidf (ingest blank_tokenize ["a b a"; "b c"] init_agent).2
      = (Ok W, s') ∧
    wm_shape W = (3, 2).
Proof.
  destruct (ingest_tfidf_weights blank_tokenize ["a b a"; "b c"])
    as (W & s' & Hrun & Hshape & _).
  - vm_compute. reflexivity.
  - vm_compute. lia.
  - exists W, s'. split; [exact Hrun|]. rewrite Hshape.
    vm_compute. reflexivity.
Defined.

(** * Queries on ingested facts *)

Lemma present_wids (v : gmap string Z) tokens :
  (∀ t, t ∈ tokens -> is_Some (v !! t)) ->
  ∃ wids, Forall2 (fun t i => v !! t = Some i) tokens wids.
Proof.
  intros Hin. induction tokens as [|t l IH]; [by exists []|].
  destruct (Hin t (list_elem_of_here _ _)) as [i Hi].
  destruct IH as [wids Hw].
  { intros u Hu. apply Hin. by apply list_elem_of_further. }
  exists (i :: wids). by constructor.
Qed.

Lemma sparse_row_dot_support q W e :
  e ∈ sparse_row_dot q W ->
  ∃ k, k.1 ∈ q.*1 ∧ k.2 = e.1 ∧ is_Some (W !! k).
Proof.
  unfold sparse_row_dot. rewrite list_elem_of_omap.
  intros (f & Hf & He).
  destruct (Req_dec_T _ 0); [done|]. injection He as <-.
  unfold touched_columns in Hf.
  apply elem_of_elements, elem_of_map in Hf as (k & -> & Hk).
  apply elem_of_filter in Hk as [Hk1 Hk2].
  exists k. split; [done|]. split; [done|]. by apply elem_of_dom.
Qed.

Section IndexedRetrieval.

Variable tokenize : string -> list string.
Variable argsort : list R -> list nat.
Variable argpartition : list R -> nat -> list nat.
Hypothesis argsort_ok : argsort_spec argsort.
Hypothesis argpartition_ok : argpartition_spec argpartition.

Lemma indexed_retrieve_scores facts s tokens :
  indexed tokenize facts s -> no_caches s ->
  (1 < size (all_tokens s))%nat ->
  (∀ t, t ∈ tokens -> is_Some (all_tokens s !! t)) ->
  ∃ res s',
    retrieve_scores tokens s = (Ok res, s') ∧
    same_outside_caches s s' ∧
    ∀ e, e ∈ res ->
      ∃ t i text, t ∈ tokens ∧ e.1 = Z.of_nat i ∧
                  facts !! i = Some text ∧ t ∈ tokenize text.
Proof.
  intros Hix Hnc HT Hin.
  destruct (indexed_tfidf tokenize facts s Hix Hnc HT)
    as (W & cm & d & s1 & Htf & Hsame & Hcaches & Hd & Hshape & Hsupp & _).
  destruct Hix as (_ & _ & _ & _ & _ & [acc Hacc] & _ & _).
  destruct (present_wids (all_tokens s) tokens Hin) as [wids Hwids].
  injection Hcaches as Hc1 Hc2 Hc3 Hc4 Hc5.
  assert (Hv1 : all_tokens s1 = all_tokens s) by (by destruct Hsame).
  destruct (np_unique_spec Z.compare wids) as (_ & Hkeys & _).
  assert (Hwid_tok : ∀ w, w ∈ wids ->
            ∃ t, t ∈ tokens ∧ all_tokens s !! t = Some w).
  { intros w Hw. apply list_elem_of_lookup in Hw as [j Hj].
    destruct (Forall2_lookup_r _ _ _ _ _ Hwids Hj) as (t & Ht & Htw).
    exists t. split; [by eapply list_elem_of_lookup_2|done]. }
  assert (HNs : is_Some (mapM (np_index d) (np_unique Z.compare wids).*1)).
  { apply mapM_is_Some_2, Forall_forall. intros w Hw.
    apply Hkeys, Hwid_tok in Hw as (t & _ & Ht).
    pose proof (enumerates_range _ _ _ _ Hacc Ht) as Hr.
    cbn. unfold np_index.
    replace (0 <=? w) with true by (symmetry; apply Z.leb_le; lia).
    apply lookup_lt_is_Some_2. lia. }
  destruct HNs as [Ns HNs].
  eexists _, s1. split; [|split; [done|]].
  - unfold retrieve_scores, bind at 1. rewrite Htf.
    unfold bind at 1.
    rewrite (map_each_token2id_present tokens wids s1)
      by (by rewrite Hv1).
    cbv zeta. unfold bind at 1, get_state. rewrite Hc3.
    replace (is_0d d) with false
      by (symmetry; unfold is_0d; apply Nat.eqb_neq; lia).
    rewrite HNs.
    unfold bind at 1, get_num_docs. rewrite Hc4.
    unfold bind at 1, get_num_tokens. rewrite Hc5.
    unfold bind at 1, get_state. rewrite Hc1.
    rewrite decide_True by (by rewrite Hshape).
    reflexivity.
  - intros e He.
    apply sparse_row_dot_support in He as (k & Hk1 & Hk2 & [w Hw]).
    destruct (Hsupp k w Hw) as (t & i & text & Ht & Hi & Htext & Hocc).
    apply list_elem_of_fmap in Hk1 as ([a b] & Hab & Hzip).
    apply elem_of_zip_l in Hzip. cbn in Hab. subst a.
    apply Hkeys, Hwid_tok in Hzip as (t' & Ht' & Hid).
    assert (t = t') by (by eapply enumerates_inj). subst t'.
    exists t, i, text. rewrite <- Hk2. done.
Qed.

Lemma indexed_retrieve facts s query k :
  indexed tokenize facts s -> no_caches s ->
  (1 < size (all_tokens s))%nat -> 0 <= k ->
  ∃ out s',
    retrieve tokenize argsort argpartition query k s = (Ok out, s') ∧
    Z.of_nat (length out) <= k ∧
    Forall (fun text => text ∈ facts ∧
                        ∃ t, t ∈ tokenize query ∧ t ∈ tokenize text) out.
Proof.
  intros Hix Hnc HT Hk.
  unfold retrieve, bind at 1, get_state.
  destruct (filter _ (tokenize query)) as [|t0 l0] eqn:Hf.
  { exists [], s. split; [done|]. split; [cbn; lia|constructor]. }
  rewrite <- Hf.
  destruct (indexed_retrieve_scores facts s
              (filter (fun t => is_Some (all_tokens s !! t))
                 (tokenize query)) Hix Hnc HT)
    as (res & s1 & Hsc & Hsame & Hsupp).
  { intros t Ht. by apply list_elem_of_filter in Ht as [? _]. }
  destruct Hix as (_ & _ & _ & Hh & Hrows & _).
  assert (Hst : store s1 = store s)
    by (by destruct Hsame as (_ & _ & _ & _ & _ & _ & _ & ? & _)).
  destruct (retrieve_tail_top argsort argpartition argsort_ok
              argpartition_ok res k s1 Hk)
    as (ranked & rest & out & Hrun & Hall & Hperm & Hlen & _).
  { by rewrite Hst. }
  { intros id (e & -> & He)%list_elem_of_fmap.
    destruct (Hsupp e He) as (t & i & text & _ & Hi & Htext & _).
    rewrite Hst, Hrows, Hi. rewrite decide_True by lia.
    rewrite Nat2Z.id. by eexists. }
  exists out, s1. split.
  { unfold bind. by rewrite Hsc. }
  split.
  { apply Forall2_length in Hall. lia. }
  apply Forall_forall. intros text Htext.
  apply list_elem_of_lookup in Htext as [j Hj].
  destruct (Forall2_lookup_r _ _ _ _ _ Hall Hj) as (e & He & Hrow).
  assert (Hres : e ∈ res).
  { rewrite Hperm. apply elem_of_app. left.
    by eapply list_elem_of_lookup_2. }
  destruct (Hsupp e Hres) as (t & i & text' & Ht & Hi & Htext' & Hocc).
  rewrite Hst, Hrows, Hi in Hrow. rewrite decide_True in Hrow by lia.
  rewrite Nat2Z.id in Hrow. assert (text' = text) by congruence. subst text'.
  split; [by eapply list_elem_of_lookup_2|].
  exists t. split; [|done].
  by apply list_elem_of_filter in Ht as [_ ?].
Qed.

End IndexedRetrieval.

(** X8. After the ingestion of [facts] into a new agent whose vocabulary
    has at least two tokens, [retrieve] with a non-negative [max_results]
    succeeds for every query, yields at most [max_results] texts, and
    every text it yields is one of the ingested facts and has a token in
    common with the query. *)
Theorem retrieve_yields_facts_sharing_a_token
  (tokenize : string -> list string)
  (argsort : list R -> list nat) (argpartition : list R -> nat -> list nat)
  (facts : list string) (query : string) (max_results : Z) :
  argsort_spec argsort -> argpartition_spec argpartition ->
  Z.of_nat (length facts) < 2 ^ 31 ->
  let s := (ingest tokenize facts init_agent).2 in
  (1 < size (all_tokens s))%nat ->
  0 <= max_results ->
  ∃ out s',
    retrieve tokenize argsort argpartition query max_results s
      = (Ok out, s') ∧
    Z.of_nat (length out) <= max_results ∧
    Forall (fun text => text ∈ facts ∧
                        ∃ t, t ∈ tokenize query ∧ t ∈ tokenize text) out.
Proof.
  intros Hsort Hpart Hlen s HT Hk.
  destruct (ingest_indexed tokenize facts [] init_agent)
    as (s0 & Hrun & Hix & Hnc & _).
  { apply init_agent_indexed. } { done. } { cbn. lia. }
  cbn [app] in Hix. subst s. rewrite Hrun in HT |- *. cbn [snd] in *.
  by apply indexed_retrieve.
Qed.

Lemma retrieve_yields_facts_sharing_a_token_witness :
  ∃ out s',
    retrieve blank_tokenize sort_positions sort_partition "c a" 1
      (ingest blank_tokenize ["a b a"; "b c"; "d"] init_agent).2
      = (Ok out, s') ∧
    Forall (fun text => text ∈ ["a b a"; "b c"; "d"]) out.
Proof.
  destruct (retrieve_yields_facts_sharing_a_token blank_tokenize
              sort_positions sort_partition ["a b a"; "b c"; "d"] "c a" 1)
    as (out & s' & Hrun & _ & Hall).
  - exact sort_positions_argsort.
  - exact sort_partition_argpartition.
  - vm_compute. reflexivity.
  - vm_compute. lia.
  - lia.
  - exists out, s'. split; [exact Hrun|].
    eapply Forall_impl; [exact Hall|]. intros text [Hin _]. exact Hin.
Defined.

(** X9. An index whose vocabulary consists of exactly one token cannot be
    queried: after the ingestion of [facts] into a new agent,
    [compute_tfidf] raises TypeError (the document frequencies of a
    one-row matrix are squeezed to a 0-d array, whose idf is a scalar that
    the masked assignment cannot index), and so does [retrieve] for every
    query that contains the token. *)
Theorem single_token_vocabulary_raises (tokenize : string -> list string)
  (argsort : list R -> list nat) (argpartition : list R -> nat -> list nat)
  (facts : list string) (query : string) (max_results : Z) :
  Z.of_nat (length facts) < 2 ^ 31 ->
  let s := (ingest tokenize facts init_agent).2 in
  size (all_tokens s) = 1%nat ->
  (compute_tfidf s).1 = Raise TypeError ∧
  ((∃ t, t ∈ tokenize query ∧ is_Some (all_tokens s !! t)) ->
   (retrieve tokenize argsort argpartition query max_results s).1
   = Raise TypeError).
Proof.
  intros Hlen s HT.
  destruct (ingest_indexed tokenize facts [] init_agent)
    as (s0 & Hrun & Hix & Hnc & _).
  { apply init_agent_indexed. } { done. } { cbn. lia. }
  cbn [app] in Hix. subst s. rewrite Hrun in HT |- *. cbn [snd] in *.
  destruct (indexed_count_matrix tokenize facts s0 Hix Hnc)
    as (cm & Hcm & Hshape & _).
  assert (Htf : (compute_tfidf s0).1 = Raise TypeError).
  { unfold compute_tfidf, bind. rewrite Hcm.
    unfold _compute_tfidf_from_count_matrix, bind, get_state, get_doc_freqs.
    injection Hnc as Htf Hc Hdf Hnd Hnt.
    replace (tfidfs (set_count_matrix _ _)) with (@None WeightMatrix)
      by (by destruct s0).
    replace (doc_freqs (set_count_matrix _ _)) with (@None (list Z))
      by (by destruct s0).
    replace (is_0d (doc_freq_vector cm)) with true; [done|].
    symmetry. unfold is_0d. apply Nat.eqb_eq.
    pose proof (length_doc_freq_vector cm) as Hl. rewrite Hshape in Hl.
    cbn in Hl. lia. }
  split; [done|].
  intros (t & Ht & Hknown).
  unfold retrieve, bind at 1, get_state.
  destruct (filter _ (tokenize query)) as [|t0 l0] eqn:Hf.
  { assert (Hin : t ∈ filter (fun t => is_Some (all_tokens s0 !! t))
                        (tokenize query))
      by (by apply list_elem_of_filter).
    rewrite Hf in Hin. by apply elem_of_nil in Hin. }
  unfold bind, retrieve_scores, bind.
  destruct (compute_tfidf s0) as [[w|e|] s1]; cbn in Htf; try done.
  by injection Htf as ->.
Qed.

Lemma single_token_vocabulary_raises_witness :
  (retrieve blank_tokenize sort_positions sort_partition "a" 10
     (ingest blank_tokenize ["a"; "a a"] init_agent).2).1
  = Raise TypeError.
Proof.
  destruct (single_token_vocabulary_raises blank_tokenize sort_positions
              sort_partition ["a"; "a a"] "a" 10) as [_ Hretrieve].
  - vm_compute. reflexivity.
  - vm_compute. reflexivity.
  - apply Hretrieve. exists "a". split.
    + apply (bool_decide_unpack _). vm_compute. exact I.
    + vm_compute. by eexists.
Defined.

Section NegativeEdge.

Variable tokenize : string -> list string.
Variable argsort : list R -> list nat.
Variable argpartition : list R -> nat -> list nat.
Hypothesis argsort_ok : argsort_spec argsort.
Hypothesis argpartition_ok : argpartition_spec argpartition.

Lemma retrieve_tail_below_range (res : list (Z * R)) (k : Z) (s : Agent) :
  res ≠ [] ->
  Z.of_nat (length res) + k < 0 ->
  retrieve_tail argsort argpartition res k s = (Raise ValueError, s).
Proof.
  intros Hres Hk.
  assert (Hlen : Z.of_nat (length res) ≠ 0) by (destruct res; cbn; [done|lia]).
  unfold retrieve_tail, bind, lift_outcome, retrieve_order,
    np_argpartition.
  rewrite length_fmap.
  rewrite (proj2 (Z.leb_gt _ _)) by lia.
  rewrite length_map, length_fmap.
  rewrite (proj2 (Z.eqb_neq _ _)) by done.
  rewrite (proj2 (Z.ltb_lt _ _)) by lia.
  replace (0 <=? k + Z.of_nat (length res)) with false; [done|].
  symmetry. apply Z.leb_gt. lia.
Qed.

Lemma retrieve_tail_nothing_scored (k : Z) (s : Agent) :
  k < 0 -> retrieve_tail argsort argpartition [] k s = (Ok [], s).
Proof.
  intros Hk.
  assert (Hnil : argsort [] = []).
  { destruct (argsort_ok []) as [Hperm _].
    by apply Permutation_nil_r in Hperm. }
  unfold retrieve_tail, bind, lift_outcome, retrieve_order,
    np_argpartition, slice_to.
  cbn [fmap list_fmap length map].
  rewrite (proj2 (Z.leb_gt _ _)) by lia.
  change (Z.of_nat 0 =? 0) with true. cbn iota.
  rewrite (proj2 (Z.leb_gt _ _)) by lia.
  cbn. rewrite take_nil. cbn. rewrite Hnil. done.
Qed.

Lemma retrieve_negative (s : Agent) (query : string) (k : Z)
  (res : list (Z * R)) (s1 : Agent) :
  k < 0 ->
  let tokens :=
    filter (fun t => is_Some (all_tokens s !! t)) (tokenize query) in
  tokens ≠ [] ->
  retrieve_scores tokens s = (Ok res, s1) ->
  healthy (store s1) = true ->
  (∀ id, id ∈ res.*1 -> is_Some (rows (store s1) !! id)) ->
  (0 <= Z.of_nat (length res) + k ->
   ∃ out, retrieve tokenize argsort argpartition query k s = (Ok out, s1) ∧
          Z.of_nat (length out) = Z.of_nat (length res) + k) ∧
  (Z.of_nat (length res) + k < 0 -> res ≠ [] ->
   retrieve tokenize argsort argpartition query k s
   = (Raise ValueError, s1)) ∧
  (res = [] ->
   retrieve tokenize argsort argpartition query k s = (Ok [], s1)).
Proof.
  intros Hk tokens Htok Hsc Hh Hstore.
  assert (Hre : retrieve tokenize argsort argpartition query k s
                = retrieve_tail argsort argpartition res k s1).
  { unfold retrieve, bind at 1, get_state. fold tokens.
    destruct tokens as [|t l]; [done|]. unfold bind. by rewrite Hsc. }
  rewrite Hre. split.
  - intros Hn.
    destruct (retrieve_tail_negative argsort argpartition argsort_ok
                argpartition_ok res k s1 Hk Hn Hh Hstore)
      as (out & Hrun & Hlen).
    exists out. split; [done|]. lia.
  - split.
    + intros Hn Hres. by apply retrieve_tail_below_range.
    + intros ->. by apply retrieve_tail_nothing_scored.
Qed.

End NegativeEdge.

(** X10. A negative [max_results] is not rejected.  When the query has
    [m] facts with a stored score, [retrieve] with [-m <= max_results <
    0] yields [m + max_results] facts (all but [-max_results] of them);
    with [max_results < -m] and [m > 0] it raises ValueError (from
    [np.argpartition]); and with [m = 0] it yields nothing and raises
    nothing, whatever the negative [max_results]. *)
Theorem retrieve_negative_max_results (tokenize : string -> list string)
  (argsort : list R -> list nat) (argpartition : list R -> nat -> list nat)
  (s : Agent) (query : string) (max_results : Z)
  (res : list (Z * R)) (s1 : Agent) :
  argsort_spec argsort -> argpartition_spec argpartition ->
  max_results < 0 ->
  let tokens :=
    filter (fun t => is_Some (all_tokens s !! t)) (tokenize query) in
  tokens ≠ [] ->
  retrieve_scores tokens s = (Ok res, s1) ->
  healthy (store s1) = true ->
  (∀ id, id ∈ res.*1 -> is_Some (rows (store s1) !! id)) ->
  (0 <= Z.of_nat (length res) + max_results ->
   ∃ out,
     retrieve tokenize argsort argpartition query max_results s
       = (Ok out, s1) ∧
     Z.of_nat (length out) = Z.of_nat (length res) + max_results) ∧
  (Z.of_nat (length res) + max_results < 0 -> res ≠ [] ->
   retrieve tokenize argsort argpartition query max_results s
   = (Raise ValueError, s1)) ∧
  (res = [] ->
   retrieve tokenize argsort argpartition query max_results s
   = (Ok [], s1)).
Proof. intros Hsort Hpart. by apply retrieve_negative. Qed.

Lemma retrieve_negative_max_results_witness :
  retrieve blank_tokenize sort_positions sort_partition "cat" (-3)
    five_facts_agent
  = (Raise ValueError, five_facts_cat_state).
Proof.
  destruct five_facts_cat_res_entries as [v Hv].
  destruct (retrieve_negative_max_results blank_tokenize sort_positions
              sort_partition five_facts_agent "cat" (-3) five_facts_cat_res
              five_facts_cat_state) as (_ & Hraise & _).
  - exact sort_positions_argsort.
  - exact sort_partition_argpartition.
  - lia.
  - replace (filter _ (blank_tokenize "cat")) with ["cat"]
      by (vm_compute; reflexivity).
    discriminate.
  - replace (filter _ (blank_tokenize "cat")) with ["cat"]
      by (vm_compute; reflexivity).
    apply five_facts_cat_retrieve_scores.
  - reflexivity.
  - apply five_facts_cat_in_store.
  - apply Hraise.
    + rewrite Hv. cbn. lia.
    + intros Heq. apply Permutation_length in Hv. rewrite Heq in Hv.
      cbn [length] in Hv. lia.
Defined.

(** * The merge of the workers' buffers *)

Lemma put_freqs_in_step ft : ∀ ff fq,
  length ft = length ff -> length fq = length ff ->
  put_freqs ft ff fq = (triple_message <$> zip (zip ft ff) fq, Ok tt).
Proof.
  induction ft as [|t ft IH]; intros [|f ff] [|q fq] H1 H2;
    cbn in H1, H2; try done.
  cbn [put_freqs zip zip_with fmap list_fmap].
  rewrite (IH ff fq) by lia. done.
Qed.

Lemma shutdown_worker_ok dict_items w :
  worker_ok w ->
  shutdown_worker dict_items w
  = ((pair_message <$> dict_items (all_tokens w)) ++
     (triple_message <$> worker_triples w) ++ [PStr END_OF_DATA], Ok tt).
Proof.
  intros (H1 & H2 & _). unfold shutdown_worker.
  by rewrite put_freqs_in_step.
Qed.

Lemma length_filter_same (P P' : nat -> Prop) `{∀ i, Decision (P i)}
  `{∀ i, Decision (P' i)} (l : list nat) :
  (∀ j, j ∈ l -> (P j ↔ P' j)) ->
  length (filter P' l) = length (filter P l).
Proof.
  intros HPP. induction l as [|x l IH]; [done|].
  rewrite !filter_cons.
  pose proof (HPP x (list_elem_of_here _ _)) as Hx.
  assert (Hl : length (filter P' l) = length (filter P l))
    by (apply IH; intros j Hj; apply HPP; by apply list_elem_of_further).
  destruct (decide (P' x)), (decide (P x)); cbn [length]; tauto || lia.
Qed.

Lemma length_filter_one_more (P P' : nat -> Prop) `{∀ i, Decision (P i)}
  `{∀ i, Decision (P' i)} (K i : nat) :
  (i < K)%nat -> ¬ P i -> P' i -> (∀ j, j ≠ i -> (P j ↔ P' j)) ->
  length (filter P' (seq 0 K)) = S (length (filter P (seq 0 K))).
Proof.
  intros Hi HnP HP' HPP.
  replace K with (i + S (K - S i))%nat by lia.
  rewrite seq_app. cbn [seq Nat.add]. rewrite !filter_app, !filter_cons.
  rewrite decide_True by done. rewrite decide_False by done.
  rewrite !length_app. cbn [length].
  rewrite (length_filter_same P P' (seq 0 i)).
  2:{ intros j Hj%elem_of_seq. apply HPP. lia. }
  rewrite (length_filter_same P P' (seq (S i) _)).
  2:{ intros j Hj%elem_of_seq. apply HPP. lia. }
  lia.
Qed.

Lemma length_filter_all (P : nat -> Prop) `{∀ i, Decision (P i)}
  (l : list nat) :
  length (filter P l) = length l ↔ Forall P l.
Proof.
  induction l as [|x l IH].
  - split; [constructor|done].
  - rewrite filter_cons. pose proof (length_filter P l) as Hle.
    destruct (decide (P x)) as [HP|HP]; cbn [length].
    + split.
      * intros Hl. constructor; [done|]. apply IH. lia.
      * intros Hall. apply Forall_cons in Hall as [_ Hall].
        apply IH in Hall. lia.
    + split; [lia|]. by intros [? _]%Forall_cons.
Qed.

Lemma concat_insert_snoc {A} (ls : list (list A)) i l x :
  ls !! i = Some l -> concat (<[i := l ++ [x]]> ls) ≡ₚ concat ls ++ [x].
Proof.
  revert i. induction ls as [|l0 ls IH]; intros [|i] Hl; cbn in *; try done.
  - injection Hl as ->. rewrite <- !app_assoc.
    apply Permutation_app_head. apply Permutation_app_comm.
  - rewrite (IH i Hl). by rewrite app_assoc.
Qed.

Lemma token2id_str_dom t s i s' :
  token2id (VStr t) s = (Ok i, s') ->
  ∀ u, is_Some (all_tokens s' !! u) -> is_Some (all_tokens s !! u) ∨ u = t.
Proof.
  unfold token2id. case_decide as Hn; cbn.
  - rewrite lookup_insert_eq. intros [= <- <-] u. cbn.
    destruct (decide (u = t)) as [->|Hne]; [by right|].
    rewrite lookup_insert_ne by done. by left.
  - destruct (all_tokens s !! t); [|done]. intros [= <- <-] u. by left.
Qed.

Lemma process_data_pair i s t g' rest tbl :
  process_data_finished s !! i = Some false ->
  comm_queues s !! i = Some (pair_message (t, g') :: rest) ->
  child_token_map s !! i = Some tbl ->
  ∃ g s2,
    token2id (VStr t) (set_comm_queues (<[i := rest]> (comm_queues s)) s)
      = (Ok g, s2) ∧
    _process_data i s
      = (Ok tt, set_child_token_map
                  (<[i := <[VInt g' := g]> tbl]> (child_token_map s2)) s2).
Proof.
  intros Hfin Hq Htbl.
  set (s1 := set_comm_queues _ s).
  destruct (token2id_str_spec t s1)
    as (g & s2 & Hid & _ & _ & _ & _ & _ & _ & Hsame).
  exists g, s2. split; [done|].
  unfold _process_data, bind at 1, get_state. rewrite Hfin.
  unfold bind at 1, queue_get. rewrite Hq. fold s1.
  rewrite decide_False by done. cbn [py_len pair_message length py_items].
  unfold bind. cbn [fst snd]. rewrite Hid. unfold set_translation.
  destruct Hsame as (_ & _ & _ & _ & _ & _ & _ & _ & _ & _ & Hctm).
  rewrite Hctm.
  replace (child_token_map s1) with (child_token_map s)
    by (subst s1; by destruct s).
  by rewrite Htbl.
Qed.

Lemma process_data_triple i s tok fact freq rest tbl g :
  process_data_finished s !! i = Some false ->
  comm_queues s !! i = Some (triple_message (tok, fact, freq) :: rest) ->
  child_token_map s !! i = Some tbl ->
  tbl !! VInt tok = Some g ->
  _process_data i s
  = (Ok tt,
     set_freqs (freq_token s ++ [g]) (freq_fact_id s ++ [fact])
       (freq_freq s ++ [freq])
       (set_comm_queues (<[i := rest]> (comm_queues s)) s)).
Proof.
  intros Hfin Hq Htbl Hg.
  unfold _process_data, bind at 1, get_state. rewrite Hfin.
  unfold bind at 1, queue_get. rewrite Hq.
  rewrite decide_False by done.
  cbn [py_len triple_message length py_items fst snd].
  unfold bind at 1, get_translation.
  replace (child_token_map (set_comm_queues _ s)) with (child_token_map s)
    by (by destruct s).
  rewrite Htbl, Hg. unfold new_freq, bind, token2id, modify.
  by destruct s.
Qed.

Lemma process_data_eod i s rest :
  process_data_finished s !! i = Some false ->
  comm_queues s !! i = Some (PStr END_OF_DATA :: rest) ->
  _process_data i s
  = (Ok tt,
     set_finished (<[i := true]> (process_data_finished s))
       (finished_cnt s + 1)
       (set_comm_queues (<[i := rest]> (comm_queues s)) s)).
Proof.
  intros Hfin Hq.
  unfold _process_data, bind at 1, get_state. rewrite Hfin.
  unfold bind at 1, queue_get. rewrite Hq.
  rewrite decide_True by done. unfold modify. by destruct s.
Qed.

Lemma translates_weaken vw v v' old new :
  v ⊆ v' -> translates vw v old new -> translates vw v' old new.
Proof.
  intros Hsub (H1 & H2 & t & Ht & Hg). split; [done|]. split; [done|].
  exists t. split; [done|]. by eapply lookup_weaken.
Qed.

Lemma merged_triples_weaken dict_items w k v v' nw :
  v ⊆ v' -> merged_triples dict_items w k v nw ->
  merged_triples dict_items w k v' nw.
Proof.
  intros Hsub. unfold merged_triples. intros H.
  eapply Forall2_impl; [exact H|].
  intros old new. by apply translates_weaken.
Qed.

Lemma chan_inv_other dict_items w k cur cur' j :
  chan_inv dict_items w k cur j ->
  comm_queues cur' !! j = comm_queues cur !! j ->
  process_data_finished cur' !! j = process_data_finished cur !! j ->
  child_token_map cur' !! j = child_token_map cur !! j ->
  all_tokens cur ⊆ all_tokens cur' ->
  chan_inv dict_items w k cur' j.
Proof.
  intros (Hle & Hq & Hfin & tbl & Htbl & Htrans) Hq' Hfin' Htbl' Hsub.
  split; [done|]. split; [by rewrite Hq'|]. split; [by rewrite Hfin'|].
  exists tbl. split; [by rewrite Htbl'|].
  intros t g' Hin. destruct (Htrans t g' Hin) as (g & Hg & Hv).
  exists g. split; [done|]. by eapply lookup_weaken.
Qed.

Section Merge.

Variable dict_items : gmap string Z -> list (string * Z).
Hypothesis dict_items_ok : ∀ m, dict_items m ≡ₚ map_to_list m.
Variable ws : list Agent.
Hypothesis ws_ok : Forall worker_ok ws.
Variable m0 : Agent.

Lemma dict_items_elem m t g : (t, g) ∈ dict_items m ↔ m !! t = Some g.
Proof. rewrite dict_items_ok. apply elem_of_map_to_list. Qed.

Lemma stream_at_worker i w :
  ws !! i = Some w ->
  stream_at dict_items ws i = (shutdown_worker dict_items w).1.
Proof. intros H. unfold stream_at. by rewrite H. Qed.

Lemma worker_stream w :
  w ∈ ws ->
  (shutdown_worker dict_items w).1
  = (pair_message <$> dict_items (all_tokens w)) ++
    (triple_message <$> worker_triples w) ++ [PStr END_OF_DATA].
Proof.
  intros Hw. rewrite Forall_forall in ws_ok.
  by rewrite (shutdown_worker_ok _ _ (ws_ok _ Hw)).
Qed.

(** A finished channel is passed over. *)
Lemma merge_step_finished n cur i w :
  merge_inv dict_items ws m0 n cur -> ws !! i = Some w ->
  n i = length (shutdown_worker dict_items w).1 ->
  _process_data i cur = (Ok tt, cur).
Proof.
  intros (_ & _ & Hchan & _) Hw Hn.
  destruct (Hchan i w Hw) as (_ & _ & Hfin & _). cbv zeta in Hfin.
  rewrite bool_decide_eq_true_2 in Hfin by done.
  by apply process_data_finished_skip.
Qed.

(** The next message of channel [i] is a pair. *)
Lemma merge_step_pair n cur i w t g' :
  merge_inv dict_items ws m0 n cur -> ws !! i = Some w ->
  dict_items (all_tokens w) !! n i = Some (t, g') ->
  ∃ cur', _process_data i cur = (Ok tt, cur') ∧
          merge_inv dict_items ws m0
            (fun j => if decide (j = i) then S (n i) else n j) cur'.
Proof.
  intros (Hlen & Hcnt & Hchan & Hsub & Hdom & Hen
          & (news & new & Hnl & Hnews & Hperm & Hft & Hff & Hfq)
          & Hc1 & Hc2 & Hc3 & Hc4 & Hc5 & Hc6 & Hc7) Hw Hpair.
  assert (Hwin : w ∈ ws) by (by eapply list_elem_of_lookup_2).
  pose proof (worker_stream w Hwin) as Hstream.
  destruct (Hchan i w Hw) as (Hle & Hq & Hfin & tbl & Htbl & Htrans).
  cbv zeta in Hle, Hq, Hfin.
  set (pairs := dict_items (all_tokens w)) in *.
  set (stream := (shutdown_worker dict_items w).1) in *.
  assert (Hlt : (n i < length pairs)%nat) by (by eapply lookup_lt_Some).
  assert (Hslen : length stream
                  = (length pairs + length (worker_triples w) + 1)%nat).
  { rewrite Hstream, !length_app, !length_fmap. cbn. lia. }
  assert (Hmsg : stream !! n i = Some (pair_message (t, g'))).
  { rewrite Hstream, lookup_app_l by (by rewrite length_fmap).
    by rewrite list_lookup_fmap, Hpair. }
  rewrite (drop_S _ _ _ Hmsg) in Hq.
  rewrite bool_decide_eq_false_2 in Hfin by lia.
  set (s1 := set_comm_queues (<[i := drop (S (n i)) stream]> (comm_queues cur))
               cur).
  destruct (token2id_str_spec t s1)
    as (g & s2 & Hid & Hg & Hsub2 & Hen2 & Hft2 & Hff2 & Hfq2 & Hsame).
  pose proof (token2id_str_dom t s1 g s2 Hid) as Hdom2.
  destruct Hsame as (Hs1 & Hs2 & Hs3 & Hs4 & Hs5 & Hs6 & Hs7 & Hs8 & Hs9
                     & Hs10 & Hs11).
  destruct (process_data_pair i cur t g' _ tbl Hfin Hq Htbl)
    as (g0 & s20 & Hid0 & Hrun).
  fold s1 in Hid0. rewrite Hid in Hid0. injection Hid0 as <- <-.
  eexists. split; [exact Hrun|].
  set (cur' := set_child_token_map _ s2).
  assert (Hv' : all_tokens cur' = all_tokens s2) by (by destruct s2).
  assert (Hvsub : all_tokens cur ⊆ all_tokens cur').
  { rewrite Hv'. etrans; [|exact Hsub2]. subst s1. by destruct cur. }
  assert (Hq' : comm_queues cur'
                = <[i := drop (S (n i)) stream]> (comm_queues cur)).
  { transitivity (comm_queues s2); [by destruct s2|].
    rewrite Hs8. subst s1. by destruct cur. }
  assert (Hfin' : process_data_finished cur' = process_data_finished cur).
  { transitivity (process_data_finished s2); [by destruct s2|].
    rewrite Hs9. subst s1. by destruct cur. }
  assert (Htbl' : child_token_map cur'
                  = <[i := <[VInt g' := g]> tbl]> (child_token_map cur)).
  { subst cur'. destruct s2; cbn in *. rewrite Hs11. subst s1.
    by destruct cur. }
  split; [by rewrite Hq', length_insert|].
  split.
  { transitivity (finished_cnt cur).
    { transitivity (finished_cnt s2); [by destruct s2|].
      rewrite Hs10. subst s1. by destruct cur. }
    rewrite Hcnt. f_equal. symmetry. apply length_filter_same.
    intros j Hj. case_decide as Hji; [|done]. subst j.
    rewrite (stream_at_worker i w Hw). fold stream. lia. }
  split.
  { intros j w' Hw'. case_decide as Hji.
    - subst j. assert (w' = w) by congruence. subst w'.
      split; [cbv zeta; fold stream; lia|].
      split; [cbv zeta; fold stream; rewrite Hq';
              apply list_lookup_insert_eq; by eapply lookup_lt_Some|].
      split.
      { cbv zeta. fold stream. rewrite Hfin', Hfin. f_equal.
        symmetry. apply bool_decide_eq_false_2. lia. }
      exists (<[VInt g' := g]> tbl). split.
      { rewrite Htbl'. apply list_lookup_insert_eq. by eapply lookup_lt_Some. }
      intros u h' Hin. fold pairs in Hin.
      rewrite (take_S_r _ _ _ Hpair) in Hin.
      apply elem_of_app in Hin as [Hin|Hin].
      + destruct (Htrans u h' Hin) as (h & Hh & Hu).
        destruct (decide (h' = g')) as [->|Hne].
        * assert (u = t).
          { rewrite Forall_forall in ws_ok.
            destruct (ws_ok w Hwin) as (_ & _ & Hinj & _).
            apply (Hinj u t g').
            - apply dict_items_elem. apply elem_of_take in Hin
                as (k & Hk & _). by eapply list_elem_of_lookup_2.
            - apply dict_items_elem. by eapply list_elem_of_lookup_2. }
          subst u. exists g. split; [by rewrite lookup_insert_eq|].
          by rewrite Hv'.
        * exists h. split.
          -- rewrite lookup_insert_ne; [done|]. congruence.
          -- by eapply lookup_weaken.
      + apply list_elem_of_singleton in Hin. injection Hin as -> ->.
        exists g. split; [by rewrite lookup_insert_eq|]. by rewrite Hv'.
    - apply (chan_inv_other _ _ _ cur); [by apply Hchan| | | |done].
      + rewrite Hq'. by apply list_lookup_insert_ne.
      + by rewrite Hfin'.
      + rewrite Htbl'. by apply list_lookup_insert_ne. }
  split; [by etrans|].
  split.
  { intros u Hu. rewrite Hv' in Hu. destruct (Hdom2 u Hu) as [Hu1| ->].
    - apply Hdom. subst s1. by destruct cur.
    - right. exists w. split; [done|]. exists g'.
      apply dict_items_elem. by eapply list_elem_of_lookup_2. }
  split.
  { intros acc Hacc. destruct (Hen acc Hacc) as [acc1 Hacc1].
    rewrite Hv'. eexists. apply Hen2. subst s1. destruct cur. exact Hacc1. }
  split.
  { exists news, new. split; [done|]. split.
    - intros j w' Hw'. destruct (Hnews j w' Hw') as (nw & Hnw & Hall).
      exists nw. split; [done|].
      apply (merged_triples_weaken _ _ _ (all_tokens cur)); [done|].
      case_decide as Hji; [|done]. subst j.
      assert (w' = w) by congruence. subst w'.
      unfold merged_triples in *. fold pairs in Hall |- *.
      replace (S (n i) - length pairs)%nat with (n i - length pairs)%nat
        by lia. done.
    - split; [done|].
      assert (Hb : freq_token cur' = freq_token cur ∧
                   freq_fact_id cur' = freq_fact_id cur ∧
                   freq_freq cur' = freq_freq cur).
      { subst cur'. destruct s2; cbn in *. subst s1. destruct cur; cbn in *.
        by subst. }
      destruct Hb as (-> & -> & ->). done. }
  clear -Hs1 Hs2 Hs3 Hs4 Hs5 Hs6 Hs7 Hc1 Hc2 Hc3 Hc4 Hc5 Hc6 Hc7.
  subst cur' s1. unfold caches in *. cbn in *. repeat split; congruence.
Qed.

(** The next message of channel [i] is a triple. *)
Lemma merge_step_triple n cur i w tr :
  merge_inv dict_items ws m0 n cur -> ws !! i = Some w ->
  (length (dict_items (all_tokens w)) <= n i)%nat ->
  worker_triples w !! (n i - length (dict_items (all_tokens w)))%nat
    = Some tr ->
  ∃ cur', _process_data i cur = (Ok tt, cur') ∧
          merge_inv dict_items ws m0
            (fun j => if decide (j = i) then S (n i) else n j) cur'.
Proof.
  intros (Hlen & Hcnt & Hchan & Hsub & Hdom & Hen
          & (news & new & Hnl & Hnews & Hperm & Hft & Hff & Hfq)
          & Hc1 & Hc2 & Hc3 & Hc4 & Hc5 & Hc6 & Hc7) Hw Hge Htr.
  assert (Hwin : w ∈ ws) by (by eapply list_elem_of_lookup_2).
  pose proof (worker_stream w Hwin) as Hstream.
  destruct (Hchan i w Hw) as (Hle & Hq & Hfin & tbl & Htbl & Htrans).
  cbv zeta in Hle, Hq, Hfin.
  set (pairs := dict_items (all_tokens w)) in *.
  set (stream := (shutdown_worker dict_items w).1) in *.
  assert (Hlt : (n i - length pairs < length (worker_triples w))%nat)
    by (by eapply lookup_lt_Some).
  assert (Hslen : length stream
                  = (length pairs + length (worker_triples w) + 1)%nat).
  { rewrite Hstream, !length_app, !length_fmap. cbn. lia. }
  assert (Hmsg : stream !! n i = Some (triple_message tr)).
  { rewrite Hstream, lookup_app_r by (rewrite length_fmap; lia).
    rewrite length_fmap, lookup_app_l by (by rewrite length_fmap).
    by rewrite list_lookup_fmap, Htr. }
  rewrite (drop_S _ _ _ Hmsg) in Hq.
  rewrite bool_decide_eq_false_2 in Hfin by lia.
  destruct tr as [[tok fact] freq].
  assert (Htok : ∃ t, all_tokens w !! t = Some tok).
  { rewrite Forall_forall in ws_ok.
    destruct (ws_ok w Hwin) as (_ & _ & _ & Hall).
    rewrite Forall_forall in Hall. apply Hall.
    apply list_elem_of_lookup_2 in Htr. unfold worker_triples in Htr.
    apply elem_of_zip_l in Htr. by apply elem_of_zip_l in Htr. }
  destruct Htok as [t Ht].
  destruct (Htrans t tok) as (g & Hg & Hvg).
  { rewrite take_ge by done. by apply dict_items_elem. }
  eexists. split.
  { eapply process_data_triple; [exact Hfin|exact Hq|exact Htbl|exact Hg]. }
  set (cur' := set_freqs _ _ _ _).
  assert (Hv' : all_tokens cur' = all_tokens cur) by (by destruct cur).
  assert (Hq' : comm_queues cur'
                = <[i := drop (S (n i)) stream]> (comm_queues cur))
    by (by destruct cur).
  assert (Hfin' : process_data_finished cur' = process_data_finished cur)
    by (by destruct cur).
  assert (Htbl' : child_token_map cur' = child_token_map cur)
    by (by destruct cur).
  split; [by rewrite Hq', length_insert|].
  split.
  { transitivity (finished_cnt cur); [by destruct cur|].
    rewrite Hcnt. f_equal. symmetry. apply length_filter_same.
    intros j Hj. case_decide as Hji; [|done]. subst j.
    rewrite (stream_at_worker i w Hw). fold stream. lia. }
  split.
  { intros j w' Hw'. case_decide as Hji.
    - subst j. assert (w' = w) by congruence. subst w'.
      split; [cbv zeta; fold stream; lia|].
      split; [cbv zeta; fold stream; rewrite Hq';
              apply list_lookup_insert_eq; by eapply lookup_lt_Some|].
      split.
      { cbv zeta. fold stream. rewrite Hfin', Hfin. f_equal.
        symmetry. apply bool_decide_eq_false_2. lia. }
      exists tbl. split; [by rewrite Htbl'|].
      intros u h' Hin. fold pairs in Hin. rewrite Hv'.
      apply Htrans. rewrite take_ge in Hin by lia. by rewrite take_ge by lia.
    - apply (chan_inv_other _ _ _ cur); [by apply Hchan| | | |by rewrite Hv'].
      + rewrite Hq'. by apply list_lookup_insert_ne.
      + by rewrite Hfin'.
      + by rewrite Htbl'. }
  rewrite Hv'. split; [done|]. split; [done|]. split; [done|].
  split.
  { destruct (Hnews i w Hw) as (nwi & Hnwi & Halli).
    exists (<[i := nwi ++ [(g, fact, freq)]]> news), (new ++ [(g, fact, freq)]).
    split; [by rewrite length_insert|]. split.
    - intros j w' Hw'. case_decide as Hji.
      + subst j. assert (w' = w) by congruence. subst w'.
        exists (nwi ++ [(g, fact, freq)]). split.
        { apply list_lookup_insert_eq. by eapply lookup_lt_Some. }
        unfold merged_triples in *. fold pairs in Halli |- *.
        replace (S (n i) - length pairs)%nat
          with (S (n i - length pairs)) by lia.
        rewrite (take_S_r _ _ _ Htr).
        apply Forall2_app; [done|]. constructor; [|constructor].
        split; [done|]. split; [done|]. by exists t.
      + destruct (Hnews j w' Hw') as (nw & Hnw & Hall).
        exists nw. split; [|done].
        rewrite list_lookup_insert_ne; [done|]. congruence.
    - split.
      { rewrite (concat_insert_snoc news i nwi _ Hnwi).
        by apply Permutation_app_tail. }
      rewrite !fmap_app. cbn [fmap list_fmap fst snd].
      rewrite !app_assoc, <- Hft, <- Hff, <- Hfq. by destruct cur. }
  clear -Hc1 Hc2 Hc3 Hc4 Hc5 Hc6 Hc7.
  subst cur'. unfold caches in *. destruct cur. cbn in *.
  repeat split; congruence.
Qed.

(** The next message of channel [i] is the sentinel. *)
Lemma merge_step_eod n cur i w :
  merge_inv dict_items ws m0 n cur -> ws !! i = Some w ->
  S (n i) = length (shutdown_worker dict_items w).1 ->
  ∃ cur', _process_data i cur = (Ok tt, cur') ∧
          merge_inv dict_items ws m0
            (fun j => if decide (j = i) then S (n i) else n j) cur'.
Proof.
  intros (Hlen & Hcnt & Hchan & Hsub & Hdom & Hen
          & (news & new & Hnl & Hnews & Hperm & Hft & Hff & Hfq)
          & Hc1 & Hc2 & Hc3 & Hc4 & Hc5 & Hc6 & Hc7) Hw Hlast.
  assert (Hwin : w ∈ ws) by (by eapply list_elem_of_lookup_2).
  pose proof (worker_stream w Hwin) as Hstream.
  destruct (Hchan i w Hw) as (Hle & Hq & Hfin & tbl & Htbl & Htrans).
  cbv zeta in Hle, Hq, Hfin.
  set (pairs := dict_items (all_tokens w)) in *.
  set (stream := (shutdown_worker dict_items w).1) in *.
  assert (Hslen : length stream
                  = (length pairs + length (worker_triples w) + 1)%nat).
  { rewrite Hstream, !length_app, !length_fmap. cbn. lia. }
  assert (Hmsg : stream !! n i = Some (PStr END_OF_DATA)).
  { rewrite Hstream, lookup_app_r by (rewrite length_fmap; lia).
    rewrite length_fmap, lookup_app_r by (rewrite length_fmap; lia).
    rewrite length_fmap.
    replace (n i - length pairs - length (worker_triples w))%nat
      with 0%nat by lia. done. }
  rewrite (drop_S _ _ _ Hmsg) in Hq.
  rewrite bool_decide_eq_false_2 in Hfin by lia.
  eexists. split; [eapply process_data_eod; [exact Hfin|exact Hq]|].
  set (cur' := set_finished _ _ _).
  assert (Hv' : all_tokens cur' = all_tokens cur) by (by destruct cur).
  assert (Hq' : comm_queues cur'
                = <[i := drop (S (n i)) stream]> (comm_queues cur))
    by (by destruct cur).
  assert (Hfin' : process_data_finished cur'
                  = <[i := true]> (process_data_finished cur))
    by (by destruct cur).
  assert (Htbl' : child_token_map cur' = child_token_map cur)
    by (by destruct cur).
  split; [by rewrite Hq', length_insert|].
  split.
  { transitivity (finished_cnt cur + 1); [by destruct cur|].
    rewrite Hcnt.
    rewrite (length_filter_one_more
               (fun j => n j = length (stream_at dict_items ws j))
               (fun j => (if decide (j = i) then S (n i) else n j)
                         = length (stream_at dict_items ws j))
               (length ws) i).
    - lia.
    - by eapply lookup_lt_Some.
    - rewrite (stream_at_worker i w Hw). fold stream. lia.
    - rewrite decide_True by done.
      rewrite (stream_at_worker i w Hw). by fold stream.
    - intros j Hj. by rewrite decide_False. }
  split.
  { intros j w' Hw'. case_decide as Hji.
    - subst j. assert (w' = w) by congruence. subst w'.
      split; [cbv zeta; fold stream; lia|].
      split; [cbv zeta; fold stream; rewrite Hq';
              apply list_lookup_insert_eq; by eapply lookup_lt_Some|].
      split.
      { cbv zeta. fold stream. rewrite Hfin'.
        rewrite list_lookup_insert_eq by (by eapply lookup_lt_Some).
        f_equal. symmetry. by apply bool_decide_eq_true_2. }
      exists tbl. split; [by rewrite Htbl'|].
      intros u h' Hin. fold pairs in Hin. rewrite Hv'.
      apply Htrans. rewrite take_ge in Hin by lia. by rewrite take_ge by lia.
    - apply (chan_inv_other _ _ _ cur); [by apply Hchan| | | |by rewrite Hv'].
      + rewrite Hq'. by apply list_lookup_insert_ne.
      + rewrite Hfin'. by apply list_lookup_insert_ne.
      + by rewrite Htbl'. }
  rewrite Hv'. split; [done|]. split; [done|]. split; [done|].
  split.
  { exists news, new. split; [done|]. split.
    - intros j w' Hw'. destruct (Hnews j w' Hw') as (nw & Hnw & Hall).
      exists nw. split; [done|].
      case_decide as Hji; [|done]. subst j.
      assert (w' = w) by congruence. subst w'.
      unfold merged_triples in *. fold pairs in Hall |- *.
      rewrite take_ge in Hall by lia. by rewrite take_ge by lia.
    - split; [done|]. by destruct cur. }
  clear -Hc1 Hc2 Hc3 Hc4 Hc5 Hc6 Hc7.
  subst cur'. unfold caches in *. destruct cur. cbn in *.
  repeat split; congruence.
Qed.

(** One call of [_process_data] during the merge: a finished channel is
    passed over, an unfinished one gives its next message. *)
Lemma merge_step n cur i w :
  merge_inv dict_items ws m0 n cur -> ws !! i = Some w ->
  ∃ cur' n',
    _process_data i cur = (Ok tt, cur') ∧
    merge_inv dict_items ws m0 n' cur' ∧
    n' i = Nat.min (S (n i)) (length (shutdown_worker dict_items w).1) ∧
    ∀ j, j ≠ i -> n' j = n j.
Proof.
  intros Hinv Hw.
  assert (Hwin : w ∈ ws) by (by eapply list_elem_of_lookup_2).
  pose proof (worker_stream w Hwin) as Hstream.
  assert (Hslen : length (shutdown_worker dict_items w).1
                  = (length (dict_items (all_tokens w))
                     + length (worker_triples w) + 1)%nat).
  { rewrite Hstream, !length_app, !length_fmap. cbn. lia. }
  pose proof Hinv as (_ & _ & Hchan & _).
  destruct (Hchan i w Hw) as (Hle & _). cbv zeta in Hle.
  destruct (decide (n i = length (shutdown_worker dict_items w).1))
    as [Hfin|Hnfin].
  { exists cur, n. split; [by eapply merge_step_finished|].
    split; [done|]. split; [lia|done]. }
  assert (Hshape : ∀ cur',
            _process_data i cur = (Ok tt, cur') ∧
            merge_inv dict_items ws m0
              (fun j => if decide (j = i) then S (n i) else n j) cur' ->
            ∃ cur' n',
              _process_data i cur = (Ok tt, cur') ∧
              merge_inv dict_items ws m0 n' cur' ∧
              n' i = Nat.min (S (n i))
                       (length (shutdown_worker dict_items w).1) ∧
              ∀ j, j ≠ i -> n' j = n j).
  { intros cur' [Hrun Hinv']. eexists cur', _.
    split; [done|]. split; [exact Hinv'|]. cbn beta.
    split; [rewrite decide_True by done; lia|].
    intros j Hj. by rewrite decide_False. }
  destruct (decide (n i < length (dict_items (all_tokens w)))%nat)
    as [Hp|Hp].
  { destruct (lookup_lt_is_Some_2 _ _ Hp) as [[t g'] Hpair].
    destruct (merge_step_pair n cur i w t g' Hinv Hw Hpair) as [cur' H].
    by apply (Hshape cur'). }
  destruct (decide (n i - length (dict_items (all_tokens w))
                    < length (worker_triples w))%nat) as [Ht|Ht].
  { destruct (lookup_lt_is_Some_2 _ _ Ht) as [tr Htr].
    destruct (merge_step_triple n cur i w tr Hinv Hw) as [cur' H];
      [lia|done|].
    by apply (Hshape cur'). }
  destruct (merge_step_eod n cur i w Hinv Hw) as [cur' H]; [lia|].
  by apply (Hshape cur').
Qed.

(** The first [j] channels of a round that begins after [r] rounds. *)
Lemma merge_round_prefix r j : ∀ n cur,
  merge_inv dict_items ws m0 n cur ->
  (∀ i, (i < length ws)%nat ->
        n i = Nat.min r (length (stream_at dict_items ws i))) ->
  (j <= length ws)%nat ->
  ∃ cur' n',
    for_each (seq 0 j) _process_data cur = (Ok tt, cur') ∧
    merge_inv dict_items ws m0 n' cur' ∧
    ∀ i, (i < length ws)%nat ->
         n' i = if decide (i < j)%nat
                then Nat.min (S r) (length (stream_at dict_items ws i))
                else Nat.min r (length (stream_at dict_items ws i)).
Proof.
  induction j as [|j IH]; intros n cur Hinv Hn Hj.
  - exists cur, n. split; [done|]. split; [done|].
    intros i Hi. rewrite decide_False by lia. by apply Hn.
  - destruct (IH n cur Hinv Hn) as (cur1 & n1 & Hrun1 & Hinv1 & Hn1); [lia|].
    destruct (lookup_lt_is_Some_2 ws j) as [w Hw]; [lia|].
    destruct (merge_step n1 cur1 j w Hinv1 Hw)
      as (cur' & n' & Hrun & Hinv' & Hnj & Hnother).
    exists cur', n'. split.
    { rewrite seq_S, for_each_app, Hrun1. cbn [Nat.add for_each].
      unfold bind. by rewrite Hrun. }
    split; [done|].
    intros i Hi. destruct (decide (i = j)) as [->|Hne].
    + rewrite decide_True by lia. rewrite Hnj, (Hn1 j Hi).
      rewrite decide_False by lia.
      rewrite (stream_at_worker j w Hw). lia.
    + rewrite (Hnother i Hne), (Hn1 i Hi).
      destruct (decide (i < j)%nat), (decide (i < S j)%nat); done || lia.
Qed.

Lemma merge_round r n cur :
  merge_inv dict_items ws m0 n cur ->
  (∀ i, (i < length ws)%nat ->
        n i = Nat.min r (length (stream_at dict_items ws i))) ->
  ∃ cur' n',
    process_round cur = (Ok tt, cur') ∧
    merge_inv dict_items ws m0 n' cur' ∧
    ∀ i, (i < length ws)%nat ->
         n' i = Nat.min (S r) (length (stream_at dict_items ws i)).
Proof.
  intros Hinv Hn.
  destruct (merge_round_prefix r (length ws) n cur Hinv Hn)
    as (cur' & n' & Hrun & Hinv' & Hn'); [done|].
  exists cur', n'. split.
  { unfold process_round, bind, get_state.
    destruct Hinv as (Hlen & _). by rewrite Hlen. }
  split; [done|]. intros i Hi. rewrite (Hn' i Hi).
  by rewrite decide_True.
Qed.

(** The loop ends, with every stream taken to its end, as soon as the
    number of rounds allowed covers the longest stream. *)
Lemma merge_loop fuel : ∀ r n cur,
  merge_inv dict_items ws m0 n cur ->
  (∀ i, (i < length ws)%nat ->
        n i = Nat.min r (length (stream_at dict_items ws i))) ->
  (∀ i, (i < length ws)%nat ->
        (length (stream_at dict_items ws i) <= r + fuel)%nat) ->
  ∃ cur' n',
    process_child_data fuel cur = (Ok true, cur') ∧
    merge_inv dict_items ws m0 n' cur' ∧
    ∀ i, (i < length ws)%nat -> n' i = length (stream_at dict_items ws i).
Proof.
  induction fuel as [|fuel IH]; intros r n cur Hinv Hn Hfuel.
  - exists cur, n.
    assert (Hall : ∀ i, (i < length ws)%nat ->
              n i = length (stream_at dict_items ws i)).
    { intros i Hi. rewrite (Hn i Hi). specialize (Hfuel i Hi). lia. }
    split; [|done].
    cbn [process_child_data]. unfold bind, get_state.
    rewrite decide_True; [done|].
    destruct Hinv as (Hlen & Hcnt & _). rewrite Hcnt, Hlen.
    assert (Hcount : length (filter
                       (fun i => n i = length (stream_at dict_items ws i))
                       (seq 0 (length ws)))
                     = length (seq 0 (length ws))).
    { apply length_filter_all, Forall_forall.
      intros i Hi%elem_of_seq. apply Hall. lia. }
    by rewrite Hcount, length_seq.
  - cbn [process_child_data]. unfold bind at 1, get_state.
    pose proof Hinv as (Hlen & Hcnt & _).
    case_decide as Hdone.
    + exists cur, n. split; [done|]. split; [done|].
      rewrite Hcnt, Hlen in Hdone. apply Nat2Z.inj in Hdone.
      assert (Hcount : length (filter
                         (fun i => n i = length (stream_at dict_items ws i))
                         (seq 0 (length ws)))
                       = length (seq 0 (length ws)))
        by (by rewrite length_seq).
      apply length_filter_all in Hcount. rewrite Forall_forall in Hcount.
      intros i Hi. apply Hcount, elem_of_seq. lia.
    + destruct (merge_round r n cur Hinv Hn)
        as (cur1 & n1 & Hrun1 & Hinv1 & Hn1).
      destruct (IH (S r) n1 cur1 Hinv1 Hn1) as (cur' & n' & Hrun & H').
      { intros i Hi. specialize (Hfuel i Hi). lia. }
      exists cur', n'. split; [|done].
      unfold bind. by rewrite Hrun1.
Qed.

End Merge.

Lemma concat_replicate_nil {A} k : concat (replicate k (@nil A)) = [].
Proof. induction k as [|k IH]; [done|]. cbn. exact IH. Qed.

Lemma merge_inv_start dict_items ws m0 :
  Forall worker_ok ws ->
  comm_queues m0 = (fun w => (shutdown_worker dict_items w).1) <$> ws ->
  merge_inv dict_items ws m0 (fun _ => 0%nat)
    (set_child_token_map (replicate (length (comm_queues m0)) ∅)
       (set_finished (replicate (length (comm_queues m0)) false) 0 m0)).
Proof.
  intros Hok Hq.
  assert (HK : length (comm_queues m0) = length ws)
    by (by rewrite Hq, length_fmap).
  rewrite HK.
  assert (Hnonempty : ∀ i w, ws !! i = Some w ->
            (0 < length (shutdown_worker dict_items w).1)%nat).
  { intros i w Hw. rewrite Forall_forall in Hok.
    rewrite (shutdown_worker_ok _ _ (Hok w (list_elem_of_lookup_2 _ _ _ Hw))).
    cbn [fst]. rewrite !length_app. cbn. lia. }
  split; [by destruct m0|].
  split.
  { replace (finished_cnt _) with 0 by (by destruct m0).
    rewrite (length_filter_same (fun _ : nat => False)
               (fun i => 0%nat = length (stream_at dict_items ws i))).
    - induction (seq 0 (length ws)) as [|x l IH]; [done|].
      rewrite filter_cons. by destruct (decide False).
    - intros j Hj%elem_of_seq.
      destruct (lookup_lt_is_Some_2 ws j) as [w Hw]; [lia|].
      unfold stream_at. rewrite Hw. cbn.
      specialize (Hnonempty j w Hw). lia. }
  split.
  { intros i w Hw. specialize (Hnonempty i w Hw).
    pose proof (lookup_lt_Some _ _ _ Hw) as Hi.
    split; [cbv zeta; lia|].
    split.
    { cbv zeta. replace (comm_queues _) with (comm_queues m0)
        by (by destruct m0).
      by rewrite Hq, list_lookup_fmap, Hw. }
    split.
    { cbv zeta. replace (process_data_finished _)
        with (replicate (length ws) false) by (by destruct m0).
      rewrite lookup_replicate_2 by done. f_equal. symmetry.
      apply bool_decide_eq_false_2. lia. }
    exists ∅. split.
    { replace (child_token_map _)
        with (replicate (length ws) (∅ : gmap PyVal Z)) by (by destruct m0).
      by rewrite lookup_replicate_2. }
    intros t g' Hin. by apply elem_of_nil in Hin. }
  replace (all_tokens _) with (all_tokens m0) by (by destruct m0).
  split; [done|]. split; [by left|]. split; [by eauto|].
  split.
  { exists (replicate (length ws) []), []. split; [by rewrite length_replicate|].
    split.
    { intros i w Hw. exists []. split.
      - apply lookup_replicate_2. by eapply lookup_lt_Some.
      - unfold merged_triples. cbn. constructor. }
    split; [by rewrite concat_replicate_nil|].
    cbn. rewrite !app_nil_r. by destruct m0. }
  unfold caches. by destruct m0.
Qed.

Lemma merge_collects
  (dict_items : gmap string Z -> list (string * Z))
  (ws : list Agent) (m0 : Agent) (fuel : nat) :
  (∀ m, dict_items m ≡ₚ map_to_list m) ->
  Forall worker_ok ws ->
  comm_queues m0 = (fun w => (shutdown_worker dict_items w).1) <$> ws ->
  (∀ w, w ∈ ws -> (length (shutdown_worker dict_items w).1 <= fuel)%nat) ->
  ∃ s1 news new,
    shutdown fuel m0 = (save ;; ret true) s1 ∧
    all_tokens m0 ⊆ all_tokens s1 ∧
    (∀ t, is_Some (all_tokens s1 !! t) ↔
          is_Some (all_tokens m0 !! t) ∨
          ∃ w, w ∈ ws ∧ is_Some (all_tokens w !! t)) ∧
    (∀ acc, enumerates (all_tokens m0) acc ->
            ∃ acc', enumerates (all_tokens s1) acc') ∧
    Forall2 (fun w nw => Forall2 (translates (all_tokens w) (all_tokens s1))
                           (worker_triples w) nw) ws news ∧
    new ≡ₚ concat news ∧
    freq_token s1 = freq_token m0 ++ new.*1.*1 ∧
    freq_fact_id s1 = freq_fact_id m0 ++ new.*1.*2 ∧
    freq_freq s1 = freq_freq m0 ++ new.*2 ∧
    Forall (fun q => q = []) (comm_queues s1) ∧
    cnt s1 = cnt m0 ∧ fact_id s1 = fact_id m0 ∧ store s1 = store m0 ∧
    caches s1 = caches m0.
Proof.
  intros Hitems Hok Hq Hfuel.
  pose proof (merge_inv_start dict_items ws m0 Hok Hq) as Hstart.
  destruct (merge_loop dict_items Hitems ws Hok m0 fuel 0 _ _ Hstart)
    as (s1 & n & Hrun & Hinv & Hn).
  { intros i Hi. lia. }
  { intros i Hi. destruct (lookup_lt_is_Some_2 ws i Hi) as [w Hw].
    unfold stream_at. rewrite Hw. cbn.
    specialize (Hfuel w (list_elem_of_lookup_2 _ _ _ Hw)). lia. }
  destruct Hinv as (Hlen & Hcnt & Hchan & Hsub & Hdom & Hen
                    & (news & new & Hnl & Hnews & Hperm & Hft & Hff & Hfq)
                    & Hc1 & Hc2 & Hc3 & Hc4 & Hc5 & Hc6 & Hc7).
  assert (Hfull : ∀ i w, ws !! i = Some w ->
            n i = (length (dict_items (all_tokens w))
                   + length (worker_triples w) + 1)%nat).
  { intros i w Hw. rewrite (Hn i (lookup_lt_Some _ _ _ Hw)).
    unfold stream_at. rewrite Hw. cbn.
    rewrite Forall_forall in Hok.
    rewrite (shutdown_worker_ok _ _ (Hok w (list_elem_of_lookup_2 _ _ _ Hw))).
    cbn [fst]. rewrite !length_app, !length_fmap. cbn. lia. }
  exists s1, news, new.
  split.
  { unfold shutdown, bind at 1, modify. unfold bind at 1. by rewrite Hrun. }
  split; [done|]. split.
  { intros t. split; [apply Hdom|]. intros [[g Hg]|(w & Hw & [g' Hg'])].
    - exists g. by eapply lookup_weaken.
    - apply list_elem_of_lookup in Hw as [i Hi].
      destruct (Hchan i w Hi) as (_ & _ & _ & tbl & _ & Htrans).
      destruct (Htrans t g') as (g & _ & Hg); [|by exists g].
      rewrite take_ge by (rewrite (Hfull i w Hi); lia).
      rewrite Hitems. by apply elem_of_map_to_list. }
  split; [done|]. split.
  { apply Forall2_same_length_lookup_2; [done|].
    intros i w nw Hw Hnw. destruct (Hnews i w Hw) as (nw' & Hnw' & Hall).
    assert (nw' = nw) by congruence. subst nw'.
    unfold merged_triples in Hall.
    rewrite take_ge in Hall by (rewrite (Hfull i w Hw); lia). done. }
  split; [done|]. split; [done|]. split; [done|]. split; [done|].
  split.
  { apply Forall_forall. intros q Hqin.
    apply list_elem_of_lookup in Hqin as [i Hi].
    destruct (lookup_lt_is_Some_2 ws i) as [w Hw].
    { rewrite <- Hlen. by eapply lookup_lt_Some. }
    destruct (Hchan i w Hw) as (_ & Hqi & _). cbv zeta in Hqi.
    rewrite Hi in Hqi. injection Hqi as ->.
    apply drop_ge. rewrite (Hn i (lookup_lt_Some _ _ _ Hw)).
    unfold stream_at. by rewrite Hw. }
  done.
Qed.

(** X11. The master's merge is complete and faithful.  When every worker
    has put its whole stream on its channel (its vocabulary pairs in the
    order of [dict.items()], then its triples, then the sentinel), the
    workers' buffers are in step and their token ids come from their own
    vocabularies, and the loop is given at least as many rounds as the
    longest stream has messages, then [shutdown] neither blocks nor
    raises before [save]; the master's vocabulary keeps its entries and
    gains exactly the workers' tokens (still numbered without gaps); its
    buffers gain, for every worker, one triple per triple of the worker,
    with the same fact id and count and with the master's id of the
    token the worker meant; every channel is drained; the counters, the
    store and the lazily created attributes are untouched. *)
Theorem merge_collects_worker_triples
  (dict_items : gmap string Z -> list (string * Z))
  (ws : list Agent) (m0 : Agent) (fuel : nat) :
  (∀ m, dict_items m ≡ₚ map_to_list m) ->
  Forall worker_ok ws ->
  comm_queues m0 = (fun w => (shutdown_worker dict_items w).1) <$> ws ->
  (∀ w, w ∈ ws -> (length (shutdown_worker dict_items w).1 <= fuel)%nat) ->
  ∃ s1 news new,
    shutdown fuel m0 = (save ;; ret true) s1 ∧
    all_tokens m0 ⊆ all_tokens s1 ∧
    (∀ t, is_Some (all_tokens s1 !! t) ↔
          is_Some (all_tokens m0 !! t) ∨
          ∃ w, w ∈ ws ∧ is_Some (all_tokens w !! t)) ∧
    (∀ acc, enumerates (all_tokens m0) acc ->
            ∃ acc', enumerates (all_tokens s1) acc') ∧
    Forall2 (fun w nw => Forall2 (translates (all_tokens w) (all_tokens s1))
                           (worker_triples w) nw) ws news ∧
    new ≡ₚ concat news ∧
    freq_token s1 = freq_token m0 ++ new.*1.*1 ∧
    freq_fact_id s1 = freq_fact_id m0 ++ new.*1.*2 ∧
    freq_freq s1 = freq_freq m0 ++ new.*2 ∧
    Forall (fun q => q = []) (comm_queues s1) ∧
    cnt s1 = cnt m0 ∧ fact_id s1 = fact_id m0 ∧ store s1 = store m0 ∧
    caches s1 = caches m0.
Proof. apply merge_collects. Qed.

(** * Workers *)

Lemma del_caches_index s r s' :
  (del_tfidfs ;; del_count_matrix ;; del_doc_freqs ;;
   del_num_docs ;; del_num_tokens) s = (r, s') ->
  all_tokens s' = all_tokens s ∧ freq_token s' = freq_token s ∧
  freq_fact_id s' = freq_fact_id s ∧ freq_freq s' = freq_freq s.
Proof.
  unfold bind, del_tfidfs, del_count_matrix, del_doc_freqs, del_num_docs,
    del_num_tokens.
  destruct s as [? ? ? ? ? ? ? ? nd nt cm df tf ? ? ? ? ? ?]; cbn.
  destruct tf; cbn; [|by intros [= _ <-]].
  destruct cm; cbn; [|by intros [= _ <-]].
  destruct df; cbn; [|by intros [= _ <-]].
  destruct nd; cbn; [|by intros [= _ <-]].
  destruct nt; cbn; by intros [= _ <-].
Qed.

Lemma insert_fact_without_id_index fact s r s' :
  insert_fact_without_id fact s = (r, s') ->
  all_tokens s' = all_tokens s ∧ freq_token s' = freq_token s ∧
  freq_fact_id s' = freq_fact_id s ∧ freq_freq s' = freq_freq s.
Proof.
  unfold insert_fact_without_id, bind, new_fact_id, with_db_lock,
    execute_insert, ret. cbn.
  destruct (db_lock s); [by intros [= _ <-]|].
  destruct (healthy (store s)); cbn; [|by intros [= _ <-]].
  case_decide; cbn; by intros [= _ <-].
Qed.

Lemma new_freqs_worker_ok fid (unique : list (string * Z)) s s' r acc :
  enumerates (all_tokens s) acc -> worker_ok s ->
  for_each unique
    (fun tc : string * Z => new_freq (VStr tc.1) (VInt fid) (VInt tc.2)) s
    = (r, s') ->
  (∃ acc', enumerates (all_tokens s') acc') ∧ worker_ok s'.
Proof.
  intros Hacc (Hl1 & Hl2 & _ & Hall) Hrun.
  destruct (for_each_new_freq_spec fid unique s)
    as (s1 & ids & Hrun1 & Hids & Hsub & Hen & _ & Hft & Hff & Hfq & _).
  rewrite Hrun1 in Hrun. injection Hrun as _ <-.
  pose proof (Hen acc Hacc) as Hacc1.
  split; [by eexists|].
  apply Forall2_length in Hids as Hlen.
  split; [rewrite Hft, Hff, !length_app, length_replicate; lia|].
  split; [rewrite Hfq, Hff, !length_app, length_replicate, !length_fmap; lia|].
  split; [intros t1 t2 i; by eapply enumerates_inj|].
  rewrite Hft. apply Forall_app. split.
  - eapply Forall_impl; [exact Hall|]. intros tok [t Ht].
    exists t. by eapply lookup_weaken.
  - apply Forall_forall. intros i Hi.
    apply list_elem_of_lookup in Hi as [k Hk].
    destruct (Forall2_lookup_r _ _ _ _ _ Hids Hk) as (tc & _ & Htc).
    by exists tc.1.
Qed.

Lemma worker_ok_index s s' :
  all_tokens s' = all_tokens s -> freq_token s' = freq_token s ->
  freq_fact_id s' = freq_fact_id s -> freq_freq s' = freq_freq s ->
  worker_ok s -> worker_ok s'.
Proof. unfold worker_ok. by intros -> -> -> ->. Qed.

Lemma act_tail_worker_ok tokenize obs s1 acc r w' :
  enumerates (all_tokens s1) acc -> worker_ok s1 ->
  (match obs with
   | None => ret tt
   | Some text =>
       modify (fun s => set_cnt (cnt s + 1) s) ;; process_act tokenize text
   end) s1 = (r, w') ->
  (∃ acc', enumerates (all_tokens w') acc') ∧ worker_ok w'.
Proof.
  intros Hacc1 Hok1.
  destruct obs as [text|]; [|intros [= _ <-]; eauto].
  unfold bind at 1, modify. unfold process_act, bind at 1.
  set (s2 := set_cnt _ s1).
  destruct (insert_fact_without_id text s2) as [[fid|e|] s3] eqn:Hins;
    destruct (insert_fact_without_id_index _ _ _ _ Hins)
      as (Hv3 & Hg1 & Hg2 & Hg3).
  - apply (new_freqs_worker_ok fid _ s3 w' r acc).
    + rewrite Hv3. subst s2. by destruct s1.
    + eapply worker_ok_index; [| | | |exact Hok1];
        [rewrite Hv3|rewrite Hg1|rewrite Hg2|rewrite Hg3];
        subst s2; by destruct s1.
  - intros [= _ <-]. split.
    + exists acc. rewrite Hv3. subst s2. by destruct s1.
    + eapply worker_ok_index; [| | | |exact Hok1];
        [rewrite Hv3|rewrite Hg1|rewrite Hg2|rewrite Hg3];
        subst s2; by destruct s1.
  - intros [= _ <-]. split.
    + exists acc. rewrite Hv3. subst s2. by destruct s1.
    + eapply worker_ok_index; [| | | |exact Hok1];
        [rewrite Hv3|rewrite Hg1|rewrite Hg2|rewrite Hg3];
        subst s2; by destruct s1.
Qed.

Lemma act_worker_ok tokenize obs w acc :
  enumerates (all_tokens w) acc -> worker_ok w ->
  (∃ acc', enumerates (all_tokens (act tokenize obs w).2) acc') ∧
  worker_ok (act tokenize obs w).2.
Proof.
  intros Hacc Hok.
  destruct (act tokenize obs w) as [r w'] eqn:Hrun. cbn [snd].
  revert Hrun. unfold act, bind at 1, get_state. unfold bind at 1.
  destruct (tfidfs w) as [tf|].
  - destruct ((del_tfidfs ;; del_count_matrix ;; del_doc_freqs ;;
               del_num_docs ;; del_num_tokens) w) as [r1 s1] eqn:Hdel.
    destruct (del_caches_index _ _ _ Hdel) as (Hv1 & Hf1 & Hf2 & Hf3).
    assert (Hok1 : worker_ok s1) by (by eapply worker_ok_index).
    assert (Hacc1 : enumerates (all_tokens s1) acc) by (by rewrite Hv1).
    destruct r1 as [[]|e|]; [|intros [= _ <-]; eauto..].
    by apply (act_tail_worker_ok tokenize obs s1 acc).
  - unfold ret. by apply (act_tail_worker_ok tokenize obs w acc).
Qed.

Lemma new_agent_worker_ok fid : worker_ok (set_fact_id fid init_agent).
Proof.
  split; [done|]. split; [done|]. split; [|constructor].
  intros t1 t2 i. cbn. by rewrite lookup_empty.
Qed.

(** X12. The precondition of the merge holds for every worker: in a new
    agent, whatever value the shared fact counter has, and after any
    number of [act] calls, whatever their outcome, the three buffers have
    the same length, the vocabulary numbers its tokens 0 .. size-1 without
    gaps or repetitions, and every token id in [freq_token] is the id of
    a token of the vocabulary. *)
Theorem act_keeps_worker_buffers_in_step (tokenize : string -> list string)
  (obs : option string) (w : Agent) (acc : list string) :
  enumerates (all_tokens w) acc -> worker_ok w ->
  (∃ acc', enumerates (all_tokens (act tokenize obs w).2) acc') ∧
  worker_ok (act tokenize obs w).2.
Proof. apply act_worker_ok. Qed.

Lemma act_keeps_worker_buffers_in_step_witness :
  worker_ok (act blank_tokenize (Some "cat cat dog")
               (set_fact_id 1 init_agent)).2.
Proof.
  destruct (act_keeps_worker_buffers_in_step blank_tokenize
              (Some "cat cat dog") (set_fact_id 1 init_agent) [])
    as [_ Hok].
  - exact enumerates_empty.
  - exact (new_agent_worker_ok 1).
  - exact Hok.
Defined.

Lemma two_workers_ok : Forall worker_ok [dog_worker; cat_dog_worker].
Proof.
  constructor; [|constructor; [|constructor]].
  - apply (act_worker_ok blank_tokenize (Some "dog") init_agent []).
    + exact enumerates_empty.
    + exact (new_agent_worker_ok 0).
  - apply (act_worker_ok blank_tokenize (Some "cat cat dog")
             (set_fact_id 1 init_agent) []).
    + exact enumerates_empty.
    + exact (new_agent_worker_ok 1).
Qed.

Lemma merge_collects_worker_triples_witness :
  ∃ (s1 : Agent) (new : list (Z * PyVal * PyVal)),
    shutdown 5 master_of_two = (save ;; ret true) s1 ∧
    length new = 3%nat ∧
    freq_fact_id s1 = new.*1.*2 ∧
    Forall (fun q => q = []) (comm_queues s1).
Proof.
  destruct (merge_collects_worker_triples map_to_list
              [dog_worker; cat_dog_worker] master_of_two 5)
    as (s1 & news & new & Hrun & _ & _ & _ & Hnews & Hperm & _ & Hff & _
        & Hq & _).
  - reflexivity.
  - exact two_workers_ok.
  - reflexivity.
  - intros w Hw. apply elem_of_cons in Hw as [->|Hw].
    + vm_compute. lia.
    + apply list_elem_of_singleton in Hw as ->. vm_compute. lia.
  - exists s1, new. split; [exact Hrun|]. split.
    + rewrite Hperm.
      apply Forall2_cons_inv_l in Hnews as (nw1 & rest & H1 & Hrest & ->).
      apply Forall2_cons_inv_l in Hrest as (nw2 & rest' & H2 & Hnil & ->).
      apply Forall2_nil_inv_l in Hnil as ->.
      apply Forall2_length in H1, H2. cbn [concat].
      rewrite !length_app, <- H1, <- H2. vm_compute. reflexivity.
    + split; [exact Hff|exact Hq].
Defined.

(** * The count matrix of the merged buffers *)

Lemma cell_sum_nil k : cell_sum [] k = 0.
Proof. done. Qed.

Lemma cell_sum_perm l l' k : l ≡ₚ l' -> cell_sum l k = cell_sum l' k.
Proof.
  induction 1 as [|e l l' _ IH|e1 e2 l|l1 l2 l3 _ IH1 _ IH2].
  - done.
  - by rewrite !cell_sum_cons, IH.
  - rewrite !cell_sum_cons. lia.
  - congruence.
Qed.

Lemma cell_sum_concat (ls : list (list (Z * Z * Z))) k :
  cell_sum (concat ls) k = foldr Z.add 0 ((fun l => cell_sum l k) <$> ls).
Proof.
  induction ls as [|l ls IH]; [done|].
  cbn [concat fmap list_fmap foldr]. by rewrite cell_sum_app, IH.
Qed.

Lemma triples_of_worker_triples w l :
  triples_of w l ->
  worker_triples w
  = (fun e : Z * Z * Z => (e.1.1, VInt e.1.2, VInt e.2)) <$> l.
Proof.
  intros (Ht & Hf & Hq). unfold worker_triples. rewrite Ht, Hf, Hq.
  clear. induction l as [|[[a b] c] l IH]; [done|].
  cbn. f_equal. exact IH.
Qed.

Lemma translated_cells (vw v : gmap string Z) (lw : list (Z * Z * Z)) :
  (∀ t1 t2 i, vw !! t1 = Some i -> vw !! t2 = Some i -> t1 = t2) ->
  (∀ t1 t2 i, v !! t1 = Some i -> v !! t2 = Some i -> t1 = t2) ->
  ∀ nw,
  Forall2 (translates vw v)
    ((fun e : Z * Z * Z => (e.1.1, VInt e.1.2, VInt e.2)) <$> lw) nw ->
  ∃ nz : list (Z * Z * Z),
    nw = (fun e : Z * Z * Z => (e.1.1, VInt e.1.2, VInt e.2)) <$> nz ∧
    Forall2 (fun old new : Z * Z * Z =>
               new.1.2 = old.1.2 ∧ new.2 = old.2 ∧
               ∃ t, vw !! t = Some old.1.1 ∧ v !! t = Some new.1.1) lw nz ∧
    ∀ t g f, v !! t = Some g ->
      cell_sum nz (g, f)
      = match vw !! t with Some i => cell_sum lw (i, f) | None => 0 end.
Proof.
  intros Hinjw Hinjv. induction lw as [|[[loc f0] c] lw IH]; intros nw Hall.
  - apply Forall2_nil_inv_l in Hall as ->. exists [].
    split; [done|]. split; [constructor|].
    intros t g f _. by destruct (vw !! t).
  - rewrite fmap_cons in Hall.
    apply Forall2_cons_inv_l in Hall as (n0 & nw' & Htr & Hrest & ->).
    destruct (IH nw' Hrest) as (nz & -> & Hall & Hcells).
    destruct n0 as [[g0 fact] freq].
    destruct Htr as (Hfact & Hfreq & t0 & Ht0w & Ht0v).
    cbn [fst snd] in Hfact, Hfreq, Ht0w, Ht0v. subst fact freq.
    exists ((g0, f0, c) :: nz). split; [done|]. split.
    { constructor; [|done]. cbn. split; [done|]. split; [done|]. by exists t0. }
    intros t g f Hg. rewrite cell_sum_cons, (Hcells t g f Hg). cbn [fst snd].
    destruct (vw !! t) as [i|] eqn:Hi.
    + rewrite cell_sum_cons. cbn [fst snd].
      destruct (decide ((g0, f0) = (g, f))) as [Heq|Hne].
      * injection Heq as -> ->.
        assert (t0 = t) by (by eapply Hinjv). subst t0.
        assert (i = loc) by congruence. subst i.
        by rewrite decide_True.
      * rewrite decide_False; [done|]. intros [= -> ->].
        assert (t0 = t) by (by eapply Hinjw). subst t0.
        apply Hne. congruence.
    + rewrite decide_False; [done|]. intros [= -> ->].
      assert (t0 = t) by (by eapply Hinjv). subst t0. congruence.
Qed.

Lemma merged_cells (v : gmap string Z) (ws : list Agent) :
  (∀ t1 t2 i, v !! t1 = Some i -> v !! t2 = Some i -> t1 = t2) ->
  Forall worker_ok ws ->
  ∀ (ls : list (list (Z * Z * Z))) news,
  Forall2 (fun w l => triples_of w l) ws ls ->
  Forall2 (fun w nw => Forall2 (translates (all_tokens w) v)
                         (worker_triples w) nw) ws news ->
  ∃ nzs : list (list (Z * Z * Z)),
    concat news
    = (fun e : Z * Z * Z => (e.1.1, VInt e.1.2, VInt e.2)) <$> concat nzs ∧
    (concat nzs).*2 = (concat ls).*2 ∧
    (∀ e, e ∈ concat nzs ->
          (∃ t, v !! t = Some e.1.1) ∧ ∃ l e', l ∈ ls ∧ e' ∈ l ∧ e.1.2 = e'.1.2) ∧
    ∀ t g f, v !! t = Some g ->
      cell_sum (concat nzs) (g, f)
      = foldr Z.add 0 (zip_with (fun w l => buffered_count w l t f) ws ls).
Proof.
  intros Hinjv Hok. induction Hok as [|w ws Hw Hok IH]; intros ls news H1 H2.
  - apply Forall2_nil_inv_l in H1 as ->.
    apply Forall2_nil_inv_l in H2 as ->.
    exists []. split; [done|]. split; [done|].
    split; [by intros e ?%elem_of_nil|]. done.
  - apply Forall2_cons_inv_l in H1 as (l & ls' & Hl & Hls & ->).
    apply Forall2_cons_inv_l in H2 as (nw & news' & Hnw & Hnews & ->).
    destruct (IH ls' news' Hls Hnews)
      as (nzs & Hconcat & Hvals & Hrange & Hcells).
    rewrite (triples_of_worker_triples w l Hl) in Hnw.
    destruct Hw as (_ & _ & Hinjw & _).
    destruct (translated_cells (all_tokens w) v l Hinjw Hinjv nw Hnw)
      as (nz & -> & Hall & Hcell).
    exists (nz :: nzs). split.
    { cbn [concat]. by rewrite fmap_app, Hconcat. }
    split.
    { cbn [concat]. rewrite !fmap_app, Hvals. f_equal.
      clear -Hall. induction Hall as [|old new lw nz' (_ & Hc & _) _ IH];
        [done|]. by rewrite !fmap_cons, Hc, IH. }
    split.
    { intros e. cbn [concat]. rewrite elem_of_app. intros [He|He].
      - apply list_elem_of_lookup in He as [k Hk].
        destruct (Forall2_lookup_r _ _ _ _ _ Hall Hk)
          as (e' & He' & Hf & _ & t & _ & Ht).
        split; [by exists t|].
        exists l, e'. split; [apply list_elem_of_here|].
        split; [by eapply list_elem_of_lookup_2|done].
      - destruct (Hrange e He) as (Ht & l' & e' & Hl' & He' & Hf).
        split; [done|]. exists l', e'.
        split; [by apply list_elem_of_further|done]. }
    intros t g f Hg. cbn [concat zip_with foldr].
    rewrite cell_sum_app, (Hcells t g f Hg), (Hcell t g f Hg). done.
Qed.

Lemma pyval_triples_split (l : list (Z * Z * Z)) :
  let p := (fun e : Z * Z * Z => (e.1.1, VInt e.1.2, VInt e.2)) <$> l in
  p.*1.*1 = l.*1.*1 ∧ p.*1.*2 = VInt <$> l.*1.*2 ∧ p.*2 = VInt <$> l.*2.
Proof.
  cbv zeta. induction l as [|[[a b] c] l (IH1 & IH2 & IH3)]; [done|].
  cbn. by rewrite IH1, IH2, IH3.
Qed.

Lemma master_own_cells (m0 s1 : Agent) acc acc' (l0 : list (Z * Z * Z)) t g f :
  enumerates (all_tokens m0) acc -> enumerates (all_tokens s1) acc' ->
  all_tokens m0 ⊆ all_tokens s1 ->
  Forall (fun e : Z * Z * Z =>
            0 <= e.1.1 < Z.of_nat (size (all_tokens m0))) l0 ->
  all_tokens s1 !! t = Some g ->
  cell_sum l0 (g, f) = buffered_count m0 l0 t f.
Proof.
  intros Hacc Hacc' Hsub Hrange Hg. unfold buffered_count.
  destruct (all_tokens m0 !! t) as [i|] eqn:Hi.
  - pose proof (lookup_weaken _ _ _ _ Hi Hsub). congruence.
  - apply cell_sum_notin. intros Hin.
    apply list_elem_of_fmap in Hin as (e & He & Hel).
    rewrite Forall_forall in Hrange. specialize (Hrange e Hel).
    destruct e as [[a b] c]. cbn in He, Hrange. injection He as <- <-.
    destruct (enumerates_surj _ _ _ Hacc Hrange) as [t' Ht'].
    pose proof (lookup_weaken _ _ _ _ Ht' Hsub) as Ht1.
    assert (t' = t) by (by eapply enumerates_inj). congruence.
Qed.

Lemma cell_sum_bounds l k :
  Forall (fun e : Z * Z * Z => 0 <= e.2) l ->
  0 <= cell_sum l k <= foldr Z.add 0 l.*2.
Proof.
  induction 1 as [|e l He _ IH]; [by cbn|].
  rewrite cell_sum_cons, fmap_cons. cbn [foldr]. case_decide; lia.
Qed.

Lemma sum_counts_perm (l l' : list Z) :
  l ≡ₚ l' -> foldr Z.add 0 l = foldr Z.add 0 l'.
Proof. induction 1; cbn [foldr]; lia. Qed.

Lemma merged_count_matrix
  (dict_items : gmap string Z -> list (string * Z))
  (ws : list Agent) (ls : list (list (Z * Z * Z))) (m0 : Agent)
  (l0 : list (Z * Z * Z)) (acc : list string) (fuel : nat) :
  (∀ m, dict_items m ≡ₚ map_to_list m) ->
  Forall worker_ok ws ->
  comm_queues m0 = (fun w => (shutdown_worker dict_items w).1) <$> ws ->
  (∀ w, w ∈ ws -> (length (shutdown_worker dict_items w).1 <= fuel)%nat) ->
  no_caches m0 ->
  0 <= fact_id m0 ->
  enumerates (all_tokens m0) acc ->
  triples_of m0 l0 ->
  Forall (fun e : Z * Z * Z =>
            0 <= e.1.1 < Z.of_nat (size (all_tokens m0)) ∧
            0 <= e.1.2 < fact_id m0) l0 ->
  Forall2 (fun w l => triples_of w l ∧
                      Forall (fun e : Z * Z * Z => 0 <= e.1.2 < fact_id m0) l)
    ws ls ->
  Forall (fun e : Z * Z * Z => 0 <= e.2) (l0 ++ concat ls) ->
  foldr Z.add 0 (l0 ++ concat ls).*2 < 2 ^ 63 ->
  ∃ s2 cm,
    shutdown fuel m0 = (Ok true, s2) ∧
    saved_tokens s2 = Some (all_tokens s2) ∧
    saved_matrix s2 = Some cm ∧
    cm_shape cm = (Z.of_nat (size (all_tokens s2)), fact_id m0) ∧
    ∀ t g f, all_tokens s2 !! t = Some g ->
      cell cm g f
      = buffered_count m0 l0 t f
        + foldr Z.add 0 (zip_with (fun w l => buffered_count w l t f) ws ls).
Proof.
  intros Hitems Hok Hq Hfuel Hnc Hfid0 Hacc Hl0 Hr0 Hls Hnonneg Htotal.
  destruct (merge_collects dict_items ws m0 fuel Hitems Hok Hq Hfuel)
    as (s1 & news & new & Hrun & Hsub & _ & Hen & Hnews & Hperm & Hft & Hff
        & Hfq & _ & _ & Hfid & _ & Hcaches).
  destruct (Hen acc Hacc) as [acc' Hacc'].
  assert (Hinjv : ∀ t1 t2 i, all_tokens s1 !! t1 = Some i ->
            all_tokens s1 !! t2 = Some i -> t1 = t2)
    by (intros t1 t2 i; by eapply enumerates_inj).
  assert (Hls1 : Forall2 (fun w l => triples_of w l) ws ls).
  { eapply Forall2_impl; [exact Hls|]. by intros w l [? _]. }
  destruct (merged_cells (all_tokens s1) ws Hinjv Hok ls news Hls1 Hnews)
    as (nzs & Hconcat & Hvals & Hrange & Hcells).
  rewrite Hconcat in Hperm.
  change (?f <$> concat nzs) with (map f (concat nzs)) in Hperm.
  apply Permutation_map_inv in Hperm as (newZ & -> & HpermZ).
  change (map ?f newZ) with (f <$> newZ) in Hft, Hff, Hfq.
  destruct (pyval_triples_split newZ) as (Hp1 & Hp2 & Hp3).
  rewrite Hp1 in Hft. rewrite Hp2 in Hff. rewrite Hp3 in Hfq.
  destruct Hl0 as (Hl01 & Hl02 & Hl03).
  assert (Htr1 : triples_of s1 (l0 ++ newZ)).
  { unfold triples_of. rewrite !fmap_app, Hft, Hff, Hfq, Hl01, Hl02, Hl03.
    done. }
  injection Hnc as Hn1 Hn2 Hn3 Hn4 Hn5.
  injection Hcaches as Hc1 Hc2 Hc3 Hc4 Hc5.
  assert (Hshape : shape_of s1
                   = (Z.of_nat (size (all_tokens s1)), fact_id m0)).
  { unfold shape_of. rewrite Hc4, Hc5, Hn4, Hn5, Hfid. done. }
  assert (Hcsr : csr_matrix (freq_freq s1) (freq_token s1) (freq_fact_id s1)
                   (shape_of s1)
                 = Ok {| cm_shape := shape_of s1;
                         cm_cells := sum_cells (l0 ++ newZ) |}).
  { rewrite Hshape.
    apply csr_matrix_of_triples; [done|cbn; lia|done|].
    cbn [fst snd]. apply Forall_app. split.
    - eapply Forall_impl; [exact Hr0|]. intros e [[H1 H2] H3].
      split; [|done]. split; [done|].
      pose proof (map_subseteq_size _ _ Hsub). lia.
    - apply Forall_forall. intros e He.
      rewrite <- HpermZ in He.
      destruct (Hrange e He) as ([t Ht] & l & e' & Hl & He' & Hf).
      split; [by eapply enumerates_range|]. rewrite Hf.
      apply list_elem_of_lookup in Hl as [k Hk].
      destruct (Forall2_lookup_r _ _ _ _ _ Hls Hk) as (w & _ & _ & Hfr).
      rewrite Forall_forall in Hfr. by apply Hfr. }
  set (cm := {| cm_shape := shape_of s1; cm_cells := sum_cells (l0 ++ newZ) |})
    in Hcsr.
  pose proof (compute_count_matrix_fresh s1 cm) as Hcm.
  rewrite Hc2, Hn2 in Hcm. specialize (Hcm eq_refl Hcsr).
  eexists _, cm. split.
  { rewrite Hrun. unfold save, bind at 1. unfold bind at 1, modify.
    unfold bind at 1. rewrite compute_count_matrix_set_saved_tokens, Hcm.
    cbn [fst snd]. reflexivity. }
  cbn [saved_tokens saved_matrix all_tokens set_saved_matrix
       set_saved_tokens set_count_matrix set_num_docs set_num_tokens].
  split; [done|]. split; [done|]. split; [done|].
  assert (Hcounts : (l0 ++ newZ).*2 ≡ₚ (l0 ++ concat ls).*2).
  { rewrite !fmap_app, <- HpermZ, Hvals. done. }
  assert (Hint : ∀ k, int64 (cell_sum (l0 ++ newZ) k)).
  { intros k. pose proof (cell_sum_bounds (l0 ++ newZ) k) as Hb.
    rewrite (sum_counts_perm _ _ Hcounts) in Hb. unfold int64.
    enough (Forall (fun e : Z * Z * Z => 0 <= e.2) (l0 ++ newZ)) as Hnn
      by (specialize (Hb Hnn); lia).
    apply (Forall_fmap snd (fun c => 0 <= c)). rewrite Hcounts.
    by apply Forall_fmap. }
  intros t g f Hg. unfold cell. subst cm. cbn [cm_cells].
  rewrite sum_cells_value by (left; apply Hint). rewrite cell_sum_app.
  rewrite <- (cell_sum_perm _ _ _ HpermZ), (Hcells t g f Hg).
  f_equal. eapply master_own_cells; [exact Hacc|exact Hacc'|done| |done].
  eapply Forall_impl; [exact Hr0|]. by intros e [? _].
Qed.

(** X13. The matrix that the master saves after the merge adds up the
    workers' counts.  Under the conditions of X11, when moreover the
    master has no lazily created attribute, the shared fact counter is
    not negative, the master's vocabulary is numbered without gaps, all
    buffered fact ids are integers below the fact counter (the master's
    own token ids being below the size of its vocabulary), and the
    buffered counts are not negative and add up, over the master and all
    workers, to less than 2^63 (so that no 64-bit sum wraps around),
    [shutdown] succeeds; it saves the merged vocabulary and a count matrix
    with one row per token of that vocabulary and one column per fact id
    handed out, whose value for token [t] and fact [f] is the sum, over
    the master and every worker that knows [t], of the counts their
    buffers hold for [t] in [f]. *)
Theorem merged_count_matrix_adds_worker_counts
  (dict_items : gmap string Z -> list (string * Z))
  (ws : list Agent) (ls : list (list (Z * Z * Z))) (m0 : Agent)
  (l0 : list (Z * Z * Z)) (acc : list string) (fuel : nat) :
  (∀ m, dict_items m ≡ₚ map_to_list m) ->
  Forall worker_ok ws ->
  comm_queues m0 = (fun w => (shutdown_worker dict_items w).1) <$> ws ->
  (∀ w, w ∈ ws -> (length (shutdown_worker dict_items w).1 <= fuel)%nat) ->
  no_caches m0 ->
  0 <= fact_id m0 ->
  enumerates (all_tokens m0) acc ->
  triples_of m0 l0 ->
  Forall (fun e : Z * Z * Z =>
            0 <= e.1.1 < Z.of_nat (size (all_tokens m0)) ∧
            0 <= e.1.2 < fact_id m0) l0 ->
  Forall2 (fun w l => triples_of w l ∧
                      Forall (fun e : Z * Z * Z => 0 <= e.1.2 < fact_id m0) l)
    ws ls ->
  Forall (fun e : Z * Z * Z => 0 <= e.2) (l0 ++ concat ls) ->
  foldr Z.add 0 (l0 ++ concat ls).*2 < 2 ^ 63 ->
  ∃ s2 cm,
    shutdown fuel m0 = (Ok true, s2) ∧
    saved_tokens s2 = Some (all_tokens s2) ∧
    saved_matrix s2 = Some cm ∧
    cm_shape cm = (Z.of_nat (size (all_tokens s2)), fact_id m0) ∧
    ∀ t g f, all_tokens s2 !! t = Some g ->
      cell cm g f
      = buffered_count m0 l0 t f
        + foldr Z.add 0 (zip_with (fun w l => buffered_count w l t f) ws ls).
Proof. apply merged_count_matrix. Qed.

Lemma merged_count_matrix_adds_worker_counts_witness :
  ∃ s2 cm,
    shutdown 5 master_of_two = (Ok true, s2) ∧
    saved_matrix s2 = Some cm ∧
    ∀ g, all_tokens s2 !! "dog" = Some g -> cell cm g 1 = 1 ∧ cell cm g 0 = 1.
Proof.
  destruct (merged_count_matrix_adds_worker_counts map_to_list
              [dog_worker; cat_dog_worker]
              [[(0, 0, 1)]; [(0, 1, 2); (1, 1, 1)]]
              master_of_two [] [] 5)
    as (s2 & cm & Hrun & _ & Hsaved & _ & Hcells).
  - reflexivity.
  - exact two_workers_ok.
  - reflexivity.
  - intros w Hw. apply elem_of_cons in Hw as [->|Hw].
    + vm_compute. lia.
    + apply list_elem_of_singleton in Hw as ->. vm_compute. lia.
  - reflexivity.
  - vm_compute. discriminate.
  - exact enumerates_empty.
  - vm_compute. auto.
  - constructor.
  - constructor; [|constructor; [|constructor]].
    + split; [vm_compute; auto|]. repeat constructor; vm_compute; congruence.
    + split; [vm_compute; auto|]. repeat constructor; vm_compute; congruence.
  - apply (bool_decide_unpack _). vm_compute. exact I.
  - vm_compute. reflexivity.
  - exists s2, cm. split; [exact Hrun|]. split; [exact Hsaved|].
    intros g Hg. split.
    + rewrite (Hcells "dog" g 1 Hg). vm_compute. reflexivity.
    + rewrite (Hcells "dog" g 0 Hg). vm_compute. reflexivity.
Defined.

(** * Construction over existing files *)

Lemma new_agent_inv db_rows cm v s :
  new_agent db_rows (Some cm) (Some v) = Some (Ok tt, s) ->
  ∃ W,
    s = set_tfidfs (Some W)
          (set_doc_freqs (Some (doc_freq_vector cm))
             (set_num_docs (Some (cm_shape cm).2)
                (set_num_tokens (Some (cm_shape cm).1)
                   (set_count_matrix (Some cm)
                      (set_all_tokens v
                         (set_store {| rows := db_rows; healthy := true |}
                            init_agent)))))).
Proof.
  unfold new_agent, load. intros [= Hrun]. revert Hrun.
  unfold bind at 1, modify. unfold bind at 1. unfold bind at 1.
  unfold bind at 1.
  unfold _compute_tfidf_from_count_matrix, bind at 1, get_state.
  cbn [tfidfs set_num_docs set_num_tokens set_count_matrix set_all_tokens
       set_store init_agent].
  unfold bind at 1, get_doc_freqs.
  cbn [doc_freqs set_num_docs set_num_tokens set_count_matrix set_all_tokens
       set_store init_agent].
  destruct (is_0d (doc_freq_vector cm)); [done|].
  case_decide; [|done].
  unfold bind, modify, ret. intros [= <-]. by eexists.
Qed.

Lemma new_agent_loaded db_rows cm v :
  0 <= (cm_shape cm).1 -> (cm_shape cm).1 ≠ 1 ->
  ∃ s, new_agent db_rows (Some cm) (Some v) = Some (Ok tt, s).
Proof.
  intros H0 H1. unfold new_agent, load.
  unfold bind at 1, modify. unfold bind at 1. unfold bind at 1.
  unfold bind at 1.
  rewrite compute_tfidf_from_count_matrix_fresh by done.
  by eexists.
Qed.

Lemma act_fails_dropping_caches tokenize text s W cm d nd nt :
  caches s = (Some W, Some cm, Some d, Some nd, Some nt) ->
  db_lock s = false ->
  is_Some (rows (store s) !! fact_id s) ->
  act tokenize (Some text) s
  = (Raise DatabaseError,
     set_fact_id (c_int (fact_id s + 1))
       (set_cnt (cnt s + 1)
          (set_num_tokens None
             (set_num_docs None
                (set_doc_freqs None
                   (set_count_matrix None (set_tfidfs None s))))))).
Proof.
  intros Hc Hlock Hrow.
  destruct s as [? ? ? ? ? ? lk ? nd0 nt0 cm0 df0 tf0 ? ? ? ? ? ?].
  injection Hc as -> -> -> -> ->. cbn in Hlock, Hrow. subst lk.
  unfold act, bind at 1, get_state. cbn [tfidfs].
  unfold bind, del_tfidfs, del_count_matrix, del_doc_freqs, del_num_docs,
    del_num_tokens, modify, process_act, bind.
  cbn -[insert_fact_without_id].
  rewrite insert_fact_without_id_fails; [done|done|by right].
Qed.

Lemma sparse_row_dot_empty q : sparse_row_dot q ∅ = [].
Proof.
  unfold sparse_row_dot, touched_columns.
  rewrite dom_empty_L, filter_empty_L, set_map_empty, elements_empty;
    [done|apply _].
Qed.

Lemma retrieve_on_empty_buffers tokenize argsort argpartition s acc query k :
  argsort_spec argsort ->
  no_caches s ->
  freq_token s = [] -> freq_fact_id s = [] -> freq_freq s = [] ->
  enumerates (all_tokens s) acc -> size (all_tokens s) ≠ 1%nat ->
  0 <= fact_id s -> 0 <= k ->
  ∃ s', retrieve tokenize argsort argpartition query k s = (Ok [], s').
Proof.
  intros Hsort Hnc Hft Hff Hfq Hacc HT Hfid Hk.
  unfold retrieve, bind at 1, get_state.
  destruct (filter _ (tokenize query)) as [|t0 l0] eqn:Hf; [by eexists|].
  rewrite <- Hf.
  set (tokens := filter _ _).
  destruct (present_wids (all_tokens s) tokens) as [wids Hwids].
  { intros t Ht. by apply list_elem_of_filter in Ht as [? _]. }
  set (cm := {| cm_shape := shape_of s; cm_cells := ∅ |}).
  assert (Hshape : shape_of s
                   = (Z.of_nat (size (all_tokens s)), fact_id s)).
  { injection Hnc as _ _ _ Hnd Hnt. unfold shape_of. by rewrite Hnd, Hnt. }
  destruct (np_unique_spec Z.compare wids) as (_ & Hkeys & _).
  assert (HNs : is_Some (mapM (np_index (doc_freq_vector cm))
                           (np_unique Z.compare wids).*1)).
  { apply mapM_is_Some_2, Forall_forall. intros w Hw.
    apply Hkeys in Hw. apply list_elem_of_lookup in Hw as [j Hj].
    destruct (Forall2_lookup_r _ _ _ _ _ Hwids Hj) as (t & _ & Ht).
    pose proof (enumerates_range _ _ _ _ Hacc Ht) as Hr.
    cbn. unfold np_index.
    replace (0 <=? w) with true by (symmetry; apply Z.leb_le; lia).
    apply lookup_lt_is_Some_2.
    pose proof (length_doc_freq_vector cm) as Hl. subst cm.
    cbn [cm_shape] in Hl. rewrite Hshape in Hl |- *. cbn [fst] in Hl. lia. }
  destruct HNs as [Ns HNs].
  pose proof (retrieve_scores_fresh s tokens cm wids Ns Hnc) as Hsc.
  cbv zeta in Hsc. unfold bind at 1. rewrite Hsc; clear Hsc.
  - subst cm. cbn [cm_cells]. unfold weight_cells at 1.
    rewrite map_imap_empty, sparse_row_dot_empty.
    unfold retrieve_tail, bind, lift_outcome, retrieve_order.
    cbn [fmap list_fmap length map].
    replace (Z.of_nat 0 <=? k) with true by (symmetry; apply Z.leb_le; lia).
    destruct (Hsort []) as [Hperm _]. cbn in Hperm.
    apply Permutation_nil_r in Hperm. rewrite Hperm. cbn. by eexists.
  - rewrite Hft, Hff, Hfq. unfold csr_matrix. rewrite Hshape at 1 2.
    cbn [fst snd].
    replace (0 <=? Z.of_nat (size (all_tokens s))) with true
      by (symmetry; lia).
    replace (0 <=? fact_id s) with true by (symmetry; lia).
    done.
  - rewrite Hshape. cbn. lia.
  - done.
  - done.
Qed.

Lemma reloaded_index_lost tokenize argsort argpartition db_rows cm v acc s
  text query k :
  new_agent db_rows (Some cm) (Some v) = Some (Ok tt, s) ->
  is_Some (db_rows !! 0) ->
  enumerates v acc -> size v ≠ 1%nat ->
  argsort_spec argsort -> 0 <= k ->
  count_matrix s = Some cm ∧ num_docs s = Some (cm_shape cm).2 ∧
  is_Some (tfidfs s) ∧ fact_id s = 0 ∧
  ∃ s',
    act tokenize (Some text) s = (Raise DatabaseError, s') ∧
    no_caches s' ∧ all_tokens s' = v ∧ freq_token s' = [] ∧
    fact_id s' = 1 ∧ rows (store s') = db_rows ∧
    ∃ s'', retrieve tokenize argsort argpartition query k s' = (Ok [], s'').
Proof.
  intros Hnew Hrow Hacc HT Hsort Hk.
  destruct (new_agent_inv _ _ _ _ Hnew) as [W ->].
  split; [done|]. split; [done|]. split; [by eexists|]. split; [done|].
  eexists. split.
  { eapply act_fails_dropping_caches; [reflexivity|reflexivity|exact Hrow]. }
  split; [done|]. split; [done|]. split; [done|]. split; [done|].
  split; [done|].
  by eapply (retrieve_on_empty_buffers _ _ _ _ acc).
Qed.

(** X14. An index that was loaded from files does not survive an attempt
    to ingest.  An agent constructed over a saved count matrix and
    vocabulary has the TF-IDF attributes of that matrix, and its fact
    counter starts at 0 whatever the database holds.  When the database
    already has a fact 0, [act] on any text first deletes the five
    attributes, loaded matrix included, and then fails on the INSERT
    (DatabaseError); from then on the matrix is rebuilt from the empty
    buffers, so that [retrieve] yields nothing, for every query and every
    non-negative [max_results] (the vocabulary being a saved one, numbered
    without gaps, of size other than 1). *)
Theorem reloaded_index_lost_on_act (tokenize : string -> list string)
  (argsort : list R -> list nat) (argpartition : list R -> nat -> list nat)
  (db_rows : gmap Z string) (cm : CountMatrix) (v : gmap string Z)
  (acc : list string) (s : Agent) (text query : string) (max_results : Z) :
  new_agent db_rows (Some cm) (Some v) = Some (Ok tt, s) ->
  is_Some (db_rows !! 0) ->
  enumerates v acc -> size v ≠ 1%nat ->
  argsort_spec argsort -> 0 <= max_results ->
  count_matrix s = Some cm ∧ num_docs s = Some (cm_shape cm).2 ∧
  is_Some (tfidfs s) ∧ fact_id s = 0 ∧
  ∃ s',
    act tokenize (Some text) s = (Raise DatabaseError, s') ∧
    no_caches s' ∧ all_tokens s' = v ∧ freq_token s' = [] ∧
    fact_id s' = 1 ∧ rows (store s') = db_rows ∧
    ∃ s'', retrieve tokenize argsort argpartition query max_results s'
           = (Ok [], s'').
Proof. apply reloaded_index_lost. Qed.

Lemma five_facts_vocabulary_enumerates :
  enumerates five_facts_vocabulary ["cat"; "dog"].
Proof.
  unfold five_facts_vocabulary.
  pose proof (enumerates_insert ∅ [] "cat" enumerates_empty
                (lookup_empty _)) as Hcat.
  rewrite map_size_empty in Hcat.
  pose proof (enumerates_insert _ _ "dog" Hcat) as Hdog.
  rewrite map_size_insert_None, map_size_empty in Hdog by done.
  apply Hdog. by rewrite lookup_insert_ne.
Qed.

Lemma reloaded_index_lost_on_act_witness :
  ∃ s s',
    new_agent five_facts_rows (Some five_facts_matrix)
      (Some five_facts_vocabulary) = Some (Ok tt, s) ∧
    act blank_tokenize (Some "bird") s = (Raise DatabaseError, s') ∧
    (retrieve blank_tokenize sort_positions sort_partition "cat" 3 s').1
    = Ok [].
Proof.
  destruct (new_agent_loaded five_facts_rows five_facts_matrix
              five_facts_vocabulary) as [s Hs].
  { cbn. lia. } { cbn. lia. }
  destruct (reloaded_index_lost_on_act blank_tokenize sort_positions
              sort_partition five_facts_rows five_facts_matrix
              five_facts_vocabulary ["cat"; "dog"] s "bird" "cat" 3)
    as (_ & _ & _ & _ & s' & Hact & _ & _ & _ & _ & _ & s'' & Hret).
  - exact Hs.
  - vm_compute. by eexists.
  - exact five_facts_vocabulary_enumerates.
  - vm_compute. lia.
  - exact sort_positions_argsort.
  - lia.
  - exists s, s'. split; [exact Hs|]. split; [exact Hact|].
    by rewrite Hret.
Defined.

(** X15. A saved index with a one-row count matrix (a vocabulary of one
    token) cannot be reopened: whatever the token file and the database
    hold, the constructor raises TypeError from the TF-IDF computation
    that [load] runs. *)
Theorem one_row_index_cannot_be_reopened (db_rows : gmap Z string)
  (cm : CountMatrix) (v : gmap string Z) :
  (cm_shape cm).1 = 1 ->
  ∃ s, new_agent db_rows (Some cm) (Some v) = Some (Raise TypeError, s).
Proof.
  intros H1.
  unfold new_agent, load.
  unfold bind at 1, modify. unfold bind at 1. unfold bind at 1.
  unfold bind at 1.
  unfold _compute_tfidf_from_count_matrix, bind at 1, get_state.
  cbn [tfidfs set_num_docs set_num_tokens set_count_matrix set_all_tokens
       set_store init_agent].
  unfold bind at 1, get_doc_freqs.
  cbn [doc_freqs set_num_docs set_num_tokens set_count_matrix set_all_tokens
       set_store init_agent].
  replace (is_0d (doc_freq_vector cm)) with true; [by eexists|].
  symmetry. unfold is_0d. apply Nat.eqb_eq.
  pose proof (length_doc_freq_vector cm) as Hl. lia.
Qed.

Lemma one_row_index_cannot_be_reopened_witness :
  ∃ s, new_agent ∅ (Some {| cm_shape := (1, 2);
                            cm_cells := {[ (0, 0) := 1 ]} |})
         (Some {[ "cat" := 0 ]})
       = Some (Raise TypeError, s).
Proof.
  destruct (one_row_index_cannot_be_reopened ∅
              {| cm_shape := (1, 2); cm_cells := {[ (0, 0) := 1 ]} |}
              {[ "cat" := 0 ]}) as [s Hraise].
  - reflexivity.
  - exists s. exact Hraise.
Defined.
